(** * cpuvideorecorder: a shallow embedding of the recorder sources

  Two programs are embedded:
  - [src/audio09i2.cpp], the WASAPI loopback recorder that writes a WAV
    file (module [Wav]);
  - [src/beta125tryforfinal3.cpp], the DXGI screen recorder with its
    frame pool, frame queue, pacing arithmetic, capture loop and encoder
    thread (modules [Chrono] and [Video]).

  Fixed-width integers are carried as [Z] with their conversions written
  out, the frame heap is a [gmap] from addresses to [AVFrame] records, and
  the two threads of the screen recorder are composed by an explicit
  schedule of events.  The capture source, the scaler, the encoder and the
  muxer are outside the repository: what they return is an input of the
  schedule, and the encoder follows the send/receive contract of libavcodec
  with a given lookahead.

  The definitions come first (modules [Int], [Wav], [Chrono], [Av],
  [Video]); the properties follow, grouped by subject. *)

From Stdlib Require Import ZArith QArith List String Ascii Bool Lia.
From stdpp Require Import base gmap list sorting.
Import ListNotations.

(** ** Machine integers *)

Module Int.
Local Open Scope Z_scope.

(** Conversion to an unsigned [w]-bit integer. *)
Definition wrap (w : Z) (x : Z) : Z := x mod 2 ^ w.

Definition uint16 (x : Z) : Z := wrap 16 x.
Definition uint32 (x : Z) : Z := wrap 32 x.

(** Conversion of a wider integer to [int] (32-bit two's complement). *)
Definition to_int (x : Z) : Z := (x + 2 ^ 31) mod 2 ^ 32 - 2 ^ 31.

Definition in_uint16 (x : Z) : Prop := 0 <= x < 2 ^ 16.
Definition in_uint32 (x : Z) : Prop := 0 <= x < 2 ^ 32.
End Int.

(** ** The WAV writer of [audio09i2.cpp] *)

Module Wav.
Import Int.
Local Open Scope Z_scope.

(** A byte is a [Z] in [0, 256). *)
Abbreviation BYTE := Z (only parsing).

Definition chars (s : string) : list BYTE :=
  map (fun c => Z.of_N (N_of_ascii c)) (list_ascii_of_string s).

(** [struct WAVHeader]; the four tags carry their default initialisers. *)
Record WAVHeader := mkWAVHeader {
  riff : list BYTE;
  chunkSize : Z;
  wave : list BYTE;
  fmt : list BYTE;
  subChunk1Size : Z;
  audioFormat : Z;
  numChannels : Z;
  sampleRate : Z;
  byteRate : Z;
  blockAlign : Z;
  bitsPerSample : Z;
  data : list BYTE;
  dataSize : Z
}.

(** Little-endian image of an [n]-byte unsigned field. *)
Fixpoint le_bytes (n : nat) (x : Z) : list BYTE :=
  match n with
  | O => []
  | S k => (x mod 256) :: le_bytes k (x / 256)
  end.

Fixpoint le_value (bs : list BYTE) : Z :=
  match bs with
  | [] => 0
  | b :: rest => b + 256 * le_value rest
  end.

(** [reinterpret_cast<char*>(&header)]: every member sits at its natural
    alignment, so the object has no padding and is laid out member after
    member (x86 and x64 are little-endian). *)
Definition object_bytes (h : WAVHeader) : list BYTE :=
  riff h ++ le_bytes 4 (chunkSize h) ++ wave h ++ fmt h
    ++ le_bytes 4 (subChunk1Size h) ++ le_bytes 2 (audioFormat h)
    ++ le_bytes 2 (numChannels h) ++ le_bytes 4 (sampleRate h)
    ++ le_bytes 4 (byteRate h) ++ le_bytes 2 (blockAlign h)
    ++ le_bytes 2 (bitsPerSample h) ++ data h ++ le_bytes 4 (dataSize h).

(** [std::ofstream] opened in binary mode: the bytes of the file and the
    put position. *)
Record ofstream := mkOfstream {
  contents : list BYTE;
  pos : nat
}.

Definition open : ofstream := {| contents := []; pos := 0 |}.

(** [write] overwrites from the put position and extends the file past
    its end. *)
Definition write (f : ofstream) (bs : list BYTE) : ofstream :=
  {| contents := firstn (pos f) (contents f) ++ bs
                   ++ skipn (pos f + length bs) (contents f);
     pos := (pos f + length bs)%nat |}.

Definition seekp (f : ofstream) (off : nat) : ofstream :=
  {| contents := contents f; pos := off |}.

(** [WriteWAVHeader].  The parameters are [uint16_t channels],
    [uint32_t sampleRate], [uint16_t bitsPerSample], [uint32_t dataSize].
    [sampleRate * channels * bitsPerSample / 8] is evaluated in
    [unsigned int], each product reduced modulo 2^32;
    [channels * bitsPerSample / 8] is evaluated in [int], where the product
    of two promoted [uint16_t] values can pass [INT_MAX] and then wraps on
    the machine, the division truncates, and the assignment narrows to
    [uint16_t]. *)
Definition make_header (channels sampleRate' bitsPerSample' dataSize' : Z)
  : WAVHeader :=
  {| riff := chars "RIFF";
     chunkSize := uint32 (36 + dataSize');
     wave := chars "WAVE";
     fmt := chars "fmt ";
     subChunk1Size := 16;
     audioFormat := 1;
     numChannels := channels;
     sampleRate := sampleRate';
     byteRate :=
       uint32 (uint32 (uint32 (sampleRate' * channels) * bitsPerSample') / 8);
     blockAlign := uint16 (Z.quot (to_int (channels * bitsPerSample')) 8);
     bitsPerSample := bitsPerSample';
     data := chars "data";
     dataSize := dataSize' |}.

Definition WriteWAVHeader (outFile : ofstream)
    (channels sampleRate' bitsPerSample' dataSize' : Z) : ofstream :=
  write outFile
    (object_bytes (make_header channels sampleRate' bitsPerSample' dataSize')).

(** The file handling of [main].  [nChannels] and [nSamplesPerSec] are the
    [WORD] and [DWORD] members of the mix format; [audioData] is the byte
    vector the capture loop has accumulated when it stops. *)
Definition main (nChannels nSamplesPerSec : Z) (audioData : list BYTE)
  : ofstream :=
  let outFile := open in
  let outFile := WriteWAVHeader outFile nChannels nSamplesPerSec 16 0 in
  let outFile := seekp outFile 0 in
  let outFile := WriteWAVHeader outFile nChannels nSamplesPerSec 16
                   (uint32 (Z.of_nat (length audioData))) in
  write outFile audioData.

(** Reading a header field back from the bytes of a file. *)
Definition field (off n : nat) (file : list BYTE) : Z :=
  le_value (firstn n (skipn off file)).

Definition file_chunkSize := field 4 4.
Definition file_numChannels := field 22 2.
Definition file_sampleRate := field 24 4.
Definition file_byteRate := field 28 4.
Definition file_blockAlign := field 32 2.
Definition file_bitsPerSample := field 34 2.
Definition file_dataSize := field 40 4.
End Wav.

(** ** Clock arithmetic of the capture loop *)

Module Chrono.
Local Open Scope Z_scope.

(** [std::chrono::high_resolution_clock] counts nanoseconds; a time point
    is its tick count. *)
Definition ticks_per_ms : Z := 1000000.

(** A [std::chrono::milliseconds] value added to a time point. *)
Definition ms_ticks (ms : Z) : Z := ms * ticks_per_ms.

(** [duration_cast<std::chrono::milliseconds>(d).count()] truncates
    towards zero. *)
Definition duration_cast_ms (d : Z) : Z := Z.quot d ticks_per_ms.

(** [std::chrono::milliseconds(1000 / targetFPS)], as a count of
    milliseconds; the division is the [int] division. *)
Definition frameInterval (targetFPS : Z) : Z := Z.quot 1000 targetFPS.

(** The length of the frame interval in seconds, as a rational. *)
Definition frameInterval_seconds (targetFPS : Z) : Q :=
  Qmake (frameInterval targetFPS) 1000.
End Chrono.

(** ** libav objects the recorder handles *)

Module Av.
Local Open Scope Z_scope.

Definition AV_PIX_FMT_NONE : Z := -1.
Definition AV_PIX_FMT_YUV420P : Z := 0.
Definition AV_NOPTS_VALUE : Z := - 2 ^ 63.
Definition AVERROR_EAGAIN : Z := -11.
Definition AVERROR_EOF : Z := -541478725.

(** The members of [AVFrame] the program touches; [data] is the address
    of the pixel buffers obtained by [av_frame_get_buffer]. *)
Record AVFrame := mkAVFrame {
  format : Z;
  width : Z;
  height : Z;
  pts : Z;
  data : option nat
}.

Definition set_pts (v : Z) (f : AVFrame) : AVFrame :=
  {| format := format f; width := width f; height := height f;
     pts := v; data := data f |}.

(** What neither [release] nor [av_frame_make_writable] changes in a
    frame. *)
Definition shape (f : AVFrame) : Z * Z * Z := (format f, width f, height f).

Record AVPacket := mkAVPacket { pkt_pts : Z }.

(** The encoder behind [avcodec_send_frame] / [avcodec_receive_packet]:
    it keeps up to [lookahead] frames before it emits the packet of the
    oldest one, and emits the rest only once it has been put in draining
    mode by a null frame.  [buffered] holds the pts of the frames it has
    accepted and not yet turned into a packet. *)
Record AVCodecContext := mkAVCodecContext {
  lookahead : nat;
  buffered : list Z;
  draining : bool
}.

(** The muxer: the packets written so far and whether the trailer has
    been written. *)
Record AVFormatContext := mkAVFormatContext {
  written : list AVPacket;
  trailer : bool
}.
End Av.

(** ** The screen recorder of [beta125tryforfinal3.cpp] *)

Module Video.
Import Int Chrono Av.
Local Open Scope Z_scope.

(** [struct FrameItem]: the address of a frame and a copy of its pts. *)
Record FrameItem := mkFrameItem {
  frame : nat;
  pts : Z
}.

(** [class FrameQueue]: the [std::queue] member, front first.  The mutex
    makes each member function one atomic action; the thread parked on the
    condition variable is recorded in the status of the encoder thread. *)
Record FrameQueue := mkFrameQueue { q : list FrameItem }.

(** [class FramePool]: the queue of free frame addresses, front first. *)
Record FramePool := mkFramePool { freeFrames : list nat }.

(** Where the capture loop of [main] stands. *)
Inductive CaptureStatus :=
| Capturing      (* about to test [while (!stopRecording)] *)
| InBody         (* the test has passed, the body is about to run *)
| Joining        (* the loop has ended, [encoderThread.join()] pending *)
| Finished.      (* trailer written *)

(** Where the encoder thread stands. *)
Inductive EncoderStatus :=
| AtLoopHead     (* about to test [!stopRecording || !frameQueue.empty()] *)
| InPop          (* inside [pop], about to test the wait condition *)
| Parked         (* inside [cv.wait(lock)] *)
| Exited.        (* the thread function has returned *)

Record State := mkState {
  stopRecording : bool;
  frameQueue : FrameQueue;
  framePool : FramePool;
  frames : gmap nat AVFrame;     (* the objects behind [AVFrame*] *)
  brk : nat;                     (* next address the allocator hands out *)
  frameCounter : Z;
  nextFrameTime : Z;
  codecCtx : AVCodecContext;
  outCtx : AVFormatContext;
  captureLoop : CaptureStatus;
  encoderThread : EncoderStatus
}.

(** What a run leaves behind for an observer. *)
Inductive Obs :=
| Cerr (msg : string)
| SleepUntil (t : Z)
| SleepFor (ms : Z)
| Acquire (r : option nat)
| Release (f : nat)
| Push (item : FrameItem)
| Pop (r : option FrameItem)
| SendFrame (f : option nat) (rc : Z)
| WriteFrame (pkt : AVPacket) (rc : Z)
| WriteTrailer.

(** Code runs in a state monad that also collects the observations. *)
Definition M (A : Type) : Type := State -> A * (State * list Obs).

#[global] Instance M_ret : MRet M := fun A a s => (a, (s, [])).
#[global] Instance M_bind : MBind M := fun A B f m s =>
  let r1 := m s in
  let r2 := f (fst r1) (fst (snd r1)) in
  (fst r2, (fst (snd r2), snd (snd r1) ++ snd (snd r2))).

Definition gets {A} (f : State -> A) : M A := fun s => (f s, (s, [])).
Definition modify (f : State -> State) : M unit := fun s => (tt, (f s, [])).
Definition emit (o : Obs) : M unit := fun s => (tt, (s, [o])).

Definition set_stopRecording (v : bool) (s : State) : State :=
  mkState v (frameQueue s) (framePool s) (frames s) (brk s) (frameCounter s)
    (nextFrameTime s) (codecCtx s) (outCtx s) (captureLoop s) (encoderThread s).
Definition set_frameQueue (v : FrameQueue) (s : State) : State :=
  mkState (stopRecording s) v (framePool s) (frames s) (brk s) (frameCounter s)
    (nextFrameTime s) (codecCtx s) (outCtx s) (captureLoop s) (encoderThread s).
Definition set_framePool (v : FramePool) (s : State) : State :=
  mkState (stopRecording s) (frameQueue s) v (frames s) (brk s) (frameCounter s)
    (nextFrameTime s) (codecCtx s) (outCtx s) (captureLoop s) (encoderThread s).
Definition set_frames (v : gmap nat AVFrame) (s : State) : State :=
  mkState (stopRecording s) (frameQueue s) (framePool s) v (brk s) (frameCounter s)
    (nextFrameTime s) (codecCtx s) (outCtx s) (captureLoop s) (encoderThread s).
Definition set_brk (v : nat) (s : State) : State :=
  mkState (stopRecording s) (frameQueue s) (framePool s) (frames s) v (frameCounter s)
    (nextFrameTime s) (codecCtx s) (outCtx s) (captureLoop s) (encoderThread s).
Definition set_frameCounter (v : Z) (s : State) : State :=
  mkState (stopRecording s) (frameQueue s) (framePool s) (frames s) (brk s) v
    (nextFrameTime s) (codecCtx s) (outCtx s) (captureLoop s) (encoderThread s).
Definition set_nextFrameTime (v : Z) (s : State) : State :=
  mkState (stopRecording s) (frameQueue s) (framePool s) (frames s) (brk s)
    (frameCounter s) v (codecCtx s) (outCtx s) (captureLoop s) (encoderThread s).
Definition set_codecCtx (v : AVCodecContext) (s : State) : State :=
  mkState (stopRecording s) (frameQueue s) (framePool s) (frames s) (brk s)
    (frameCounter s) (nextFrameTime s) v (outCtx s) (captureLoop s) (encoderThread s).
Definition set_outCtx (v : AVFormatContext) (s : State) : State :=
  mkState (stopRecording s) (frameQueue s) (framePool s) (frames s) (brk s)
    (frameCounter s) (nextFrameTime s) (codecCtx s) v (captureLoop s) (encoderThread s).
Definition set_captureLoop (v : CaptureStatus) (s : State) : State :=
  mkState (stopRecording s) (frameQueue s) (framePool s) (frames s) (brk s)
    (frameCounter s) (nextFrameTime s) (codecCtx s) (outCtx s) v (encoderThread s).
Definition set_encoderThread (v : EncoderStatus) (s : State) : State :=
  mkState (stopRecording s) (frameQueue s) (framePool s) (frames s) (brk s)
    (frameCounter s) (nextFrameTime s) (codecCtx s) (outCtx s) (captureLoop s) v.

(** *** [signalHandler] *)

Definition signalHandler : M unit := modify (set_stopRecording true).

(** *** [FrameQueue] *)

(** [cv.notify_one()]: a thread parked in [cv.wait] becomes runnable and
    will test the wait condition again. *)
Definition wake (st : EncoderStatus) : EncoderStatus :=
  match st with
  | Parked => InPop
  | _ => st
  end.

Definition notify_one : M unit :=
  modify (fun s => set_encoderThread (wake (encoderThread s)) s).

Definition push (item : FrameItem) : M unit :=
  modify (fun s => set_frameQueue (mkFrameQueue (q (frameQueue s) ++ [item])) s);;
  notify_one;;
  emit (Push item).

(** The outcome of entering (or re-entering) [pop]: the caller (only the
    encoder thread calls [pop]) is parked in [cv.wait], or [pop] returns, [None] standing for [false] and
    [Some item] for [true] with [item] assigned. *)
Inductive PopOutcome :=
| Waits
| Returns (r : option FrameItem).

Definition pop : M PopOutcome :=
  s ← gets id;
  match q (frameQueue s) with
  | [] =>
      if negb (stopRecording s)
      then modify (set_encoderThread Parked);; mret Waits
      else emit (Pop None);; mret (Returns None)
  | item :: rest =>
      modify (set_frameQueue (mkFrameQueue rest));;
      emit (Pop (Some item));;
      mret (Returns (Some item))
  end.

Definition empty : M bool :=
  s ← gets id;
  mret (match q (frameQueue s) with [] => true | _ => false end).

(** *** [FramePool] *)

(** [av_frame_alloc]: a fresh frame object with libav's defaults.  The
    constructor of the pool uses the result without a test, and so does the
    embedding: allocation is taken to succeed. *)
Definition av_frame_alloc : M nat :=
  a ← gets brk;
  modify (fun s => set_brk (S a)
    (set_frames (<[a := mkAVFrame AV_PIX_FMT_NONE 0 0 AV_NOPTS_VALUE None]> (frames s)) s));;
  mret a.

Definition update_frame (a : nat) (f : AVFrame -> AVFrame) : M unit :=
  modify (fun s => set_frames (alter f a (frames s)) s).

(** [av_frame_get_buffer(f, 32)]: fresh pixel buffers for the frame. *)
Definition av_frame_get_buffer (a : nat) : M unit :=
  b ← gets brk;
  modify (set_brk (S b));;
  update_frame a (fun f =>
    mkAVFrame (format f) (width f) (height f) (Av.pts f) (Some b)).

(** The constructor's loop, [n] iterations. *)
Fixpoint FramePool_loop (n : nat) (width' height' pix_fmt : Z) : M unit :=
  match n with
  | O => mret tt
  | S k =>
      f ← av_frame_alloc;
      update_frame f (fun fr =>
        mkAVFrame pix_fmt width' height' (Av.pts fr) (data fr));;
      av_frame_get_buffer f;;
      modify (fun s =>
        set_framePool (mkFramePool (freeFrames (framePool s) ++ [f])) s);;
      FramePool_loop k width' height' pix_fmt
  end.

Definition FramePool_ctor (size width' height' pix_fmt : Z) : M unit :=
  modify (set_framePool (mkFramePool []));;
  FramePool_loop (Z.to_nat size) width' height' pix_fmt.

Definition acquire : M (option nat) :=
  s ← gets id;
  match freeFrames (framePool s) with
  | [] => emit (Acquire None);; mret None
  | f :: rest =>
      modify (set_framePool (mkFramePool rest));;
      emit (Acquire (Some f));;
      mret (Some f)
  end.

Definition release (f : nat) : M unit :=
  update_frame f (set_pts 0);;
  modify (fun s =>
    set_framePool (mkFramePool (freeFrames (framePool s) ++ [f])) s);;
  emit (Release f).

(** *** The encoder and the muxer

    [send_rc] and [write_rc] are what the environment decides for a call:
    a negative value makes the call fail with that code.  Arithmetic on
    [int64_t] values (the frame counter, the tick counts of time points) is
    carried out in [Z]; arithmetic on [int] wraps as on the machine. *)

Definition frame_pts (s : State) (a : nat) : Z :=
  from_option Av.pts AV_NOPTS_VALUE (frames s !! a).

Definition avcodec_send_frame (send_rc : Z) (f : option nat) : M Z :=
  s ← gets id;
  let c := codecCtx s in
  rc ← (if send_rc <? 0 then mret send_rc
        else if draining c then mret AVERROR_EOF
        else match f with
             | None =>
                 modify (set_codecCtx
                   (mkAVCodecContext (lookahead c) (buffered c) true));;
                 mret 0
             | Some a =>
                 modify (set_codecCtx
                   (mkAVCodecContext (lookahead c)
                      (buffered c ++ [frame_pts s a]) false));;
                 mret 0
             end);
  emit (SendFrame f rc);;
  mret rc.

Definition avcodec_receive_packet : M (Z * AVPacket) :=
  s ← gets id;
  let c := codecCtx s in
  match buffered c with
  | p :: rest =>
      if draining c || (lookahead c <? length (buffered c))%nat
      then
        modify (set_codecCtx (mkAVCodecContext (lookahead c) rest (draining c)));;
        mret (0, mkAVPacket p)
      else mret (AVERROR_EAGAIN, mkAVPacket AV_NOPTS_VALUE)
  | [] =>
      mret (if draining c then AVERROR_EOF else AVERROR_EAGAIN,
            mkAVPacket AV_NOPTS_VALUE)
  end.

Definition av_interleaved_write_frame (write_rc : Z) (pkt : AVPacket) : M Z :=
  (if write_rc <? 0 then mret tt
   else modify (fun s =>
          set_outCtx (mkAVFormatContext (written (outCtx s) ++ [pkt])
                        (trailer (outCtx s))) s));;
  emit (WriteFrame pkt (Z.min write_rc 0));;
  mret (Z.min write_rc 0).

Definition av_write_trailer : M unit :=
  modify (fun s =>
    set_outCtx (mkAVFormatContext (written (outCtx s)) true) s);;
  emit WriteTrailer.

(** [while (avcodec_receive_packet(codecCtx, &pkt) == 0) { write; unref }],
    at most [fuel] iterations. *)
Fixpoint receive_loop_fuel (fuel : nat) (write_rc : Z) : M unit :=
  match fuel with
  | O => mret tt
  | S k =>
      r ← avcodec_receive_packet;
      if fst r =? 0
      then av_interleaved_write_frame write_rc (snd r);;
           receive_loop_fuel k write_rc
      else mret tt
  end.

(** Each iteration removes one buffered frame, so the number of buffered
    frames is fuel enough. *)
Definition receive_loop (write_rc : Z) : M unit :=
  n ← gets (fun s => length (buffered (codecCtx s)));
  receive_loop_fuel n write_rc.

(** *** The encoder thread *)

(** The code after the loop, up to the end of the thread function. *)
Definition flush_and_return (write_rc : Z) : M unit :=
  receive_loop write_rc;;
  modify (set_encoderThread Exited).

(** One iteration of the loop from the call of [pop] on. *)
Definition encoder_body (send_rc write_rc : Z) : M unit :=
  r ← pop;
  match r with
  | Waits => mret tt
  | Returns None => modify (set_encoderThread AtLoopHead)
  | Returns (Some item) =>
      rc ← avcodec_send_frame send_rc (Some (frame item));
      if rc <? 0
      then emit (Cerr "Error sending frame to encoder");;
           flush_and_return write_rc
      else receive_loop write_rc;;
           release (frame item);;
           modify (set_encoderThread AtLoopHead)
  end.

Definition encoder_step (send_rc write_rc : Z) : M unit :=
  s ← gets id;
  match encoderThread s with
  | AtLoopHead =>
      e ← empty;
      if negb (stopRecording s) || negb e
      then modify (set_encoderThread InPop);; encoder_body send_rc write_rc
      else flush_and_return write_rc
  | InPop => encoder_body send_rc write_rc
  | Parked | Exited => mret tt
  end.

(** *** The capture loop *)

Definition width : Z := 1280.
Definition height : Z := 720.
Definition targetFPS : Z := 30.

(** The pacing at the head of an iteration; [now] is the clock reading.
    [skipCount] is an [int]: the quotient is narrowed to it, and
    [skipCount + 1] is an [int] addition, which wraps at [INT_MAX] before
    the product with the interval is taken in [int64_t]. *)
Definition pace (now : Z) : M unit :=
  s ← gets id;
  let interval := frameInterval targetFPS in
  if now >? nextFrameTime s + ms_ticks interval
  then
    let skipCount :=
      to_int (Z.quot (duration_cast_ms (now - nextFrameTime s)) interval) in
    modify (set_frameCounter (frameCounter s + skipCount));;
    modify (set_nextFrameTime
              (nextFrameTime s + ms_ticks (interval * to_int (skipCount + 1))))
  else
    emit (SleepUntil (nextFrameTime s));;
    modify (set_nextFrameTime (nextFrameTime s + ms_ticks interval)).

(** [av_frame_make_writable(frameYUV)].  Nothing happens when the frame
    holds the only reference to its buffers.  The encoder may keep a
    reference to the buffers of a frame it was sent; when it still holds
    one ([shared]), the call allocates new buffers, copies the image and
    lets the frame point to the copy, with its pts, format and size as they
    were.  The capture loop does not look at the result; allocation is
    taken to succeed, as in the constructor of the pool. *)
Definition av_frame_make_writable (shared : bool) (a : nat) : M unit :=
  if shared then av_frame_get_buffer a else mret tt.

(** The rest of the body of [while (!stopRecording)].  [acquired] tells
    whether [AcquireNextFrame] returned [S_OK], [shared] whether the
    encoder still holds a reference to the buffers of the frame acquired
    from the pool, [scaled] is the value of the second [sws_scale] call. *)
Definition grab_frame (acquired shared : bool) (scaled : Z) : M unit :=
  if negb acquired
  then emit (SleepFor 1)
  else
    r ← acquire;
    match r with
    | None => emit (Cerr "Pool empty, skipping frame")
    | Some frameYUV =>
        av_frame_make_writable shared frameYUV;;
        if scaled <=? 0
        then emit (Cerr "sws_scale failed");;
             release frameYUV
        else
          c ← gets frameCounter;
          update_frame frameYUV (set_pts c);;
          modify (set_frameCounter (c + 1));;
          push (mkFrameItem frameYUV c)
    end.

Definition capture_iteration (now : Z) (acquired shared : bool) (scaled : Z)
  : M unit :=
  pace now;;
  grab_frame acquired shared scaled.

(** The test of [while (!stopRecording)].  The flag is read here and nowhere
    else in the loop, so the signal may arrive between the test and the
    body. *)
Definition capture_head : M unit :=
  s ← gets id;
  match captureLoop s with
  | Capturing =>
      if stopRecording s
      then modify (set_captureLoop Joining)
      else modify (set_captureLoop InBody)
  | _ => mret tt
  end.

Definition capture_step (now : Z) (acquired shared : bool) (scaled : Z)
  : M unit :=
  s ← gets id;
  match captureLoop s with
  | InBody =>
      capture_iteration now acquired shared scaled;;
      modify (set_captureLoop Capturing)
  | _ => mret tt
  end.

(** [encoderThread.join()] returns once the thread function has returned;
    [av_write_trailer] follows. *)
Definition join_step : M unit :=
  s ← gets id;
  match captureLoop s, encoderThread s with
  | Joining, Exited => av_write_trailer;; modify (set_captureLoop Finished)
  | _, _ => mret tt
  end.

(** A wake-up of [cv.wait] that no notification caused. *)
Definition spurious_wakeup : M unit := notify_one.

(** *** Schedules

    An event is a stretch of one thread that runs without the other thread
    or the signal in between: the signal handler; the test at the head of
    the capture loop; the body of the capture loop (it reads the clock,
    then touches the pool and the queue through their locked member
    functions only); one round of the encoder thread up to the point where
    it parks, returns to the head of its loop or leaves the thread function;
    a spurious wake-up; the join and what follows it.  The body of the
    capture loop comes twice: [Capture] when the frame it acquires holds
    the only reference to its buffers (or no frame is acquired),
    [CaptureShared] when the encoder still holds a reference to them. *)

Inductive Event :=
| Sigint
| CaptureHead
| Capture (now : Z) (acquired : bool) (scaled : Z)
| Encode (send_rc write_rc : Z)
| SpuriousWakeup
| Join
| CaptureShared (now : Z) (acquired : bool) (scaled : Z).

Definition capture_event (shared : bool) (now : Z) (acquired : bool)
    (scaled : Z) : Event :=
  if shared then CaptureShared now acquired scaled
  else Capture now acquired scaled.

Definition step (ev : Event) : M unit :=
  match ev with
  | Sigint => signalHandler
  | CaptureHead => capture_head
  | Capture now acquired scaled => capture_step now acquired false scaled
  | CaptureShared now acquired scaled => capture_step now acquired true scaled
  | Encode send_rc write_rc => encoder_step send_rc write_rc
  | SpuriousWakeup => spurious_wakeup
  | Join => join_step
  end.

Fixpoint run (evs : list Event) : M unit :=
  match evs with
  | [] => mret tt
  | ev :: rest => step ev;; run rest
  end.

Definition exec {A} (m : M A) (s : State) : State := fst (snd (m s)).
Definition result {A} (m : M A) (s : State) : A := fst (m s).
Definition trace {A} (m : M A) (s : State) : list Obs := snd (snd (m s)).

(** The state when the threads start: everything [main] has set up before
    the capture loop.  [t0] is the first clock reading, [la] the lookahead
    of the encoder that was opened, [size] the size given to the pool. *)
Definition boot (t0 : Z) (la : nat) : State :=
  mkState false (mkFrameQueue []) (mkFramePool []) ∅ 1 0 t0
    (mkAVCodecContext la [] false) (mkAVFormatContext [] false)
    Capturing AtLoopHead.

Definition start_with (size : Z) (t0 : Z) (la : nat) : State :=
  exec (FramePool_ctor size width height AV_PIX_FMT_YUV420P) (boot t0 la).

(** [FramePool framePool(50, width, height, codecCtx->pix_fmt)] *)
Definition start : Z -> nat -> State := start_with 50.

(** The frames pushed, popped, acquired and released in a trace. *)
Definition pushes (t : list Obs) : list FrameItem :=
  omap (fun o => match o with Push i => Some i | _ => None end) t.
Definition pops (t : list Obs) : list FrameItem :=
  omap (fun o => match o with Pop (Some i) => Some i | _ => None end) t.
Definition acquired (t : list Obs) : list nat :=
  omap (fun o => match o with Acquire (Some f) => Some f | _ => None end) t.
Definition released (t : list Obs) : list nat :=
  omap (fun o => match o with Release f => Some f | _ => None end) t.
Definition logged (t : list Obs) : list string :=
  omap (fun o => match o with Cerr m => Some m | _ => None end) t.

(** The addresses the constructor of the pool obtains from [n] calls of
    [av_frame_alloc], each followed by [av_frame_get_buffer], when the
    allocator stands at [b]. *)
Fixpoint frame_addrs (b : nat) (n : nat) : list nat :=
  match n with
  | O => []
  | S k => b :: frame_addrs (S (S b)) k
  end.

(** The frames that sit in the pool or in the queue. *)
Definition owned (s : State) : list nat :=
  freeFrames (framePool s) ++ map frame (q (frameQueue s)).

(** Two states that differ in the encoder and the muxer at most. *)
Definition same_shared (s s' : State) : Prop :=
  s' = set_outCtx (outCtx s') (set_codecCtx (codecCtx s') s).

(** Observations that come from the muxer only. *)
Definition is_write (o : Obs) : bool :=
  match o with WriteFrame _ _ => true | _ => false end.

(** The packets written with success in a trace. *)
Definition packets (t : list Obs) : list AVPacket :=
  omap (fun o => match o with
                 | WriteFrame p rc => if rc <? 0 then None else Some p
                 | _ => None
                 end) t.

(** A schedule with the wake-ups that no notification caused left out. *)
Definition is_spurious (ev : Event) : bool :=
  match ev with SpuriousWakeup => true | _ => false end.
Definition without_spurious (evs : list Event) : list Event :=
  List.filter (fun ev => negb (is_spurious ev)) evs.

(** Every clock reading of the schedule lies less than 2^31 - 1 frame
    intervals after [t0]: then [skipCount + 1] stays below 2^31. *)
Definition clock_ok (t0 : Z) (ev : Event) : Prop :=
  match ev with
  | Capture now _ _ | CaptureShared now _ _ =>
      now - t0 < (2 ^ 31 - 1) * ms_ticks (frameInterval targetFPS)
  | _ => True
  end.

(** The events in which [av_frame_make_writable] allocates nothing. *)
Definition unshared (ev : Event) : Prop :=
  match ev with CaptureShared _ _ _ => False | _ => True end.

Definition clock_in_range (t0 : Z) (evs : list Event) : Prop :=
  Forall (clock_ok t0) evs.

(** The counter and the deadline never go back, and a pushed frame carries
    a pts between the counter before and the counter after. *)
Definition pts_step (t0 : Z) (s s' : State) (t : list Obs) : Prop :=
  t0 <= nextFrameTime s ->
  t0 <= nextFrameTime s'
  /\ frameCounter s <= frameCounter s'
  /\ Forall (fun item => frameCounter s <= pts item < frameCounter s')
       (pushes t)
  /\ StronglySorted Z.lt (map pts (pushes t)).


(** *** The steps as relations

    The same steps, as the cases they fall into: the state before, the
    state after and the observations made. *)

Definition skip_at (now : Z) (s : State) : Z :=
  to_int (Z.quot (duration_cast_ms (now - nextFrameTime s))
            (frameInterval targetFPS)).

Inductive paced (now : Z) (s : State) : State -> list Obs -> Prop :=
| paced_behind :
    now > nextFrameTime s + ms_ticks (frameInterval targetFPS) ->
    paced now s
      (set_nextFrameTime
         (nextFrameTime s
          + ms_ticks (frameInterval targetFPS * to_int (skip_at now s + 1)))
         (set_frameCounter (frameCounter s + skip_at now s) s))
      []
| paced_on_time :
    now <= nextFrameTime s + ms_ticks (frameInterval targetFPS) ->
    paced now s
      (set_nextFrameTime
         (nextFrameTime s + ms_ticks (frameInterval targetFPS))
         (set_frameCounter (frameCounter s) s))
      [SleepUntil (nextFrameTime s)].

(** The allocator and the frame objects after [av_frame_make_writable] on
    the frame at [a]. *)
Definition writable_brk (shared : bool) (s : State) : nat :=
  if shared then S (brk s) else brk s.
Definition writable_frames (shared : bool) (a : nat) (s : State)
  : gmap nat AVFrame :=
  if shared
  then alter (fun f => mkAVFrame (format f) (Av.width f) (Av.height f)
                         (Av.pts f) (Some (brk s))) a (frames s)
  else frames s.

Inductive captured (now : Z) (a sh : bool) (sc : Z) (s : State)
  : State -> list Obs -> Prop :=
| cap_idle :
    captureLoop s <> InBody ->
    captured now a sh sc s s []
| cap_no_frame sp tp :
    captureLoop s = InBody ->
    paced now s sp tp -> a = false ->
    captured now a sh sc s (set_captureLoop Capturing sp) (tp ++ [SleepFor 1])
| cap_pool_empty sp tp :
    captureLoop s = InBody ->
    paced now s sp tp -> a = true ->
    freeFrames (framePool s) = [] ->
    captured now a sh sc s (set_captureLoop Capturing sp)
      (tp ++ [Acquire None; Cerr "Pool empty, skipping frame"])
| cap_scale_failed sp tp f rest :
    captureLoop s = InBody ->
    paced now s sp tp -> a = true ->
    freeFrames (framePool s) = f :: rest -> sc <= 0 ->
    captured now a sh sc s
      (set_captureLoop Capturing
         (set_framePool (mkFramePool (rest ++ [f]))
            (set_frames (alter (set_pts 0) f (writable_frames sh f s))
               (set_brk (writable_brk sh s) sp))))
      (tp ++ [Acquire (Some f); Cerr "sws_scale failed"; Release f])
| cap_pushed sp tp f rest :
    captureLoop s = InBody ->
    paced now s sp tp -> a = true ->
    freeFrames (framePool s) = f :: rest -> 0 < sc ->
    captured now a sh sc s
      (set_captureLoop Capturing
         (set_encoderThread (wake (encoderThread s))
            (set_frameQueue
               (mkFrameQueue
                  (q (frameQueue s) ++ [mkFrameItem f (frameCounter sp)]))
               (set_frameCounter (frameCounter sp + 1)
                  (set_frames
                     (alter (set_pts (frameCounter sp)) f
                        (writable_frames sh f s))
                     (set_framePool (mkFramePool rest)
                        (set_brk (writable_brk sh s) sp)))))))
      (tp ++ [Acquire (Some f); Push (mkFrameItem f (frameCounter sp))]).

(** What a run of the receive loop may have done to the encoder [c] and
    the muxer [o], with the trace [tw] it left. *)
Definition codec_moved (s : State) (c : AVCodecContext)
    (o : AVFormatContext) (tw : list Obs) : Prop :=
  forallb is_write tw = true
  /\ draining c = draining (codecCtx s)
  /\ lookahead c = lookahead (codecCtx s)
  /\ trailer o = trailer (outCtx s).

Definition runnable (s : State) : Prop :=
  encoderThread s = AtLoopHead \/ encoderThread s = InPop.

Inductive encoded (send_rc write_rc : Z) (s : State)
  : State -> list Obs -> Prop :=
| enc_idle :
    encoderThread s = Parked \/ encoderThread s = Exited ->
    encoded send_rc write_rc s s []
| enc_park :
    runnable s -> q (frameQueue s) = [] -> stopRecording s = false ->
    encoded send_rc write_rc s (set_encoderThread Parked s) []
| enc_end_of_stream :
    encoderThread s = InPop ->
    q (frameQueue s) = [] -> stopRecording s = true ->
    encoded send_rc write_rc s (set_encoderThread AtLoopHead s) [Pop None]
| enc_loop_exit c o tw :
    encoderThread s = AtLoopHead ->
    q (frameQueue s) = [] -> stopRecording s = true ->
    codec_moved s c o tw ->
    encoded send_rc write_rc s
      (set_encoderThread Exited (set_outCtx o (set_codecCtx c s))) tw
| enc_send_failed item rest rc c o tw :
    runnable s -> q (frameQueue s) = item :: rest ->
    rc < 0 -> (send_rc < 0 -> rc = send_rc) ->
    (0 <= send_rc -> draining (codecCtx s) = true) ->
    codec_moved s c o tw ->
    encoded send_rc write_rc s
      (set_encoderThread Exited
         (set_outCtx o (set_codecCtx c (set_frameQueue (mkFrameQueue rest) s))))
      (Pop (Some item) :: SendFrame (Some (frame item)) rc
         :: Cerr "Error sending frame to encoder" :: tw)
| enc_sent item rest c o tw :
    runnable s -> q (frameQueue s) = item :: rest ->
    0 <= send_rc -> draining (codecCtx s) = false ->
    codec_moved s c o tw ->
    encoded send_rc write_rc s
      (set_encoderThread AtLoopHead
         (set_framePool
            (mkFramePool (freeFrames (framePool s) ++ [frame item]))
            (set_frames (alter (set_pts 0) (frame item) (frames s))
               (set_outCtx o
                  (set_codecCtx c (set_frameQueue (mkFrameQueue rest) s))))))
      (Pop (Some item) :: SendFrame (Some (frame item)) 0
         :: tw ++ [Release (frame item)]).

Inductive stepped : Event -> State -> State -> list Obs -> Prop :=
| stepped_sigint s :
    stepped Sigint s (set_stopRecording true s) []
| stepped_head_idle s :
    captureLoop s <> Capturing ->
    stepped CaptureHead s s []
| stepped_head_exit s :
    captureLoop s = Capturing -> stopRecording s = true ->
    stepped CaptureHead s (set_captureLoop Joining s) []
| stepped_head_enter s :
    captureLoop s = Capturing -> stopRecording s = false ->
    stepped CaptureHead s (set_captureLoop InBody s) []
| stepped_capture now a sh sc s s' t :
    captured now a sh sc s s' t -> stepped (capture_event sh now a sc) s s' t
| stepped_encode send_rc write_rc s s' t :
    encoded send_rc write_rc s s' t -> stepped (Encode send_rc write_rc) s s' t
| stepped_spurious s :
    stepped SpuriousWakeup s (set_encoderThread (wake (encoderThread s)) s) []
| stepped_join_waits s :
    captureLoop s <> Joining \/ encoderThread s <> Exited ->
    stepped Join s s []
| stepped_join s :
    captureLoop s = Joining -> encoderThread s = Exited ->
    stepped Join s
      (set_captureLoop Finished
         (set_outCtx (mkAVFormatContext (written (outCtx s)) true) s))
      [WriteTrailer].
End Video.

(** ** Time stamps in file names *)

Module Stamp.
Local Open Scope Z_scope.

(** The members of [std::tm] the programs print. *)
Record tm := mkTm {
  tm_sec : Z;
  tm_min : Z;
  tm_hour : Z;
  tm_mday : Z;
  tm_mon : Z;
  tm_year : Z
}.

(** The character of a decimal digit. *)
Definition digit (d : Z) : ascii := ascii_of_N (48 + Z.to_N d).

(** The decimal digits of a non-negative number, most significant first;
    an [int] has ten digits at most. *)
Fixpoint digits (fuel : nat) (n : Z) (acc : list ascii) : list ascii :=
  match fuel with
  | O => acc
  | S k =>
      let acc' := digit (n mod 10) :: acc in
      if n / 10 =? 0 then acc' else digits k (n / 10) acc'
  end.

(** [stream << n] for an [int], with no width set. *)
Definition put_int (n : Z) : list ascii :=
  if n <? 0 then "-"%char :: digits 10 (- n) [] else digits 10 n [].

(** [stream << std::setw(2) << std::setfill('0') << n]: the text of [n],
    filled on the left with ['0'] up to two characters. *)
Definition put_int_w2 (n : Z) : list ascii :=
  let text := put_int n in
  repeat "0"%char (2 - length text) ++ text.

(** [GetTimestamp] of [audio09i2.cpp], on the broken-down local time. *)
Definition GetTimestamp (t : tm) : list ascii :=
  put_int (tm_year t + 1900)
    ++ put_int_w2 (tm_mon t + 1)
    ++ put_int_w2 (tm_mday t)
    ++ "_"%char
    :: put_int_w2 (tm_hour t)
    ++ put_int_w2 (tm_min t)
    ++ put_int_w2 (tm_sec t).

(** ["recording_" + GetTimestamp() + ".wav"] *)
Definition audio_fileName (t : tm) : list ascii :=
  list_ascii_of_string "recording_" ++ GetTimestamp t
    ++ list_ascii_of_string ".wav".

(** A conversion of [strftime] that prints a number as two decimal
    digits. *)
Definition two_digits (n : Z) : list ascii :=
  [digit (n / 10); digit (n mod 10)].

(** The conversions [std::put_time] is asked for. *)
Definition conversion (c : ascii) (t : tm) : list ascii :=
  if Ascii.eqb c "Y" then put_int (tm_year t + 1900)
  else if Ascii.eqb c "m" then two_digits (tm_mon t + 1)
  else if Ascii.eqb c "d" then two_digits (tm_mday t)
  else if Ascii.eqb c "H" then two_digits (tm_hour t)
  else if Ascii.eqb c "M" then two_digits (tm_min t)
  else if Ascii.eqb c "S" then two_digits (tm_sec t)
  else [].

(** [std::put_time(&tm, fmt)]: conversions are expanded, every other
    character is copied. *)
Fixpoint put_time (t : tm) (fmt : list ascii) : list ascii :=
  match fmt with
  | [] => []
  | c :: rest =>
      match rest with
      | d :: rest' =>
          if Ascii.eqb c "%"
          then conversion d t ++ put_time t rest'
          else c :: put_time t rest
      | [] => [c]
      end
  end.

(** [getTimestampedFilename] of [beta125tryforfinal3.cpp], on the
    broken-down local time. *)
Definition getTimestampedFilename (t : tm) : list ascii :=
  list_ascii_of_string "dxgi_output_"
    ++ put_time t (list_ascii_of_string "%Y%m%d_%H%M%S")
    ++ list_ascii_of_string ".avi".

(** What [localtime] delivers, for a year of four digits. *)
Definition tm_ok (t : tm) : Prop :=
  0 <= tm_sec t <= 60 /\ 0 <= tm_min t <= 59 /\ 0 <= tm_hour t <= 23
  /\ 1 <= tm_mday t <= 31 /\ 0 <= tm_mon t <= 11
  /\ 1000 <= tm_year t + 1900 <= 9999.
End Stamp.

(** ** The capture loop of [audio09i2.cpp] *)

Module Loopback.
Import Int.
Local Open Scope Z_scope.

Definition AUDCLNT_BUFFERFLAGS_SILENT : Z := 2.

(** Conversion to [int16_t]. *)
Definition int16 (x : Z) : Z := (x + 2 ^ 15) mod 2 ^ 16 - 2 ^ 15.

(** [audioData.push_back(s16 & 0xFF);
     audioData.push_back((s16 >> 8) & 0xFF);] *)
Definition sample_bytes (s16 : Z) : list Z :=
  [Z.land s16 255; Z.land (Z.shiftr s16 8) 255].

(** What [GetBuffer] hands out: the flags, the number of frames and the
    buffer, read as an array of [float]. *)
Record Packet {F : Type} := mkPacket {
  flags : Z;
  numFrames : Z;
  fData : nat -> F
}.
Arguments Packet F : clear implicits.

Section Samples.
(** The arithmetic on [float] is left to the operations below: the absolute
    value, [std::max], the test [maxSample > 1.0f], the division, and the
    value of [std::clamp(sample, -1.0f, 1.0f) * 32767.0f] cut to an
    integer. *)
Context {F : Type}.
Variable fabs : F -> F.
Variable fmax : F -> F -> F.
Variable exceeds_one : F -> bool.
Variable fdiv : F -> F -> F.
Variable scaled : F -> Z.

(** The first [for] loop: the running peak. *)
Fixpoint peak (n : nat) (i : nat) (buf : nat -> F) (maxSample : F) : F :=
  match n with
  | O => maxSample
  | S k => peak k (S i) buf (fmax maxSample (fabs (buf i)))
  end.

(** The second [for] loop: scale, convert, append low byte and high byte. *)
Fixpoint convert (n : nat) (i : nat) (buf : nat -> F) (maxSample : F)
    (audioData : list Z) : list Z :=
  match n with
  | O => audioData
  | S k =>
      let sample := buf i in
      let sample :=
        if exceeds_one maxSample then fdiv sample maxSample else sample in
      let s16 := int16 (scaled sample) in
      convert k (S i) buf maxSample (audioData ++ sample_bytes s16)
  end.

(** The state the loop carries: the bytes collected and the peak. *)
Record Capture := mkCapture {
  audioData : list Z;
  maxSample : F
}.

(** From a successful [GetBuffer] to the call of [ReleaseBuffer];
    [nChannels] and [nBlockAlign] are the [WORD] members of the mix
    format, the products are formed in [UINT32]. *)
Definition process_packet (nChannels nBlockAlign : Z) (p : Packet F)
    (st : Capture) : Capture :=
  if Z.land (flags p) AUDCLNT_BUFFERFLAGS_SILENT =? 0
  then
    let count := Z.to_nat (uint32 (numFrames p * nChannels)) in
    let m := peak count 0 (fData p) (maxSample st) in
    mkCapture (convert count 0 (fData p) m (audioData st)) m
  else
    mkCapture
      (audioData st
         ++ repeat 0 (Z.to_nat (uint32 (numFrames p * nBlockAlign))))
      (maxSample st).

(** What the audio client answers during one pass of the inner loop:
    [GetBuffer] ([None] when it fails), [ReleaseBuffer], and the next
    [GetNextPacketSize] ([None] when it fails). *)
Record Inner := mkInner {
  buffer : option (Packet F);
  released : bool;
  next_size : option Z
}.

(** What happens during one pass of the outer loop: the first
    [GetNextPacketSize], the passes of the inner loop, and whether the
    Enter key is found pressed. *)
Record Round := mkRound {
  first_size : option Z;
  inners : list Inner;
  enter : bool
}.

(** [while (packetLength != 0)]; the run stops where the answers end. *)
Fixpoint inner_loop (nChannels nBlockAlign : Z) (packetLength : Z)
    (answers : list Inner) (st : Capture) : Capture :=
  if packetLength =? 0 then st
  else
    match answers with
    | [] => st
    | r :: rest =>
        match buffer r with
        | None => st
        | Some p =>
            let st' := process_packet nChannels nBlockAlign p st in
            if released r
            then match next_size r with
                 | Some n => inner_loop nChannels nBlockAlign n rest st'
                 | None => st'
                 end
            else st'
        end
    end.

(** [while (recording)] *)
Fixpoint capture_loop (nChannels nBlockAlign : Z) (rounds : list Round)
    (st : Capture) : Capture :=
  match rounds with
  | [] => st
  | r :: rest =>
      match first_size r with
      | None => st
      | Some n =>
          let st' := inner_loop nChannels nBlockAlign n (inners r) st in
          if enter r then st'
          else capture_loop nChannels nBlockAlign rest st'
      end
  end.

(** The recording as a whole: capture from an empty vector with
    [maxSample = 0.0f], then the file handling of [main]. *)
Definition record (zero : F) (nChannels nBlockAlign nSamplesPerSec : Z)
    (rounds : list Round) : Wav.ofstream :=
  Wav.main nChannels nSamplesPerSec
    (audioData
       (capture_loop nChannels nBlockAlign rounds (mkCapture [] zero))).
End Samples.
End Loopback.

(** ** The pipeline as a whole

    Predicates on states and on pieces of a run that the properties of the
    whole pipeline are stated with. *)

Module Pipeline.
Import Int Chrono Av Video.
Local Open Scope Z_scope.

(** The frame object of every queued item exists and carries the pts of the
    item. *)
Definition stamped (s : State) : Prop :=
  Forall (fun item => Av.pts <$> frames s !! frame item = Some (pts item))
    (q (frameQueue s)).

(** The frame objects of the pool and of the queue are distinct and
    allocated, and the queued ones carry the pts of their items. *)
Definition well_formed (s : State) : Prop :=
  NoDup (owned s)
  /\ Forall (fun f => is_Some (frames s !! f)) (owned s)
  /\ stamped s.

(** The frame object at [a] exists and has pixel buffers. *)
Definition has_buffers (s : State) (a : nat) : Prop :=
  exists fr, frames s !! a = Some fr /\ is_Some (data fr).

(** The packets handed to the muxer in a trace, written or not. *)
Definition attempts (t : list Obs) : list AVPacket :=
  omap (fun o => match o with WriteFrame p _ => Some p | _ => None end) t.

(** The pts the encoder still holds. *)
Definition held (s : State) : list Z := buffered (codecCtx s).

(** No call of [avcodec_send_frame] in the trace has failed. *)
Definition sends_ok (t : list Obs) : Prop :=
  Forall (fun o => forall f rc, o = SendFrame f rc -> 0 <= rc) t.

(** What a piece of a run does between the queue, the encoder and the
    muxer: the packets handed to the muxer followed by what the encoder
    holds are what it held before followed by the pts of the frames popped,
    but for a last frame that the encoder refused, after which the thread
    has left its loop; the muxer keeps the packets whose write succeeded;
    the encoder never holds more than its lookahead, and holds that much
    once it has given out a packet. *)
Definition carried (s s' : State) (t : list Obs) : Prop :=
  map pkt_pts (attempts t) ++ held s' `prefix_of` held s ++ map pts (pops t)
  /\ (encoderThread s' <> Exited ->
      map pkt_pts (attempts t) ++ held s' = held s ++ map pts (pops t))
  /\ written (outCtx s') = written (outCtx s) ++ packets t
  /\ lookahead (codecCtx s') = lookahead (codecCtx s)
  /\ (length (held s') <= lookahead (codecCtx s))%nat
  /\ (attempts t <> [] -> length (held s') = lookahead (codecCtx s))
  /\ (length (held s) = lookahead (codecCtx s) ->
      length (held s') = lookahead (codecCtx s))
  /\ (sends_ok t ->
      map pkt_pts (attempts t) ++ held s' = held s ++ map pts (pops t)).

Definition conveyed (s s' : State) (t : list Obs) : Prop :=
  (encoderThread s = Exited -> encoderThread s' = Exited /\ pops t = [])
  /\ carried s s' t.

(** The states in which [conveyed] is kept. *)
Definition steady (s : State) : Prop :=
  well_formed s
  /\ draining (codecCtx s) = false
  /\ (length (held s) <= lookahead (codecCtx s))%nat.

(** The stop flag, the state of the two loops and the trailer agree: the
    capture loop has left its loop only after it saw the flag, and the
    trailer is written exactly when the main thread has joined the encoder
    thread, which then has returned. *)
Definition consistent (s : State) : Prop :=
  (captureLoop s = Joining \/ captureLoop s = Finished ->
   stopRecording s = true)
  /\ (captureLoop s = Finished -> encoderThread s = Exited)
  /\ (trailer (outCtx s) = true <-> captureLoop s = Finished).

(** A piece of a run with respect to the end of the program: nothing
    happens after the end, the trailer is not written before it, and it is
    the last observation when the end is reached. *)
Definition settles (s s' : State) (t : list Obs) : Prop :=
  (captureLoop s = Finished -> s' = s /\ t = [])
  /\ (captureLoop s' <> Finished -> ~ In WriteTrailer t)
  /\ (captureLoop s <> Finished -> captureLoop s' = Finished ->
      exists t', t = t' ++ [WriteTrailer] /\ ~ In WriteTrailer t').

(** Events of the encoder thread, and events other than the signal. *)
Definition is_encode (ev : Event) : Prop :=
  match ev with Encode _ _ => True | _ => False end.
Definition no_signal (ev : Event) : Prop := ev <> Sigint.

(** The signal arrives, the capture loop tests the flag, the encoder thread
    takes [n] frames with an encoder and a muxer that do not fail, finds the
    queue empty and returns, and the main thread joins it. *)
Definition shutdown (n : nat) : list Event :=
  [Sigint; CaptureHead] ++ repeat (Encode 0 0) n
    ++ [Encode 0 0; Encode 0 0] ++ [Join].

(** While no signal has arrived: the flag is clear, the capture loop runs,
    [pop] has not returned false, and the encoder thread has returned only
    after a send that failed. *)
Definition recording (s s' : State) (t : list Obs) : Prop :=
  stopRecording s = false ->
  captureLoop s = Capturing \/ captureLoop s = InBody ->
  stopRecording s' = false
  /\ (captureLoop s' = Capturing \/ captureLoop s' = InBody)
  /\ ~ In (Pop None) t
  /\ (encoderThread s <> Exited -> encoderThread s' = Exited ->
      In (Cerr "Error sending frame to encoder") t).
End Pipeline.

(** * Properties *)

(** ** Machine integers *)

Section IntFacts.
Import Int.
Local Open Scope Z_scope.

Lemma wrap_small w x : 0 <= x < 2 ^ w -> wrap w x = x.
Proof. intros H. unfold wrap. apply Z.mod_small. exact H. Qed.

Lemma uint32_small x : 0 <= x < 2 ^ 32 -> uint32 x = x.
Proof. apply wrap_small. Qed.

Lemma uint16_small x : 0 <= x < 2 ^ 16 -> uint16 x = x.
Proof. apply wrap_small. Qed.

Lemma to_int_small x : - 2 ^ 31 <= x < 2 ^ 31 -> to_int x = x.
Proof.
  intros H. unfold to_int.
  rewrite Z.mod_small by lia. lia.
Qed.
End IntFacts.

(** ** The WAV file *)

Section WavFacts.
Import Int Wav.
Local Open Scope Z_scope.

Lemma length_le_bytes n x : length (le_bytes n x) = n.
Proof.
  revert x. induction n as [|n IH]; intros x; simpl; [reflexivity|].
  now rewrite IH.
Qed.

(** Reading back a little-endian field gives the value modulo the width of
    the field. *)
Lemma le_value_le_bytes n x :
  le_value (le_bytes n x) = x mod 2 ^ (8 * Z.of_nat n).
Proof.
  revert x. induction n as [|n IH]; intros x.
  - simpl. now rewrite Z.mod_1_r.
  - cbn [le_bytes le_value]. rewrite IH.
    replace (8 * Z.of_nat (S n)) with (8 + 8 * Z.of_nat n) by lia.
    rewrite Z.pow_add_r by lia.
    change (2 ^ 8) with 256.
    rewrite Z.rem_mul_r by lia. reflexivity.
Qed.

Lemma field_skip (k : nat) (p l : list BYTE) (off n : nat) :
  length p = k -> (k <= off)%nat ->
  field off n (p ++ l) = field (off - k) n l.
Proof.
  intros Hk Hle. unfold field. subst k.
  rewrite skipn_app.
  rewrite (skipn_all2 p) by lia. reflexivity.
Qed.

Lemma field_here (f l : list BYTE) (n : nat) :
  length f = n -> field 0 n (f ++ l) = le_value f.
Proof.
  intros Hn. unfold field. rewrite skipn_O. subst n.
  rewrite firstn_app, Nat.sub_diag, firstn_all, firstn_O.
  now rewrite app_nil_r.
Qed.

Lemma length_object_bytes c r b d :
  length (object_bytes (make_header c r b d)) = 44%nat.
Proof.
  unfold object_bytes. rewrite !length_app, !length_le_bytes. reflexivity.
Qed.

(** The finished file is the image of the second header followed by the
    payload: the first header is overwritten in full. *)
Lemma main_contents nch rate (audioData : list BYTE) :
  contents (main nch rate audioData)
  = object_bytes (make_header nch rate 16 (uint32 (Z.of_nat (length audioData))))
      ++ audioData.
Proof.
  unfold main, WriteWAVHeader, write, seekp, open.
  cbn [contents pos firstn Nat.add].
  rewrite !length_object_bytes.
  cbn [firstn app].
  rewrite (skipn_all2 (object_bytes (make_header nch rate 16 0)))
    by (rewrite length_object_bytes; lia).
  rewrite firstn_O, !app_nil_r. cbn [app].
  rewrite firstn_all2 by (rewrite length_object_bytes; lia).
  rewrite skipn_all2 by (rewrite length_object_bytes; lia).
  now rewrite app_nil_r.
Qed.

Ltac locate_field :=
  unfold object_bytes; cbn [riff chunkSize wave fmt subChunk1Size audioFormat
    numChannels sampleRate byteRate blockAlign bitsPerSample data dataSize
    make_header];
  rewrite <- ?app_assoc;
  repeat (erewrite field_skip;
          [ | first [ apply length_le_bytes | reflexivity ] | cbn; lia ];
          cbn [Nat.sub]);
  rewrite field_here by (apply length_le_bytes);
  rewrite le_value_le_bytes.

(** Every numeric field read back from the file, with the widths of the
    fields written out. *)
Lemma main_fields nch rate (audioData : list BYTE) :
  let file := contents (main nch rate audioData) in
  let n := uint32 (Z.of_nat (length audioData)) in
  file_dataSize file = n mod 2 ^ 32
  /\ file_chunkSize file = uint32 (36 + n) mod 2 ^ 32
  /\ file_numChannels file = nch mod 2 ^ 16
  /\ file_sampleRate file = rate mod 2 ^ 32
  /\ file_bitsPerSample file = 16
  /\ file_byteRate file
     = uint32 (uint32 (uint32 (rate * nch) * 16) / 8) mod 2 ^ 32
  /\ file_blockAlign file = uint16 (Z.quot (to_int (nch * 16)) 8) mod 2 ^ 16.
Proof.
  intros file n. subst file. rewrite main_contents. fold n.
  unfold file_dataSize, file_chunkSize, file_numChannels, file_sampleRate,
    file_bitsPerSample, file_byteRate, file_blockAlign.
  repeat split; locate_field; reflexivity.
Qed.

(** C10, as amended: the finished file is a 44-byte header followed by
    the payload.  [dataSize] is the number of payload bytes modulo 2^32 and
    [chunkSize] is [dataSize + 36] modulo 2^32; [byteRate] is
    [sampleRate * numChannels * bitsPerSample / 8] with each product
    reduced modulo 2^32 before the division; [blockAlign] is
    [numChannels * bitsPerSample / 8] modulo 2^16.  So the fields hold the
    exact values when the payload is shorter than 2^32 - 36 bytes,
    [sampleRate * numChannels * 16] is below 2^32 and
    [numChannels * 16 / 8] is below 2^16, each field under its own
    condition. *)
Theorem C10_wav_header_in_range nChannels nSamplesPerSec (audioData : list BYTE) :
  in_uint16 nChannels ->
  in_uint32 nSamplesPerSec ->
  let file := contents (main nChannels nSamplesPerSec audioData) in
  let size := Z.of_nat (length audioData) in
  (exists header, file = header ++ audioData /\ length header = 44%nat)
  /\ file_numChannels file = nChannels
  /\ file_sampleRate file = nSamplesPerSec
  /\ file_bitsPerSample file = 16
  /\ file_dataSize file = size mod 2 ^ 32
  /\ file_chunkSize file = (file_dataSize file + 36) mod 2 ^ 32
  /\ file_byteRate file
     = ((nSamplesPerSec * nChannels) mod 2 ^ 32 * 16) mod 2 ^ 32 / 8
  /\ file_blockAlign file = (nChannels * 16 / 8) mod 2 ^ 16
  /\ (size + 36 < 2 ^ 32 ->
      file_dataSize file = size
      /\ file_chunkSize file = file_dataSize file + 36)
  /\ (nSamplesPerSec * nChannels * 16 < 2 ^ 32 ->
      file_byteRate file
      = file_sampleRate file * file_numChannels file
          * file_bitsPerSample file / 8)
  /\ (nChannels * 16 / 8 < 2 ^ 16 ->
      file_blockAlign file
      = file_numChannels file * file_bitsPerSample file / 8).
Proof.
  intros [Hc0 Hc1] [Hr0 Hr1] file size.
  destruct (main_fields nChannels nSamplesPerSec audioData)
    as (Hd & Hk & Hn & Hs & Hb & Hy & Ha).
  fold file in Hd, Hk, Hn, Hs, Hb, Hy, Ha. fold size in Hd, Hk.
  unfold uint32, uint16, wrap in Hd, Hk, Hy, Ha.
  change (2 ^ 16) with 65536 in *. change (2 ^ 32) with 4294967296 in *.
  rewrite Z.mod_mod in Hd by lia.
  rewrite Z.mod_mod in Hk by lia.
  rewrite Z.mod_small in Hn by lia.
  rewrite Z.mod_small in Hs by lia.
  assert (Hdiv : 0 <= (nSamplesPerSec * nChannels) mod 4294967296 * 16
                        mod 4294967296 / 8 < 4294967296).
  { pose proof (Z.mod_pos_bound
                  ((nSamplesPerSec * nChannels) mod 4294967296 * 16)
                  4294967296 ltac:(lia)) as Hm.
    split; [apply Z.div_pos; lia|].
    apply Z.div_lt_upper_bound; lia. }
  rewrite (Z.mod_small _ 4294967296 Hdiv) in Hy.
  rewrite Z.mod_small in Hy by exact Hdiv.
  rewrite to_int_small in Ha by lia.
  rewrite Z.quot_div_nonneg in Ha by lia.
  rewrite Z.mod_mod in Ha by lia.
  split.
  { exists (object_bytes (make_header nChannels nSamplesPerSec 16
              (uint32 (Z.of_nat (length audioData))))).
    split; [apply main_contents | apply length_object_bytes]. }
  split; [exact Hn|]. split; [exact Hs|]. split; [exact Hb|].
  split; [exact Hd|].
  split; [rewrite Hk, Hd; rewrite Z.add_comm; reflexivity|].
  split; [exact Hy|]. split; [exact Ha|].
  split; [|split].
  - intros Hlen.
    assert (Hsize : size mod 4294967296 = size)
      by (apply Z.mod_small; subst size; lia).
    rewrite Hk, Hd, Hsize.
    split; [reflexivity|]. rewrite Z.mod_small by (subst size; lia). lia.
  - intros Hrate. rewrite Hy, Hs, Hn, Hb.
    assert (Hp : 0 <= nSamplesPerSec * nChannels) by nia.
    rewrite (Z.mod_small (nSamplesPerSec * nChannels)) by nia.
    now rewrite Z.mod_small by lia.
  - intros Halign. rewrite Ha, Hn, Hb.
    apply Z.mod_small. split; [apply Z.div_pos; lia | exact Halign].
Qed.

Lemma C10_wav_header_in_range_witness :
  let file := contents (main 2 48000 [1; 2; 3; 4]) in
  file_dataSize file = 4 /\ file_chunkSize file = 40
  /\ file_byteRate file = 192000 /\ file_blockAlign file = 4.
Proof.
  assert (H : in_uint16 2 /\ in_uint32 48000)
    by (unfold in_uint16, in_uint32; simpl; lia).
  destruct H as [H16 H32].
  destruct (C10_wav_header_in_range 2 48000 [1; 2; 3; 4] H16 H32)
    as (_ & Hn & Hs & Hb & _ & _ & _ & _ & Hsize & Hrate & Halign).
  intros file. subst file.
  destruct Hsize as [Hd Hk]; [reflexivity|].
  rewrite Hrate by reflexivity. rewrite Halign by reflexivity.
  rewrite Hk, Hd, Hn, Hs, Hb. repeat split; reflexivity.
Defined.

(** C10 as stated fails for a recording of 2^32 bytes (about six hours of
    48 kHz stereo): [dataSize] is narrowed to [uint32_t] and reads 0.  And
    a field that overflows is not always its value modulo its width: with
    4096 channels at 65536 Hz [byteRate] reads 0, while the exact rate
    is 536870912 modulo 2^32. *)
Lemma C10_counterexample :
  let audioData := repeat 0 (Z.to_nat 4294967296) in
  file_dataSize (contents (main 2 48000 audioData))
  <> Z.of_nat (length audioData)
  /\ file_byteRate (contents (main 4096 65536 [])) = 0
  /\ (65536 * 4096 * 16 / 8) mod 2 ^ 32 = 536870912.
Proof.
  intros audioData. split; [|split; vm_compute; reflexivity].
  destruct (main_fields 2 48000 audioData) as [Hd _].
  cbv zeta in Hd. rewrite Hd. subst audioData.
  rewrite repeat_length, Z2Nat.id by lia.
  unfold uint32, wrap. rewrite Z.mod_mod by lia.
  change (2 ^ 32) with 4294967296. rewrite Z.mod_same by lia. lia.
Qed.

(** A run on a four-byte payload, byte by byte. *)
Example wav_smoke :
contents (main 2 48000 [1; 2; 3; 4]%Z)
= ([82; 73; 70; 70; 40; 0; 0; 0; 87; 65; 86; 69; 102; 109; 116; 32;
    16; 0; 0; 0; 1; 0; 2; 0; 128; 187; 0; 0; 0; 238; 2; 0; 4; 0; 16; 0;
    100; 97; 116; 97; 4; 0; 0; 0; 1; 2; 3; 4])%Z.
Proof. vm_compute. reflexivity. Qed.
End WavFacts.

(** ** Running monadic code *)

Ltac munfold :=
  unfold Video.exec, Video.result, Video.trace, mbind, Video.M_bind,
    mret, Video.M_ret, Video.gets, Video.modify, Video.emit.

Ltac msimpl := munfold; cbn [fst snd app id].

Section MonadFacts.
Import Video.

Lemma exec_bind {A B} (m : M A) (f : A -> M B) s :
  exec (m ≫= f) s = exec (f (result m s)) (exec m s).
Proof. reflexivity. Qed.

Lemma trace_bind {A B} (m : M A) (f : A -> M B) s :
  trace (m ≫= f) s = trace m s ++ trace (f (result m s)) (exec m s).
Proof. reflexivity. Qed.

Lemma result_bind {A B} (m : M A) (f : A -> M B) s :
  result (m ≫= f) s = result (f (result m s)) (exec m s).
Proof. reflexivity. Qed.

Lemma exec_ret {A} (a : A) s : exec (mret a) s = s.
Proof. reflexivity. Qed.

Lemma trace_ret {A} (a : A) s : trace (mret a) s = [].
Proof. reflexivity. Qed.

Lemma exec_run_app evs1 evs2 s :
  exec (run (evs1 ++ evs2)) s = exec (run evs2) (exec (run evs1) s).
Proof.
  revert s. induction evs1 as [|ev evs1 IH]; intros s; [reflexivity|].
  cbn [run app]. rewrite !exec_bind. apply IH.
Qed.

Lemma trace_run_app evs1 evs2 s :
  trace (run (evs1 ++ evs2)) s
  = trace (run evs1) s ++ trace (run evs2) (exec (run evs1) s).
Proof.
  revert s. induction evs1 as [|ev evs1 IH]; intros s; [reflexivity|].
  cbn [run app]. rewrite !trace_bind, !exec_bind, IH.
  now rewrite app_assoc.
Qed.
End MonadFacts.

(** ** Pacing *)

Section PacerFacts.
Import Int Chrono Av Video.
Local Open Scope Z_scope.

Lemma frameInterval_30 : frameInterval targetFPS = 33.
Proof. reflexivity. Qed.

(** Truncating to milliseconds and then dividing by the interval in
    milliseconds is the floor of the quotient of the tick counts. *)
Lemma skip_quotient d ms :
  0 <= d -> 0 < ms ->
  Z.quot (duration_cast_ms d) ms = d / ms_ticks ms.
Proof.
  intros Hd Hms. unfold duration_cast_ms, ms_ticks, ticks_per_ms.
  rewrite (Z.quot_div_nonneg d) by lia.
  rewrite Z.quot_div_nonneg by (try apply Z.div_pos; lia).
  rewrite Z.div_div by lia. f_equal. lia.
Qed.

Lemma pace_behind s now :
  let interval := ms_ticks (frameInterval targetFPS) in
  let skipCount := (now - nextFrameTime s) / interval in
  now > nextFrameTime s + interval ->
  skipCount + 1 < 2 ^ 31 ->
  exec (pace now) s
  = set_nextFrameTime (nextFrameTime s + interval * (skipCount + 1))
      (set_frameCounter (frameCounter s + skipCount) s)
  /\ trace (pace now) s = [].
Proof.
  intros interval skipCount Hlate Hfit.
  assert (Hi : interval = 33000000) by reflexivity.
  assert (Hpos : 0 <= skipCount).
  { apply Z.div_pos; lia. }
  unfold pace. msimpl. fold interval.
  destruct (Z.gtb_spec now (nextFrameTime s + interval)) as [_|Hno]; [|lia].
  cbn [fst snd app].
  rewrite skip_quotient by (rewrite ?frameInterval_30; lia).
  fold interval. fold skipCount.
  rewrite (to_int_small skipCount) by lia.
  rewrite (to_int_small (skipCount + 1)) by lia.
  split; [|reflexivity].
  unfold set_nextFrameTime, set_frameCounter. cbn.
  f_equal. subst interval. unfold ms_ticks. ring.
Qed.

(** At [skipCount = INT_MAX] the [int] addition wraps and the deadline is
    moved back by 2^31 intervals. *)
Lemma pace_wraps s now :
  let interval := ms_ticks (frameInterval targetFPS) in
  (now - nextFrameTime s) / interval = 2 ^ 31 - 1 ->
  nextFrameTime (exec (pace now) s) = nextFrameTime s - interval * 2 ^ 31
  /\ frameCounter (exec (pace now) s) = frameCounter s + (2 ^ 31 - 1).
Proof.
  intros interval Hskip.
  assert (Hi : interval = 33000000) by reflexivity.
  assert (Hlate : now > nextFrameTime s + interval).
  { assert (Hd : interval * ((now - nextFrameTime s) / interval)
                 <= now - nextFrameTime s)
      by (apply Z.mul_div_le; lia).
    rewrite Hskip in Hd. lia. }
  assert (Hw1 : to_int (2 ^ 31 - 1) = 2 ^ 31 - 1) by (vm_compute; reflexivity).
  assert (Hw2 : to_int (2 ^ 31 - 1 + 1) = - 2 ^ 31)
    by (vm_compute; reflexivity).
  assert (Hm : ms_ticks (frameInterval targetFPS * - 2 ^ 31)
               = - (interval * 2 ^ 31)) by (vm_compute; reflexivity).
  unfold pace. msimpl. fold interval.
  destruct (Z.gtb_spec now (nextFrameTime s + interval)) as [_|Hno]; [|lia].
  cbn [fst snd app].
  rewrite skip_quotient by (rewrite ?frameInterval_30; lia).
  fold interval. rewrite Hskip, Hw1, Hw2, Hm.
  unfold set_nextFrameTime, set_frameCounter.
  cbn [nextFrameTime frameCounter].
  split; [lia | reflexivity].
Qed.

Lemma pace_on_time s now :
  let interval := ms_ticks (frameInterval targetFPS) in
  now <= nextFrameTime s + interval ->
  exec (pace now) s = set_nextFrameTime (nextFrameTime s + interval) s
  /\ trace (pace now) s = [SleepUntil (nextFrameTime s)].
Proof.
  intros interval Hok.
  assert (Hi : interval = 33000000) by reflexivity.
  unfold pace. msimpl. fold interval.
  destruct (Z.gtb_spec now (nextFrameTime s + interval)) as [Hno|_]; [lia|].
  split; reflexivity.
Qed.

(** Making a frame writable leaves an unshared frame alone and gives a
    shared one new buffers. *)
Lemma make_writable_spec sh a s :
  exec (av_frame_make_writable sh a) s
  = set_frames (writable_frames sh a s) (set_brk (writable_brk sh s) s)
  /\ trace (av_frame_make_writable sh a) s = [].
Proof.
  destruct sh; [split; reflexivity|].
  split; [destruct s|]; reflexivity.
Qed.

(** The rest of an iteration, case by case. *)
Lemma grab_frame_spec a sh sc s :
  let m := grab_frame a sh sc in
  if negb a
  then exec m s = s /\ trace m s = [SleepFor 1]
  else
    match freeFrames (framePool s) with
    | [] =>
        exec m s = s
        /\ trace m s = [Acquire None; Cerr "Pool empty, skipping frame"]
    | f :: rest =>
        if sc <=? 0
        then
          exec m s
          = set_framePool (mkFramePool (rest ++ [f]))
              (set_frames (alter (set_pts 0) f (writable_frames sh f s))
                 (set_brk (writable_brk sh s) s))
          /\ trace m s
             = [Acquire (Some f); Cerr "sws_scale failed"; Release f]
        else
          let item := mkFrameItem f (frameCounter s) in
          exec m s
          = set_encoderThread (wake (encoderThread s))
              (set_frameQueue (mkFrameQueue (q (frameQueue s) ++ [item]))
                 (set_frameCounter (frameCounter s + 1)
                    (set_frames
                       (alter (set_pts (frameCounter s)) f
                          (writable_frames sh f s))
                       (set_framePool (mkFramePool rest)
                          (set_brk (writable_brk sh s) s)))))
          /\ trace m s = [Acquire (Some f); Push item]
    end.
Proof.
  intros m. subst m. unfold grab_frame.
  destruct a; cbn [negb]; [|split; reflexivity].
  rewrite exec_bind, trace_bind.
  assert (Hacq : match freeFrames (framePool s) with
                 | [] => result acquire s = None /\ exec acquire s = s
                         /\ trace acquire s = [Acquire None]
                 | f :: rest =>
                     result acquire s = Some f
                     /\ exec acquire s = set_framePool (mkFramePool rest) s
                     /\ trace acquire s = [Acquire (Some f)]
                 end).
  { unfold acquire. msimpl. destruct (freeFrames (framePool s)); repeat split. }
  destruct (freeFrames (framePool s)) as [|f rest] eqn:Hfree;
    destruct Hacq as (-> & -> & ->).
  { split; reflexivity. }
  rewrite exec_bind, trace_bind.
  destruct (make_writable_spec sh f (set_framePool (mkFramePool rest) s))
    as [-> ->].
  cbn [app].
  destruct (sc <=? 0) eqn:Hsc.
  - split; reflexivity.
  - split; reflexivity.
Qed.

(** What the rest of an iteration does to the counter: it adds one exactly
    when it pushes a frame, and the frame carries the old counter. *)
Lemma grab_frame_counter s acquired shared scaled :
  let m := grab_frame acquired shared scaled in
  nextFrameTime (exec m s) = nextFrameTime s
  /\ ((acquired = true /\ 0 < scaled
       /\ (exists f rest,
             freeFrames (framePool s) = f :: rest
             /\ pushes (trace m s) = [mkFrameItem f (frameCounter s)])
       /\ frameCounter (exec m s) = frameCounter s + 1)
      \/ ((acquired = false \/ freeFrames (framePool s) = [] \/ scaled <= 0)
          /\ pushes (trace m s) = []
          /\ frameCounter (exec m s) = frameCounter s)).
Proof.
  intros m. subst m.
  pose proof (grab_frame_spec acquired shared scaled s) as Hg. cbv zeta in Hg.
  destruct acquired; cbn [negb] in Hg.
  2:{ destruct Hg as [-> ->]. split; [reflexivity|]. right. repeat split; auto. }
  destruct (freeFrames (framePool s)) as [|f rest] eqn:Hfree.
  { destruct Hg as [-> ->]. split; [reflexivity|]. right. repeat split; auto. }
  destruct (Z.leb_spec scaled 0) as [Hs|Hs]; destruct Hg as [-> ->].
  - split; [reflexivity|]. right. repeat split; auto.
  - split; [reflexivity|]. left. repeat split; auto.
    exists f, rest. split; reflexivity.
Qed.

(** C1, as amended: in an iteration that finds the clock more than one
    frame interval past the previous deadline, with skipCount + 1 below
    2^31, skipCount is the floor of (now - previousDeadline) /
    frameInterval, the next deadline is previousDeadline + frameInterval *
    (skipCount + 1), and the frame counter advances by skipCount plus the
    number of frames the iteration pushes: by skipCount + 1 exactly when a
    desktop image is acquired, the pool is not empty and the conversion
    succeeds, and by skipCount otherwise; the pushed frame carries the
    counter after the skip.  After a stall of 100 ms at 30 Hz skipCount
    is 3. *)
Theorem C1_catch_up s now acquired shared scaled :
  let interval := ms_ticks (frameInterval targetFPS) in
  let skipCount := (now - nextFrameTime s) / interval in
  let m := capture_iteration now acquired shared scaled in
  let pushing :=
    acquired = true /\ freeFrames (framePool s) <> [] /\ 0 < scaled in
  now > nextFrameTime s + interval ->
  skipCount + 1 < 2 ^ 31 ->
  nextFrameTime (exec m s) = nextFrameTime s + interval * (skipCount + 1)
  /\ frameCounter (exec m s)
     = frameCounter s + skipCount + Z.of_nat (length (pushes (trace m s)))
  /\ (length (pushes (trace m s)) <= 1)%nat
  /\ (forall item, In item (pushes (trace m s)) ->
        pts item = frameCounter s + skipCount)
  /\ (frameCounter (exec m s) = frameCounter s + skipCount + 1 <-> pushing)
  /\ (frameCounter (exec m s) = frameCounter s + skipCount <-> ~ pushing)
  /\ (length (pushes (trace m s)) = 1%nat <-> pushing)
  /\ (now = nextFrameTime s + ms_ticks 100 -> skipCount = 3).
Proof.
  intros interval skipCount m pushing Hlate Hfit.
  destruct (pace_behind s now Hlate Hfit) as [Hexec Htrace].
  fold interval skipCount in Hexec.
  subst m. unfold capture_iteration.
  rewrite exec_bind, trace_bind, Hexec, Htrace. cbn [app].
  set (s1 := set_nextFrameTime _ _).
  set (g := grab_frame acquired shared scaled).
  destruct (grab_frame_counter s1 acquired shared scaled) as [Hnext Hcases].
  fold g in Hnext, Hcases.
  assert (Hc1 : frameCounter s1 = frameCounter s + skipCount) by reflexivity.
  assert (Hn1 : nextFrameTime s1
                = nextFrameTime s + interval * (skipCount + 1)) by reflexivity.
  assert (Hf1 : freeFrames (framePool s1) = freeFrames (framePool s))
    by reflexivity.
  rewrite Hc1, Hf1 in Hcases. rewrite Hn1 in Hnext.
  split; [exact Hnext|].
  assert (Hstall : now = nextFrameTime s + ms_ticks 100 -> skipCount = 3).
  { intros ->. subst skipCount.
    replace (nextFrameTime s + ms_ticks 100 - nextFrameTime s)
      with (ms_ticks 100) by ring.
    reflexivity. }
  destruct Hcases as [(Ha & Hs & (f & rest & Hfree & Hp) & Hc)
                     |(Hwhy & Hp & Hc)]; rewrite Hp, Hc; cbn [length].
  - assert (Hyes : pushing).
    { subst pushing. rewrite Hfree. repeat split; auto; discriminate. }
    split; [lia|]. split; [lia|].
    split; [intros item [<-|[]]; reflexivity|].
    split; [tauto|]. split; [split; [lia | tauto]|].
    split; [tauto | exact Hstall].
  - assert (Hno : ~ pushing).
    { subst pushing. intros (Hyes & Hpool & Hsc).
      destruct Hwhy as [Hw|[Hw|Hw]]; [congruence | contradiction | lia]. }
    split; [lia|]. split; [lia|].
    split; [intros item []|].
    split; [split; [lia | tauto]|]. split; [tauto|].
    split; [split; [discriminate | tauto] | exact Hstall].
Qed.

Lemma C1_catch_up_witness :
  frameCounter
    (exec (capture_iteration (ms_ticks 100) true false 720) (start 0 1))
  = frameCounter (start 0 1) + 3 + 1.
Proof.
  assert (Hlate : ms_ticks 100
                  > nextFrameTime (start 0 1) + ms_ticks (frameInterval targetFPS))
    by (vm_compute; reflexivity).
  assert (Hfit : (ms_ticks 100 - nextFrameTime (start 0 1))
                   / ms_ticks (frameInterval targetFPS) + 1 < 2 ^ 31)
    by (vm_compute; reflexivity).
  destruct (C1_catch_up (start 0 1) (ms_ticks 100) true false 720 Hlate Hfit)
    as (_ & _ & _ & _ & Hfull & _ & _ & Hstall).
  rewrite (proj2 Hfull).
  - rewrite Hstall; vm_compute; reflexivity.
  - split; [reflexivity|]. split; [vm_compute; discriminate|].
    vm_compute; reflexivity.
Defined.

(** C1 as stated fails in an iteration that pushes no frame: after a stall of
    100 ms, with no new desktop image, the counter advances by 3, not 4.
    It also fails at the end of the range of [int]: after a stall of
    2^31 - 1 intervals [skipCount + 1] wraps, and the deadline is moved
    back by 2^31 intervals instead of forward. *)
Lemma C1_counterexample :
  let s := start 0 1 in
  let interval := ms_ticks (frameInterval targetFPS) in
  (let now := ms_ticks 100 in
   let skipCount := (now - nextFrameTime s) / interval in
   now > nextFrameTime s + interval
   /\ frameCounter (exec (capture_iteration now false false 0) s)
      <> frameCounter s + (skipCount + 1))
  /\ (let now := interval * (2 ^ 31 - 1) in
      let skipCount := (now - nextFrameTime s) / interval in
      now > nextFrameTime s + interval
      /\ skipCount = 2 ^ 31 - 1
      /\ nextFrameTime (exec (capture_iteration now true false 720) s)
         = nextFrameTime s - interval * 2 ^ 31
      /\ nextFrameTime (exec (capture_iteration now true false 720) s)
         <> nextFrameTime s + interval * (skipCount + 1)).
Proof.
  vm_compute. split; [split; [reflexivity | discriminate]|].
  split; [reflexivity|]. split; [reflexivity|].
  split; [reflexivity | discriminate].
Qed.

(** C9, as amended: the frame interval is the whole number of milliseconds
    1000 / targetRate, 33 ms for the 30 Hz target, which is shorter than
    1/30 of a second; an iteration that is not behind sets the next
    deadline to the previous deadline plus exactly 33 ms. *)
Theorem C9_frame_interval s now :
  let interval := ms_ticks (frameInterval targetFPS) in
  now <= nextFrameTime s + interval ->
  frameInterval targetFPS = 1000 / targetFPS
  /\ (frameInterval_seconds targetFPS == 33 # 1000)%Q
  /\ (frameInterval_seconds targetFPS < 1 / inject_Z targetFPS)%Q
  /\ nextFrameTime (exec (pace now) s) = nextFrameTime s + ms_ticks 33.
Proof.
  intros interval Hok.
  destruct (pace_on_time s now Hok) as [Hexec _].
  rewrite Hexec.
  split; [vm_compute; reflexivity|].
  split; [vm_compute; reflexivity|].
  split; [vm_compute; reflexivity|].
  unfold set_nextFrameTime. cbn [nextFrameTime].
  now rewrite frameInterval_30.
Qed.

Lemma C9_frame_interval_witness :
  nextFrameTime (exec (pace 0) (start 0 1)) = 33000000.
Proof.
  assert (Hok : 0 <= nextFrameTime (start 0 1)
                     + ms_ticks (frameInterval targetFPS))
    by (vm_compute; intros H; discriminate H).
  destruct (C9_frame_interval (start 0 1) 0 Hok) as (_ & _ & _ & H).
  rewrite H. vm_compute. reflexivity.
Defined.

(** C9 as stated fails: the interval is 33/1000 s, not 1/30 s. *)
Lemma C9_counterexample :
  ~ (frameInterval_seconds targetFPS == 1 / inject_Z targetFPS)%Q.
Proof. vm_compute. discriminate. Qed.
End PacerFacts.

(** ** The encoder and the muxer leave the shared objects alone *)

Section CodecFacts.
Import Int Chrono Av Video.
Local Open Scope Z_scope.

Lemma same_shared_refl s : same_shared s s.
Proof. unfold same_shared. destruct s. reflexivity. Qed.

Lemma same_shared_trans s1 s2 s3 :
  same_shared s1 s2 -> same_shared s2 s3 -> same_shared s1 s3.
Proof.
  unfold same_shared, set_outCtx, set_codecCtx. destruct s1, s2, s3. cbn.
  intros H12 H23. inversion H12; inversion H23; subst. reflexivity.
Qed.

Lemma same_shared_fields s s' :
  same_shared s s' ->
  stopRecording s' = stopRecording s /\ frameQueue s' = frameQueue s
  /\ framePool s' = framePool s /\ frames s' = frames s /\ brk s' = brk s
  /\ frameCounter s' = frameCounter s /\ nextFrameTime s' = nextFrameTime s
  /\ captureLoop s' = captureLoop s /\ encoderThread s' = encoderThread s.
Proof. intros ->. repeat split. Qed.

Lemma quiet_trace t :
  forallb is_write t = true ->
  pushes t = [] /\ pops t = [] /\ acquired t = [] /\ released t = []
  /\ logged t = []
  /\ Forall (fun o => forall f rc, o <> SendFrame f rc) t
  /\ ~ In WriteTrailer t.
Proof.
  induction t as [|o t IH]; cbn [forallb].
  - intros _. repeat split; try constructor. intros [].
  - intros H. apply andb_prop in H. destruct H as [Ho Ht].
    destruct (IH Ht) as (H1 & H2 & H3 & H4 & H5 & H6 & H7).
    destruct o; try discriminate Ho.
    unfold pushes, pops, acquired, released, logged in *.
    cbn [omap list_omap]. rewrite ?H1, ?H2, ?H3, ?H4, ?H5.
    repeat split; try reflexivity.
    + constructor; [intros f rc' Heq; discriminate Heq | exact H6].
    + intros [Heq|Hin]; [discriminate Heq | contradiction].
Qed.

Lemma receive_packet_cases s :
  let c := codecCtx s in
  let r := avcodec_receive_packet s in
  (exists p rest,
      buffered c = p :: rest
      /\ (draining c || (lookahead c <? length (buffered c))%nat = true)
      /\ r = ((0, mkAVPacket p),
              (set_codecCtx (mkAVCodecContext (lookahead c) rest (draining c)) s,
               [])))
  \/ (fst (fst r) <> 0 /\ snd r = (s, [])
      /\ (buffered c = []
          \/ draining c || (lookahead c <? length (buffered c))%nat = false)).
Proof.
  intros c r. subst r. unfold avcodec_receive_packet. msimpl. fold c.
  destruct (buffered c) as [|p rest] eqn:Hb.
  - right. split; [|split; [reflexivity | left; reflexivity]].
    cbn. destruct (draining c); discriminate.
  - destruct (draining c || (lookahead c <? length (p :: rest))%nat) eqn:Hd.
    + left. exists p, rest. repeat split.
    + right. split; [cbn; discriminate|]. split; [reflexivity|].
      right. reflexivity.
Qed.

Lemma receive_loop_fuel_frame n w s :
  let s' := exec (receive_loop_fuel n w) s in
  let t := trace (receive_loop_fuel n w) s in
  same_shared s s'
  /\ forallb is_write t = true
  /\ draining (codecCtx s') = draining (codecCtx s)
  /\ lookahead (codecCtx s') = lookahead (codecCtx s)
  /\ trailer (outCtx s') = trailer (outCtx s).
Proof.
  revert s. induction n as [|n IH]; intros s.
  - cbn. split; [apply same_shared_refl | repeat split].
  - cbn [receive_loop_fuel].
    destruct (receive_packet_cases s)
      as [(p & rest & Hb & Hd & Hr)|(Hrc & Hr & _)].
    + set (s1 := set_codecCtx _ s) in Hr.
      set (s2 := exec (av_interleaved_write_frame w (mkAVPacket p)) s1).
      specialize (IH s2). cbv zeta in IH.
      destruct IH as (Hs & Hq & Hdr & Hla & Htr).
      assert (Hexec : exec (avcodec_receive_packet ≫= λ r,
                 if fst r =? 0
                 then av_interleaved_write_frame w (snd r);;
                      receive_loop_fuel n w
                 else mret ()) s = exec (receive_loop_fuel n w) s2).
      { unfold exec at 1. unfold mbind at 1. unfold M_bind. rewrite Hr.
        reflexivity. }
      assert (Htrace : trace (avcodec_receive_packet ≫= λ r,
                 if fst r =? 0
                 then av_interleaved_write_frame w (snd r);;
                      receive_loop_fuel n w
                 else mret ()) s
               = WriteFrame (mkAVPacket p) (Z.min w 0)
                   :: trace (receive_loop_fuel n w) s2).
      { unfold trace at 1. unfold mbind at 1. unfold M_bind. rewrite Hr.
        subst s2. unfold av_interleaved_write_frame.
        destruct (w <? 0); reflexivity. }
      cbv zeta. rewrite Hexec, Htrace.
      assert (H12 : same_shared s s2).
      { subst s2 s1. unfold av_interleaved_write_frame, same_shared.
        destruct (w <? 0); destruct s; reflexivity. }
      assert (Hd2 : draining (codecCtx s2) = draining (codecCtx s)
                    /\ lookahead (codecCtx s2) = lookahead (codecCtx s)
                    /\ trailer (outCtx s2) = trailer (outCtx s)).
      { subst s2 s1. unfold av_interleaved_write_frame.
        destruct (w <? 0); repeat split. }
      destruct Hd2 as (Hd2 & Hl2 & Ht2).
      split; [eapply same_shared_trans; eassumption|].
      cbn [forallb is_write andb].
      repeat split; congruence.
    + assert (Hexec : (avcodec_receive_packet ≫= λ r,
                 if fst r =? 0
                 then av_interleaved_write_frame w (snd r);;
                      receive_loop_fuel n w
                 else mret ()) s = (tt, (s, []))).
      { unfold mbind at 1. unfold M_bind.
        destruct (avcodec_receive_packet s) as [[rc pkt] [s1 t1]].
        cbn [fst snd] in *. inversion Hr; subst.
        apply Z.eqb_neq in Hrc. rewrite Hrc. reflexivity. }
      cbv zeta. unfold exec, trace. rewrite Hexec. cbn [fst snd].
      split; [apply same_shared_refl | repeat split].
Qed.

Lemma receive_loop_frame w s :
  let s' := exec (receive_loop w) s in
  let t := trace (receive_loop w) s in
  same_shared s s'
  /\ forallb is_write t = true
  /\ draining (codecCtx s') = draining (codecCtx s)
  /\ lookahead (codecCtx s') = lookahead (codecCtx s)
  /\ trailer (outCtx s') = trailer (outCtx s).
Proof.
  exact (receive_loop_fuel_frame (length (buffered (codecCtx s))) w s).
Qed.
End CodecFacts.

(** ** One step of each thread, spelled out *)

Section ThreadFacts.
Import Int Chrono Av Video.
Local Open Scope Z_scope.

Lemma release_spec f s :
  exec (release f) s
  = set_framePool (mkFramePool (freeFrames (framePool s) ++ [f]))
      (set_frames (alter (set_pts 0) f (frames s)) s)
  /\ trace (release f) s = [Release f].
Proof. split; reflexivity. Qed.

Lemma push_spec item s :
  exec (push item) s
  = exec notify_one
      (set_frameQueue (mkFrameQueue (q (frameQueue s) ++ [item])) s)
  /\ trace (push item) s = [Push item].
Proof. split; reflexivity. Qed.

Lemma notify_one_spec s :
  exec notify_one s = set_encoderThread (wake (encoderThread s)) s
  /\ trace notify_one s = [].
Proof. split; reflexivity. Qed.

Lemma send_frame_spec send_rc f s :
  let m := avcodec_send_frame send_rc f in
  same_shared s (exec m s)
  /\ trace m s = [SendFrame f (result m s)]
  /\ outCtx (exec m s) = outCtx s
  /\ lookahead (codecCtx (exec m s)) = lookahead (codecCtx s)
  /\ (send_rc < 0 -> result m s = send_rc /\ exec m s = s)
  /\ (0 <= send_rc -> draining (codecCtx s) = false -> result m s = 0)
  /\ (f <> None -> draining (codecCtx (exec m s)) = draining (codecCtx s)).
Proof.
  intros m. subst m. unfold avcodec_send_frame, same_shared. msimpl.
  destruct (Z.ltb_spec send_rc 0) as [Hneg|Hpos];
    [|destruct (draining (codecCtx s)) eqn:Hdr; [|destruct f as [a|]]];
    cbn [fst snd app];
    repeat split; intros; try lia; try congruence;
    try (destruct s; cbn in *; congruence);
    try (destruct s; reflexivity).
Qed.

Lemma encoder_body_spec send_rc write_rc s :
  let m := encoder_body send_rc write_rc in
  match q (frameQueue s) with
  | [] =>
      if stopRecording s
      then exec m s = set_encoderThread AtLoopHead s
           /\ trace m s = [Pop None]
      else exec m s = set_encoderThread Parked s /\ trace m s = []
  | item :: rest =>
      let s1 := set_frameQueue (mkFrameQueue rest) s in
      let send := avcodec_send_frame send_rc (Some (frame item)) in
      let s2 := exec send s1 in
      let s3 := exec (receive_loop write_rc) s2 in
      if result send s1 <? 0
      then exec m s = set_encoderThread Exited s3
           /\ trace m s
              = Pop (Some item) :: trace send s1
                  ++ Cerr "Error sending frame to encoder"
                  :: trace (receive_loop write_rc) s2
      else exec m s
           = set_encoderThread AtLoopHead (exec (release (frame item)) s3)
           /\ trace m s
              = Pop (Some item) :: trace send s1
                  ++ trace (receive_loop write_rc) s2
                  ++ [Release (frame item)]
  end.
Proof.
  intros m. subst m. unfold encoder_body, pop.
  destruct (q (frameQueue s)) as [|item rest] eqn:Hq.
  - destruct (stopRecording s) eqn:Hstop.
    + msimpl. rewrite Hq, Hstop. cbn [negb fst snd app]. split; reflexivity.
    + msimpl. rewrite Hq, Hstop. cbn [negb fst snd app]. split; reflexivity.
  - cbv zeta.
    destruct (result (avcodec_send_frame send_rc (Some (frame item)))
                (set_frameQueue (mkFrameQueue rest) s) <? 0) eqn:Hrc.
    + unfold flush_and_return. msimpl. rewrite Hq. cbn [fst snd app].
      unfold result in Hrc. rewrite Hrc. cbn [fst snd app].
      split; [reflexivity|].
      rewrite <- ?app_assoc; cbn [app]; rewrite ?app_nil_r; reflexivity.
    + msimpl. rewrite Hq. cbn [fst snd app].
      unfold result in Hrc. rewrite Hrc. cbn [fst snd app].
      split; [reflexivity|].
      rewrite <- ?app_assoc; cbn [app]; rewrite ?app_nil_r; reflexivity.
Qed.

Lemma encoder_step_spec send_rc write_rc s :
  let m := encoder_step send_rc write_rc in
  let body := encoder_body send_rc write_rc in
  match encoderThread s with
  | AtLoopHead =>
      if negb (stopRecording s)
         || negb (match q (frameQueue s) with [] => true | _ => false end)
      then exec m s = exec body (set_encoderThread InPop s)
           /\ trace m s = trace body (set_encoderThread InPop s)
      else exec m s = set_encoderThread Exited (exec (receive_loop write_rc) s)
           /\ trace m s = trace (receive_loop write_rc) s
  | InPop => exec m s = exec body s /\ trace m s = trace body s
  | Parked | Exited => exec m s = s /\ trace m s = []
  end.
Proof.
  intros m body. subst m body. unfold encoder_step.
  destruct (encoderThread s) eqn:Hst.
  - unfold empty, flush_and_return.
    destruct (negb (stopRecording s)
              || negb (match q (frameQueue s) with [] => true | _ => false end))
      eqn:Hc; msimpl; rewrite Hst; cbn [fst snd app]; rewrite Hc;
      cbn [fst snd app]; split; try reflexivity.
    now rewrite app_nil_r.
  - msimpl. rewrite Hst. split; reflexivity.
  - msimpl. rewrite Hst. split; reflexivity.
  - msimpl. rewrite Hst. split; reflexivity.
Qed.

(** Pacing touches the counter and the deadline only, and its trace is a
    sleep at most. *)
Lemma pace_form now s :
  let s1 := exec (pace now) s in
  s1 = set_nextFrameTime (nextFrameTime s1)
         (set_frameCounter (frameCounter s1) s)
  /\ forallb (fun o => match o with SleepUntil _ => true | _ => false end)
       (trace (pace now) s) = true.
Proof.
  unfold pace. msimpl.
  destruct (now >? nextFrameTime s + ms_ticks (frameInterval targetFPS));
    cbn [fst snd app]; split; try reflexivity; destruct s; reflexivity.
Qed.

Lemma pace_trace now s :
  let t := trace (pace now) s in
  pushes t = [] /\ pops t = [] /\ acquired t = [] /\ released t = []
  /\ logged t = [] /\ packets t = []
  /\ Forall (fun o => forall f rc, o <> SendFrame f rc) t
  /\ ~ In WriteTrailer t.
Proof.
  unfold pace. msimpl.
  destruct (now >? nextFrameTime s + ms_ticks (frameInterval targetFPS));
    cbn [fst snd app]; repeat split; try constructor;
    try (intros f rc H; discriminate H); try constructor;
    try (intros [H|[]]; discriminate H); intros [].
Qed.

Lemma capture_head_spec s :
  match captureLoop s with
  | Capturing =>
      exec capture_head s
      = set_captureLoop (if stopRecording s then Joining else InBody) s
      /\ trace capture_head s = []
  | _ => exec capture_head s = s /\ trace capture_head s = []
  end.
Proof.
  unfold capture_head.
  destruct (captureLoop s) eqn:Hc; msimpl; rewrite Hc;
    try (split; reflexivity).
  destruct (stopRecording s); split; reflexivity.
Qed.

Lemma capture_step_spec now a sh sc s :
  let m := capture_step now a sh sc in
  match captureLoop s with
  | InBody =>
      let s1 := exec (pace now) s in
      exec m s = set_captureLoop Capturing (exec (grab_frame a sh sc) s1)
      /\ trace m s = trace (pace now) s ++ trace (grab_frame a sh sc) s1
  | _ => exec m s = s /\ trace m s = []
  end.
Proof.
  intros m. subst m. unfold capture_step, capture_iteration.
  destruct (captureLoop s) eqn:Hc; msimpl; rewrite Hc;
    cbn [fst snd app]; rewrite ?app_nil_r; split; reflexivity.
Qed.

Lemma join_step_spec s :
  match captureLoop s, encoderThread s with
  | Joining, Exited =>
      exec join_step s
      = set_captureLoop Finished
          (set_outCtx (mkAVFormatContext (written (outCtx s)) true) s)
      /\ trace join_step s = [WriteTrailer]
  | _, _ => exec join_step s = s /\ trace join_step s = []
  end.
Proof.
  unfold join_step, av_write_trailer.
  destruct (captureLoop s) eqn:Hc; destruct (encoderThread s) eqn:He;
    msimpl; rewrite Hc, ?He; split; reflexivity.
Qed.
End ThreadFacts.

(** ** Every step falls into one of the cases of the relations *)

Section StepCases.
Import Int Chrono Av Video.
Local Open Scope Z_scope.

Lemma pace_paced now s :
  paced now s (exec (pace now) s) (trace (pace now) s).
Proof.
  unfold pace. msimpl.
  destruct (Z.gtb_spec now
              (nextFrameTime s + ms_ticks (frameInterval targetFPS)))
    as [Hlate|Hok]; cbn [fst snd app].
  - apply paced_behind. lia.
  - replace (set_nextFrameTime _ s)
      with (set_nextFrameTime
              (nextFrameTime s + ms_ticks (frameInterval targetFPS))
              (set_frameCounter (frameCounter s) s))
      by (destruct s; reflexivity).
    apply paced_on_time. exact Hok.
Qed.

Lemma paced_fields now s sp tp :
  paced now s sp tp ->
  stopRecording sp = stopRecording s /\ frameQueue sp = frameQueue s
  /\ framePool sp = framePool s /\ frames sp = frames s /\ brk sp = brk s
  /\ codecCtx sp = codecCtx s /\ outCtx sp = outCtx s
  /\ captureLoop sp = captureLoop s /\ encoderThread sp = encoderThread s.
Proof. intros []; repeat split. Qed.

Lemma capture_step_captured now a sh sc s :
  captured now a sh sc s (exec (capture_step now a sh sc) s)
    (trace (capture_step now a sh sc) s).
Proof.
  pose proof (capture_step_spec now a sh sc s) as Hspec. cbv zeta in Hspec.
  destruct (captureLoop s) eqn:Hloop.
  1,3,4: destruct Hspec as [-> ->]; apply cap_idle; congruence.
  destruct Hspec as [-> ->].
  pose proof (pace_paced now s) as Hp.
  destruct (paced_fields _ _ _ _ Hp)
    as (_ & Hq & Hpool & Hfr & Hbrk & _ & _ & _ & Het).
  set (sp := exec (pace now) s) in *.
  set (tp := trace (pace now) s) in *.
  assert (Hwf : forall f, writable_frames sh f sp = writable_frames sh f s)
    by (intros f; unfold writable_frames; now rewrite Hfr, Hbrk).
  assert (Hwb : writable_brk sh sp = writable_brk sh s)
    by (unfold writable_brk; now rewrite Hbrk).
  pose proof (grab_frame_spec a sh sc sp) as Hg. cbv zeta in Hg.
  destruct a; cbn [negb] in Hg.
  2:{ destruct Hg as [-> ->]. now apply cap_no_frame. }
  rewrite Hpool in Hg.
  destruct (freeFrames (framePool s)) as [|f rest] eqn:Hfree.
  { destruct Hg as [-> ->]. now apply cap_pool_empty. }
  destruct (Z.leb_spec sc 0) as [Hsc|Hsc]; destruct Hg as [-> ->].
  - rewrite Hwf, Hwb. now apply cap_scale_failed with (rest := rest).
  - rewrite Hwf, Hwb, Hq, Het. now apply cap_pushed with (rest := rest).
Qed.

Lemma codec_moved_trans s s2 c o tw :
  outCtx s2 = outCtx s ->
  lookahead (codecCtx s2) = lookahead (codecCtx s) ->
  draining (codecCtx s2) = draining (codecCtx s) ->
  codec_moved s2 c o tw -> codec_moved s c o tw.
Proof.
  unfold codec_moved. intros Ho Hl Hd (Hw & H1 & H2 & H3).
  repeat split; congruence.
Qed.

(** The receive loop run from a state, as a move of encoder and muxer. *)
Lemma receive_loop_moved w s :
  exec (receive_loop w) s
  = set_outCtx (outCtx (exec (receive_loop w) s))
      (set_codecCtx (codecCtx (exec (receive_loop w) s)) s)
  /\ codec_moved s (codecCtx (exec (receive_loop w) s))
       (outCtx (exec (receive_loop w) s)) (trace (receive_loop w) s).
Proof.
  destruct (receive_loop_frame w s) as (Hs & Hq & Hd & Hl & Ht).
  split; [exact Hs|]. repeat split; assumption.
Qed.

Lemma encoder_body_encoded send_rc write_rc s0 s :
  runnable s0 ->
  s = s0 \/ s = set_encoderThread InPop s0 ->
  encoded send_rc write_rc s0
    (exec (encoder_body send_rc write_rc) s)
    (trace (encoder_body send_rc write_rc) s)
  \/ (q (frameQueue s0) = [] /\ stopRecording s0 = true
      /\ exec (encoder_body send_rc write_rc) s = set_encoderThread AtLoopHead s0
      /\ trace (encoder_body send_rc write_rc) s = [Pop None]).
Proof.
  intros Hrun Hs.
  assert (Hq : frameQueue s = frameQueue s0) by (destruct Hs; subst; reflexivity).
  assert (Hstop : stopRecording s = stopRecording s0)
    by (destruct Hs; subst; reflexivity).
  assert (Hover : forall st, set_encoderThread st s = set_encoderThread st s0).
  { intros st. destruct Hs; subst; [reflexivity | destruct s0; reflexivity]. }
  pose proof (encoder_body_spec send_rc write_rc s) as Hspec.
  cbv zeta in Hspec. rewrite Hq, Hstop in Hspec.
  destruct (q (frameQueue s0)) as [|item rest] eqn:Hq0.
  - destruct (stopRecording s0) eqn:Hstop0; destruct Hspec as [He Ht];
      rewrite He, Ht, Hover.
    + right. repeat split; reflexivity.
    + left. now apply enc_park.
  - left.
    set (s1 := set_frameQueue (mkFrameQueue rest) s) in *.
    destruct (send_frame_spec send_rc (Some (frame item)) s1)
      as (Hsh & Htr & Hout & Hla & Hneg & Hpos & Hdr).
    set (send := avcodec_send_frame send_rc (Some (frame item))) in *.
    set (s2 := exec send s1) in *.
    destruct (receive_loop_moved write_rc s2) as [Hform Hmoved].
    set (s3 := exec (receive_loop write_rc) s2) in *.
    assert (Hdr2 : draining (codecCtx s2) = draining (codecCtx s0)).
    { rewrite Hdr by discriminate. subst s1. destruct Hs; subst; reflexivity. }
    assert (Hla2 : lookahead (codecCtx s2) = lookahead (codecCtx s0)).
    { rewrite Hla. subst s1. destruct Hs; subst; reflexivity. }
    assert (Hout2 : outCtx s2 = outCtx s0).
    { rewrite Hout. subst s1. destruct Hs; subst; reflexivity. }
    assert (Hm0 : codec_moved s0 (codecCtx s3) (outCtx s3)
                    (trace (receive_loop write_rc) s2))
      by (eapply codec_moved_trans; eassumption).
    assert (Hs3 : forall st,
               set_encoderThread st s3
               = set_encoderThread st
                   (set_outCtx (outCtx s3)
                      (set_codecCtx (codecCtx s3)
                         (set_frameQueue (mkFrameQueue rest) s0)))).
    { intros st. rewrite Hform. unfold same_shared in Hsh. rewrite Hsh.
      subst s1. destruct Hs; subst; destruct s0; reflexivity. }
    destruct (Z.ltb_spec (result send s1) 0) as [Hrc|Hrc];
      destruct Hspec as [He Ht]; rewrite He, Ht, Htr; cbn [app].
    + rewrite Hs3. apply enc_send_failed; auto.
      * intros Hn. now destruct (Hneg Hn).
      * intros Hp.
        destruct (draining (codecCtx s0)) eqn:Hd0; [reflexivity|].
        assert (Hd1 : draining (codecCtx s1) = false)
          by (subst s1; destruct Hs; subst; exact Hd0).
        specialize (Hpos Hp Hd1). lia.
    + assert (Hsend : 0 <= send_rc).
      { destruct (Z.lt_ge_cases send_rc 0) as [Hn|Hp]; [|exact Hp].
        destruct (Hneg Hn) as [Hr _]. lia. }
      assert (Hd0 : draining (codecCtx s0) = false).
      { destruct (draining (codecCtx s0)) eqn:Hd0; [|reflexivity].
        exfalso.
        assert (Hd1 : draining (codecCtx s1) = true)
          by (subst s1; destruct Hs; subst; exact Hd0).
        revert Hrc. subst send. unfold avcodec_send_frame, result. msimpl.
        destruct (send_rc <? 0) eqn:Hlt; [apply Z.ltb_lt in Hlt; lia|].
        rewrite Hd1. cbn. unfold AVERROR_EOF. lia. }
      assert (Hd1 : draining (codecCtx s1) = false)
        by (subst s1; destruct Hs; subst; exact Hd0).
      rewrite (Hpos Hsend Hd1).
      destruct (release_spec (frame item) s3) as [Hre _]. rewrite Hre.
      assert (Hfr3 : frames s3 = frames s0 /\ framePool s3 = framePool s0).
      { rewrite Hform. unfold same_shared in Hsh. rewrite Hsh.
        subst s1. destruct Hs; subst; split; reflexivity. }
      destruct Hfr3 as [-> ->].
      replace (set_encoderThread AtLoopHead _)
        with (set_encoderThread AtLoopHead
                (set_framePool
                   (mkFramePool (freeFrames (framePool s0) ++ [frame item]))
                   (set_frames (alter (set_pts 0) (frame item) (frames s0))
                      (set_outCtx (outCtx s3)
                         (set_codecCtx (codecCtx s3)
                            (set_frameQueue (mkFrameQueue rest) s0)))))).
      2:{ rewrite Hform. unfold same_shared in Hsh. rewrite Hsh.
          subst s1. destruct Hs; subst; destruct s0; reflexivity. }
      apply enc_sent; auto.
Qed.

Lemma encoder_step_encoded send_rc write_rc s :
  encoded send_rc write_rc s (exec (encoder_step send_rc write_rc) s)
    (trace (encoder_step send_rc write_rc) s).
Proof.
  pose proof (encoder_step_spec send_rc write_rc s) as Hspec.
  cbv zeta in Hspec.
  destruct (encoderThread s) eqn:Hst.
  - destruct (negb (stopRecording s)
              || negb (match q (frameQueue s) with [] => true | _ => false end))
      eqn:Hcond; destruct Hspec as [-> ->].
    + destruct (encoder_body_encoded send_rc write_rc s
                  (set_encoderThread InPop s))
        as [H|(Hq & Hstop & _)]; [left; exact Hst | right; reflexivity | exact H |].
      rewrite Hq, Hstop in Hcond. discriminate Hcond.
    + apply orb_false_elim in Hcond. destruct Hcond as [Hstop Hq].
      apply negb_false_iff in Hstop. apply negb_false_iff in Hq.
      destruct (q (frameQueue s)) eqn:Hq0; [|discriminate Hq].
      destruct (receive_loop_moved write_rc s) as [Hform Hmoved].
      rewrite Hform at 1.
      replace (set_encoderThread Exited _)
        with (set_encoderThread Exited
                (set_outCtx (outCtx (exec (receive_loop write_rc) s))
                   (set_codecCtx (codecCtx (exec (receive_loop write_rc) s)) s)))
        by reflexivity.
      now apply enc_loop_exit.
  - destruct Hspec as [-> ->].
    destruct (encoder_body_encoded send_rc write_rc s s)
      as [H|(Hq & Hstop & -> & ->)]; [right; exact Hst | left; reflexivity | exact H |].
    now apply enc_end_of_stream.
  - destruct Hspec as [-> ->]. apply enc_idle. now left.
  - destruct Hspec as [-> ->]. apply enc_idle. now right.
Qed.

Theorem step_stepped ev s :
  stepped ev s (exec (step ev) s) (trace (step ev) s).
Proof.
  destruct ev as [| |now a sc|send_rc write_rc| | |now a sc]; cbn [step].
  - apply stepped_sigint.
  - pose proof (capture_head_spec s) as Hspec.
    destruct (captureLoop s) eqn:Hc; destruct Hspec as [-> ->];
      try (apply stepped_head_idle; congruence).
    destruct (stopRecording s) eqn:Hs;
      [now apply stepped_head_exit | now apply stepped_head_enter].
  - apply (stepped_capture now a false), capture_step_captured.
  - apply stepped_encode, encoder_step_encoded.
  - apply stepped_spurious.
  - pose proof (join_step_spec s) as Hspec.
    destruct (captureLoop s) eqn:Hc; destruct (encoderThread s) eqn:He;
      destruct Hspec as [-> ->];
      try (apply stepped_join_waits; rewrite ?Hc, ?He;
           first [left; discriminate | right; discriminate]).
    now apply stepped_join.
  - apply (stepped_capture now a true), capture_step_captured.
Qed.
End StepCases.

(** ** Invariants of every schedule *)

Section Invariants.
Import Int Chrono Av Video.
Local Open Scope Z_scope.

(** An invariant proved step by step holds along every schedule. *)
Lemma run_invariant (P : State -> State -> list Obs -> Prop) :
  (forall s, P s s []) ->
  (forall s1 s2 s3 t1 t2, P s1 s2 t1 -> P s2 s3 t2 -> P s1 s3 (t1 ++ t2)) ->
  (forall ev s s' t, stepped ev s s' t -> P s s' t) ->
  forall evs s, P s (exec (run evs) s) (trace (run evs) s).
Proof.
  intros Hrefl Htrans Hstep evs.
  induction evs as [|ev evs IH]; intros s.
  - apply Hrefl.
  - cbn [run]. rewrite exec_bind, trace_bind.
    eapply Htrans; [eapply Hstep, step_stepped | apply IH].
Qed.

(** The same for schedules all of whose events satisfy [ok]. *)
Lemma run_invariant_on (ok : Event -> Prop)
    (P : State -> State -> list Obs -> Prop) :
  (forall s, P s s []) ->
  (forall s1 s2 s3 t1 t2, P s1 s2 t1 -> P s2 s3 t2 -> P s1 s3 (t1 ++ t2)) ->
  (forall ev s s' t, ok ev -> stepped ev s s' t -> P s s' t) ->
  forall evs s, Forall ok evs -> P s (exec (run evs) s) (trace (run evs) s).
Proof.
  intros Hrefl Htrans Hstep evs.
  induction evs as [|ev evs IH]; intros s Hok.
  - apply Hrefl.
  - cbn [run]. rewrite exec_bind, trace_bind.
    inversion Hok as [|? ? Hev Hevs]; subst.
    eapply Htrans; [eapply Hstep; [exact Hev | apply step_stepped] | now apply IH].
Qed.

Lemma pushes_app t1 t2 : pushes (t1 ++ t2) = pushes t1 ++ pushes t2.
Proof. apply omap_app. Qed.
Lemma pops_app t1 t2 : pops (t1 ++ t2) = pops t1 ++ pops t2.
Proof. apply omap_app. Qed.
Lemma acquired_app t1 t2 : acquired (t1 ++ t2) = acquired t1 ++ acquired t2.
Proof. apply omap_app. Qed.
Lemma released_app t1 t2 : released (t1 ++ t2) = released t1 ++ released t2.
Proof. apply omap_app. Qed.
Lemma logged_app t1 t2 : logged (t1 ++ t2) = logged t1 ++ logged t2.
Proof. apply omap_app. Qed.

Lemma paced_trace now s sp tp :
  paced now s sp tp ->
  pushes tp = [] /\ pops tp = [] /\ acquired tp = [] /\ released tp = []
  /\ logged tp = []
  /\ Forall (fun o => forall f rc, o <> SendFrame f rc) tp
  /\ ~ In WriteTrailer tp.
Proof.
  intros [Hlate|Hok].
  - repeat split; try constructor. intros [].
  - repeat split.
    + constructor; [intros f rc H; discriminate H | constructor].
    + intros [H|[]]. discriminate H.
Qed.

Lemma moved_trace s c o tw :
  codec_moved s c o tw ->
  pushes tw = [] /\ pops tw = [] /\ acquired tw = [] /\ released tw = []
  /\ logged tw = []
  /\ Forall (fun o => forall f rc, o <> SendFrame f rc) tw
  /\ ~ In WriteTrailer tw.
Proof. intros (Hw & _). now apply quiet_trace. Qed.
End Invariants.

(** Case analysis on a step, with the facts about the embedded traces. *)
Ltac trace_facts :=
  repeat match goal with
         | H : Video.paced _ _ _ _ |- _ =>
             let F := fresh "Hpt" in
             pose proof (paced_trace _ _ _ _ H) as F;
             destruct F as (?Hp1 & ?Hp2 & ?Hp3 & ?Hp4 & ?Hp5 & ?Hp6 & ?Hp7);
             let G := fresh "Hpf" in
             pose proof (paced_fields _ _ _ _ H) as G;
             destruct G as (?Hf1 & ?Hf2 & ?Hf3 & ?Hf4 & ?Hf5 & ?Hf6 & ?Hf7 & ?Hf8 & ?Hf9);
             revert H
         | H : Video.codec_moved _ _ _ _ |- _ =>
             let F := fresh "Hmt" in
             pose proof (moved_trace _ _ _ _ H) as F;
             destruct F as (?Hm1 & ?Hm2 & ?Hm3 & ?Hm4 & ?Hm5 & ?Hm6 & ?Hm7);
             revert H
         end;
  intros.

Ltac split_shared :=
  try match goal with
      | H : context [Video.capture_event ?sh _ _ _] |- _ =>
          is_var sh; destruct sh; cbn [Video.capture_event] in *
      end.

Ltac step_cases H :=
  destruct H as [ ? | ? ? | ? ? ? | ? ? ? | ? ? ? ? ? ? ? Hcap
                | ? ? ? ? ? Henc | ? | ? ? | ? ? ? ];
  [ | | | | destruct Hcap; split_shared | destruct Henc | | | ];
  trace_facts.

Ltac trace_simpl :=
  unfold Video.pushes, Video.pops, Video.acquired, Video.released,
    Video.logged in *;
  repeat (rewrite ?omap_app; cbn [omap list_omap app]);
  repeat match goal with
         | H : omap _ ?t = [] |- _ => progress rewrite H
         end;
  cbn [app].

Section Fifo.
Import Int Chrono Av Video.
Local Open Scope Z_scope.

(** What has been pushed is what has been popped followed by what is still
    queued, in this order. *)
Lemma step_fifo ev s s' t :
  stepped ev s s' t ->
  q (frameQueue s) ++ pushes t = pops t ++ q (frameQueue s').
Proof.
  intros H. step_cases H; trace_simpl; cbn;
    rewrite ?app_nil_r; try congruence.
Qed.

Lemma run_fifo evs s :
  q (frameQueue s) ++ pushes (trace (run evs) s)
  = pops (trace (run evs) s) ++ q (frameQueue (exec (run evs) s)).
Proof.
  apply (run_invariant (fun s s' t =>
           q (frameQueue s) ++ pushes t = pops t ++ q (frameQueue s'))).
  - intros s0. cbn. now rewrite app_nil_r.
  - intros s1 s2 s3 t1 t2 H12 H23.
    rewrite pushes_app, pops_app, app_assoc, H12, <- app_assoc, H23.
    now rewrite app_assoc.
  - intros ev s0 s' t. apply step_fifo.
Qed.

(** In a catch-up iteration inside the clock range neither [skipCount] nor
    [skipCount + 1] wraps around, and [skipCount] is positive. *)
Lemma skip_at_range t0 now s :
  now > nextFrameTime s + ms_ticks (frameInterval targetFPS) ->
  t0 <= nextFrameTime s ->
  now - t0 < (2 ^ 31 - 1) * ms_ticks (frameInterval targetFPS) ->
  skip_at now s = (now - nextFrameTime s) / ms_ticks (frameInterval targetFPS)
  /\ 1 <= skip_at now s
  /\ to_int (skip_at now s + 1) = skip_at now s + 1.
Proof.
  intros Hlate Ht0 Hrange. unfold skip_at.
  assert (Hi : ms_ticks (frameInterval targetFPS) = 33000000) by reflexivity.
  rewrite skip_quotient by (rewrite ?frameInterval_30; lia).
  rewrite Hi in *.
  assert (Hlo : 1 <= (now - nextFrameTime s) / 33000000)
    by (apply Z.div_le_lower_bound; lia).
  assert (Hhi : (now - nextFrameTime s) / 33000000 < 2 ^ 31 - 1)
    by (apply Z.div_lt_upper_bound; lia).
  rewrite (to_int_small ((now - nextFrameTime s) / 33000000)) by lia.
  split; [reflexivity|]. split; [exact Hlo|].
  apply to_int_small. lia.
Qed.

Lemma paced_counter t0 now s sp tp :
  paced now s sp tp ->
  now - t0 < (2 ^ 31 - 1) * ms_ticks (frameInterval targetFPS) ->
  t0 <= nextFrameTime s ->
  t0 <= nextFrameTime sp /\ frameCounter s <= frameCounter sp.
Proof.
  assert (Hi : ms_ticks (frameInterval targetFPS) = 33000000) by reflexivity.
  intros [Hlate|Hok] Hrange Ht0; cbn [nextFrameTime frameCounter
    set_nextFrameTime set_frameCounter].
  - destruct (skip_at_range t0 now s Hlate Ht0 Hrange) as (_ & Hpos & ->).
    unfold ms_ticks in *. rewrite frameInterval_30 in *.
    unfold ticks_per_ms in *. nia.
  - lia.
Qed.

Lemma step_pts t0 ev s s' t :
  clock_ok t0 ev -> stepped ev s s' t -> pts_step t0 s s' t.
Proof.
  intros Hok H Ht0. unfold pts_step.
  step_cases H; cbn [clock_ok] in Hok;
    try match goal with
        | Hp : paced _ _ _ _ |- _ =>
            destruct (paced_counter t0 _ _ _ _ Hp Hok Ht0) as [? ?]
        end;
    trace_simpl; cbn;
    repeat split; try lia; try constructor; try constructor; cbn; try lia.
Qed.

Lemma run_pts t0 evs s :
  clock_in_range t0 evs -> pts_step t0 s (exec (run evs) s) (trace (run evs) s).
Proof.
  revert s. apply (run_invariant_on (clock_ok t0) (pts_step t0)).
  - intros s Ht0. repeat split; try lia; constructor.
  - intros s1 s2 s3 t1 t2 H12 H23 Ht0.
    destruct (H12 Ht0) as (Ht2 & Hc12 & Hp1 & Hs1).
    destruct (H23 Ht2) as (Ht3 & Hc23 & Hp2 & Hs2).
    rewrite pushes_app, map_app.
    repeat split; try lia.
    + apply Forall_app. split.
      * eapply Forall_impl; [exact Hp1|]. cbn. intros; lia.
      * eapply Forall_impl; [exact Hp2|]. cbn. intros; lia.
    + apply StronglySorted_app_2; try assumption.
      intros x1 x2 H1 H2.
      apply list_elem_of_fmap in H1. destruct H1 as (i1 & -> & H1).
      apply list_elem_of_fmap in H2. destruct H2 as (i2 & -> & H2).
      rewrite Forall_forall in Hp1, Hp2.
      specialize (Hp1 _ H1). specialize (Hp2 _ H2). lia.
  - intros ev s0 s' t. apply step_pts.
Qed.

(** The constructor of the pool touches the pool, the heap and the
    allocator only. *)
Lemma FramePool_loop_form n w h p s :
  let s' := exec (FramePool_loop n w h p) s in
  s' = set_framePool (framePool s') (set_frames (frames s') (set_brk (brk s') s)).
Proof.
  revert s. induction n as [|n IH]; intros s; cbn [FramePool_loop].
  - cbn. destruct s; reflexivity.
  - cbv zeta. rewrite exec_bind.
    set (s1 := exec av_frame_alloc s).
    set (f := result av_frame_alloc s).
    rewrite exec_bind. set (s2 := exec (update_frame f _) s1).
    rewrite exec_bind. set (s3 := exec (av_frame_get_buffer f) s2).
    rewrite exec_bind. set (s4 := exec (modify _) s3).
    specialize (IH s4). cbv zeta in IH.
    set (s5 := exec (FramePool_loop n w h p) s4) in *.
    rewrite IH.
    destruct s; reflexivity.
Qed.

Lemma start_with_fields size t0 la :
  let s0 := start_with size t0 la in
  stopRecording s0 = false /\ q (frameQueue s0) = []
  /\ frameCounter s0 = 0 /\ nextFrameTime s0 = t0
  /\ codecCtx s0 = mkAVCodecContext la [] false
  /\ outCtx s0 = mkAVFormatContext [] false
  /\ captureLoop s0 = Capturing /\ encoderThread s0 = AtLoopHead.
Proof.
  unfold start_with, FramePool_ctor. cbv zeta. rewrite exec_bind.
  set (b := exec (modify _) (boot t0 la)).
  pose proof (FramePool_loop_form (Z.to_nat size) width height
                AV_PIX_FMT_YUV420P b) as H.
  cbv zeta in H. rewrite H. repeat split.
Qed.

Lemma sorted_index (l : list Z) :
  StronglySorted Z.lt l ->
  forall i j x y, l !! i = Some x -> l !! j = Some y -> (i < j)%nat -> x < y.
Proof.
  induction 1 as [|a l Hs IH Hall]; intros i j x y Hi Hj Hlt.
  - rewrite lookup_nil in Hi. discriminate Hi.
  - destruct j as [|j]; [lia|]. cbn in Hj.
    destruct i as [|i]; cbn in Hi.
    + injection Hi as <-. rewrite Forall_forall in Hall.
      apply Hall. apply list_elem_of_lookup. now exists j.
    + eapply IH; eauto. lia.
Qed.

Lemma sorted_index_iff (l : list Z) i j x y :
  StronglySorted Z.lt l ->
  l !! i = Some x -> l !! j = Some y -> (x < y <-> (i < j)%nat).
Proof.
  intros Hs Hi Hj. split; [|eapply sorted_index; eauto].
  intros Hxy.
  destruct (Nat.lt_trichotomy i j) as [Hlt|[Heq|Hgt]]; [exact Hlt| |].
  - subst j. rewrite Hi in Hj. injection Hj as <-. lia.
  - pose proof (sorted_index l Hs j i y x Hj Hi Hgt). lia.
Qed.

(** C8, as amended: the frames popped are, position by position, the frames
    pushed (what is pushed is what is popped followed by what is still
    queued), whatever the clock does; the capture loop pushes frames with
    strictly increasing pts as long as every clock reading lies less than
    2^31 - 1 frame intervals after the start, and when the pushed pts are
    strictly increasing, of two popped frames the one with the smaller pts
    is popped first. *)
Theorem C8_fifo_order size t0 la evs :
  let s0 := start_with size t0 la in
  let t := trace (run evs) s0 in
  pushes t = pops t ++ q (frameQueue (exec (run evs) s0))
  /\ (forall k item, pops t !! k = Some item -> pushes t !! k = Some item)
  /\ (clock_in_range t0 evs -> StronglySorted Z.lt (map pts (pushes t)))
  /\ (StronglySorted Z.lt (map pts (pushes t)) ->
      forall i j a b,
        pops t !! i = Some a -> pops t !! j = Some b ->
        (pts a < pts b <-> (i < j)%nat))
  /\ (clock_in_range t0 evs ->
      forall i j a b,
        pops t !! i = Some a -> pops t !! j = Some b ->
        (pts a < pts b <-> (i < j)%nat)).
Proof.
  intros s0 t.
  destruct (start_with_fields size t0 la) as (_ & Hq0 & _ & Ht0 & _).
  fold s0 in Hq0, Ht0.
  pose proof (run_fifo evs s0) as Hfifo. fold t in Hfifo.
  rewrite Hq0 in Hfifo. cbn [app] in Hfifo.
  assert (Hinc : clock_in_range t0 evs ->
                 StronglySorted Z.lt (map pts (pushes t))).
  { intros Hclock.
    destruct (run_pts t0 evs s0 Hclock) as (_ & _ & _ & Hsorted); [lia|].
    exact Hsorted. }
  assert (Hord : StronglySorted Z.lt (map pts (pushes t)) ->
                 forall i j a b,
                   pops t !! i = Some a -> pops t !! j = Some b ->
                   (pts a < pts b <-> (i < j)%nat)).
  { intros Hsorted i j a b Hi Hj.
    rewrite Hfifo, map_app in Hsorted.
    apply StronglySorted_app_1_l in Hsorted.
    apply (sorted_index_iff (map pts (pops t))); [exact Hsorted | |].
    - rewrite list_lookup_fmap, Hi. reflexivity.
    - rewrite list_lookup_fmap, Hj. reflexivity. }
  split; [exact Hfifo|]. split; [|split; [exact Hinc|split; [exact Hord|]]].
  - intros k item Hk. rewrite Hfifo. now apply lookup_app_l_Some.
  - intros Hclock. exact (Hord (Hinc Hclock)).
Qed.

Lemma C8_fifo_order_witness :
  let evs := [CaptureHead; Capture 0 true 720;
              CaptureHead; Capture 100000000 true 720;
              Encode 0 0; Encode 0 0] in
  let t := trace (run evs) (start_with 2 0 1) in
  clock_in_range 0 evs
  /\ pops t = [mkFrameItem 1 0; mkFrameItem 3 3]
  /\ StronglySorted Z.lt (map pts (pushes t))
  /\ (pts (mkFrameItem 1 0) < pts (mkFrameItem 3 3) <-> (0 < 1)%nat).
Proof.
  intros evs t.
  assert (Hclock : clock_in_range 0 evs).
  { repeat constructor; vm_compute; reflexivity. }
  assert (Hpops : pops t = [mkFrameItem 1 0; mkFrameItem 3 3])
    by (vm_compute; reflexivity).
  split; [exact Hclock|]. split; [exact Hpops|].
  destruct (C8_fifo_order 2 0 1 evs) as (_ & _ & Hinc & Hord & _).
  fold t in Hinc, Hord.
  split; [exact (Hinc Hclock)|].
  apply (Hord (Hinc Hclock) 0%nat 1%nat); rewrite Hpops; reflexivity.
Defined.

(** C8 as stated fails: the pts pushed are not always strictly increasing,
    and then the consumer does not process the smaller pts first.  The
    first frame is pushed with pts 0.  When the next iteration reads the
    clock 2^31 frame intervals after its deadline, the quotient 2^31 does
    not fit [int skipCount], which becomes -2^31; the counter goes back to
    1 - 2^31, and this is the pts of the second frame: the encoder thread
    pops the frame with pts 0 before the frame with the smaller pts
    1 - 2^31.  At [skipCount = INT_MAX] the addition [skipCount + 1] wraps
    and the deadline goes back by 2^31 intervals; the next iteration then
    finds [skipCount = -1] and pushes the pts 2147483647 a second time. *)
Lemma C8_counterexample :
  let interval := ms_ticks (frameInterval targetFPS) in
  (let evs := [CaptureHead; Capture 0 true 720;
               CaptureHead; Capture (interval * (2 ^ 31 + 1)) true 720;
               Encode 0 0; Encode 0 0] in
   let t := trace (run evs) (start 0 1) in
   pushes t = [mkFrameItem 1 0; mkFrameItem 3 (1 - 2 ^ 31)]
   /\ pops t = [mkFrameItem 1 0; mkFrameItem 3 (1 - 2 ^ 31)]
   /\ ~ StronglySorted Z.lt (map pts (pushes t))
   /\ exists i j a b,
        pops t !! i = Some a /\ pops t !! j = Some b
        /\ pts b < pts a /\ (i < j)%nat)
  /\ (let evs := [CaptureHead; Capture (interval * (2 ^ 31 - 1)) true 720;
                  CaptureHead; Capture (interval * (2 ^ 31 - 1)) true 720] in
      let t := trace (run evs) (start 0 1) in
      map pts (pushes t) = [2147483647; 2147483647]
      /\ ~ StronglySorted Z.lt (map pts (pushes t))).
Proof.
  assert (Hno : forall x y : Z, y <= x -> ~ StronglySorted Z.lt [x; y]).
  { intros x y Hle Hs. inversion Hs as [|? ? _ Hall]; subst.
    inversion Hall as [|? ? Hlt _]; subst. lia. }
  cbv zeta. split.
  - assert (Hpushes :
      pushes (trace (run [CaptureHead; Capture 0 true 720; CaptureHead;
                          Capture (ms_ticks (frameInterval targetFPS)
                                   * (2 ^ 31 + 1)) true 720;
                          Encode 0 0; Encode 0 0]) (start 0 1))
      = [mkFrameItem 1 0; mkFrameItem 3 (1 - 2 ^ 31)])
      by (vm_compute; reflexivity).
    assert (Hpops :
      pops (trace (run [CaptureHead; Capture 0 true 720; CaptureHead;
                        Capture (ms_ticks (frameInterval targetFPS)
                                 * (2 ^ 31 + 1)) true 720;
                        Encode 0 0; Encode 0 0]) (start 0 1))
      = [mkFrameItem 1 0; mkFrameItem 3 (1 - 2 ^ 31)])
      by (vm_compute; reflexivity).
    rewrite Hpushes, Hpops.
    split; [reflexivity|]. split; [reflexivity|].
    split; [apply Hno; vm_compute; discriminate|].
    exists 0%nat, 1%nat, (mkFrameItem 1 0), (mkFrameItem 3 (1 - 2 ^ 31)).
    split; [reflexivity|]. split; [reflexivity|].
    split; [vm_compute; reflexivity | lia].
  - assert (Hpts :
      map pts
        (pushes (trace (run [CaptureHead;
                             Capture (ms_ticks (frameInterval targetFPS)
                                      * (2 ^ 31 - 1)) true 720;
                             CaptureHead;
                             Capture (ms_ticks (frameInterval targetFPS)
                                      * (2 ^ 31 - 1)) true 720])
                   (start 0 1)))
      = [2147483647; 2147483647]) by (vm_compute; reflexivity).
    rewrite Hpts. split; [reflexivity|]. apply Hno. lia.
Qed.
End Fifo.



(** ** Shutdown *)

Section Shutdown.
Import Int Chrono Av Video.
Local Open Scope Z_scope.

Lemma signalHandler_spec s :
  exec signalHandler s = set_stopRecording true s
  /\ trace signalHandler s = [].
Proof. split; reflexivity. Qed.

Lemma pop_end_of_stream s :
  q (frameQueue s) = [] -> stopRecording s = true ->
  result pop s = Returns None /\ exec pop s = s /\ trace pop s = [Pop None].
Proof.
  intros Hq Hstop. unfold pop. msimpl. rewrite Hq, Hstop. repeat split.
Qed.

Lemma pop_front s item rest :
  q (frameQueue s) = item :: rest ->
  result pop s = Returns (Some item)
  /\ exec pop s = set_frameQueue (mkFrameQueue rest) s
  /\ trace pop s = [Pop (Some item)].
Proof. intros Hq. unfold pop. msimpl. rewrite Hq. repeat split. Qed.

Lemma pop_waits s :
  q (frameQueue s) = [] -> stopRecording s = false ->
  result pop s = Waits /\ exec pop s = set_encoderThread Parked s.
Proof.
  intros Hq Hstop. unfold pop. msimpl. rewrite Hq, Hstop. repeat split.
Qed.

(** Once the head of the capture loop has seen the flag, or sees it next,
    nothing is pushed any more. *)
Lemma step_no_push_after_stop ev s s' t :
  stepped ev s s' t ->
  stopRecording s = true -> captureLoop s <> InBody ->
  stopRecording s' = true /\ captureLoop s' <> InBody /\ pushes t = [].
Proof.
  intros H Hstop Hloop.
  step_cases H; try congruence; trace_simpl; cbn;
    repeat split; try congruence; try discriminate.
Qed.

Lemma run_no_push_after_stop evs s :
  stopRecording s = true -> captureLoop s <> InBody ->
  stopRecording (exec (run evs) s) = true
  /\ captureLoop (exec (run evs) s) <> InBody
  /\ pushes (trace (run evs) s) = [].
Proof.
  apply (run_invariant (fun s s' t =>
    stopRecording s = true -> captureLoop s <> InBody ->
    stopRecording s' = true /\ captureLoop s' <> InBody /\ pushes t = [])).
  - intros s0 H1 H2. repeat split; assumption.
  - intros s1 s2 s3 t1 t2 H12 H23 Hs Hl.
    destruct (H12 Hs Hl) as (Hs2 & Hl2 & Hp1).
    destruct (H23 Hs2 Hl2) as (Hs3 & Hl3 & Hp2).
    rewrite pushes_app, Hp1, Hp2. repeat split; assumption.
  - intros ev s0 s' t. apply step_no_push_after_stop.
Qed.

(** C5, as amended: [push] appends the frame and notifies the consumer
    whether or not shutdown has been signaled: a consumer parked in
    [cv.wait] is made runnable again (a parked consumer does nothing on its
    own, and after the push its next round pops the frame), a consumer that
    is not parked is left as it is; frames stop being pushed only because
    the capture loop tests the flag at the head of each iteration: once the
    flag is set and the loop is not in the middle of an iteration, no
    schedule pushes a frame any more. *)
Theorem C5_push_appends s item :
  q (frameQueue (exec (push item) s)) = q (frameQueue s) ++ [item]
  /\ trace (push item) s = [Push item]
  /\ stopRecording (exec (push item) s) = stopRecording s
  /\ (encoderThread s = Parked -> encoderThread (exec (push item) s) = InPop)
  /\ (encoderThread s <> Parked ->
      encoderThread (exec (push item) s) = encoderThread s)
  /\ (encoderThread s = Parked ->
      forall send_rc write_rc,
        exec (step (Encode send_rc write_rc)) s = s
        /\ trace (step (Encode send_rc write_rc)) s = [])
  /\ (encoderThread s = Parked -> q (frameQueue s) = [] ->
      forall send_rc write_rc,
        pops (trace (step (Encode send_rc write_rc)) (exec (push item) s))
        = [item])
  /\ (stopRecording s = true -> captureLoop s <> InBody ->
      forall evs, pushes (trace (run evs) s) = []).
Proof.
  destruct (push_spec item s) as [Hexec Htrace].
  destruct (notify_one_spec
              (set_frameQueue (mkFrameQueue (q (frameQueue s) ++ [item])) s))
    as [Hnote _].
  rewrite Hnote in Hexec. rewrite Hexec, Htrace.
  cbn [set_encoderThread set_frameQueue encoderThread frameQueue
         stopRecording q].
  split; [reflexivity|]. split; [reflexivity|]. split; [reflexivity|].
  split; [intros ->; reflexivity|].
  split; [intros Hrun; destruct (encoderThread s); cbn [wake]; congruence|].
  split.
  { intros Hpark send_rc write_rc. cbn [step].
    pose proof (encoder_step_spec send_rc write_rc s) as Hspec.
    cbv zeta in Hspec. rewrite Hpark in Hspec. exact Hspec. }
  split.
  { intros Hpark Hq send_rc write_rc.
    set (s1 := set_encoderThread _ _).
    assert (Hq1 : q (frameQueue s1) = [item]) by (cbn; now rewrite Hq).
    assert (Hst1 : encoderThread s1 = InPop) by (cbn; now rewrite Hpark).
    cbn [step]. clearbody s1.
    pose proof (encoder_step_encoded send_rc write_rc s1) as Henc.
    destruct Henc; trace_facts;
      try (unfold runnable in *; intuition congruence);
      try congruence;
      trace_simpl; cbn [omap list_omap]; congruence. }
  intros Hstop Hloop evs.
  now destruct (run_no_push_after_stop evs s Hstop Hloop) as (_ & _ & H).
Qed.

Lemma C5_push_appends_witness :
  let s := exec signalHandler (start 0 1) in
  stopRecording s = true
  /\ pushes (trace (run [CaptureHead; Capture 0 true 720; Encode 0 0]) s) = [].
Proof.
  intros s.
  assert (Hstop : stopRecording s = true) by (vm_compute; reflexivity).
  assert (Hloop : captureLoop s <> InBody) by (vm_compute; discriminate).
  split; [exact Hstop|].
  destruct (C5_push_appends s (mkFrameItem 1 0)) as (_ & _ & _ & _ & _ & _ & _ & H).
  exact (H Hstop Hloop _).
Defined.

(** C5 as stated fails: the signal arrives after the capture loop has tested
    the flag, and the push of that iteration, made after the signal, appends
    the frame. *)
Lemma C5_counterexample :
  let s := exec (run [CaptureHead; Sigint]) (start 0 1) in
  let m := step (Capture 0 true 720) in
  stopRecording s = true
  /\ pushes (trace m s) = [mkFrameItem 1 0]
  /\ q (frameQueue s) = []
  /\ q (frameQueue (exec m s)) = [mkFrameItem 1 0].
Proof. vm_compute. repeat split. Qed.

(** A parked encoder thread stays parked when the flag is set and nothing
    is pushed any more: only a notification or a spurious wake-up leaves
    [cv.wait]. *)
Lemma step_parked ev s s' t :
  is_spurious ev = false ->
  stepped ev s s' t ->
  encoderThread s = Parked -> stopRecording s = true ->
  captureLoop s <> InBody ->
  encoderThread s' = Parked /\ stopRecording s' = true
  /\ captureLoop s' <> InBody
  /\ outCtx s' = outCtx s
  /\ (captureLoop s <> Finished -> captureLoop s' <> Finished)
  /\ t = [].
Proof.
  intros Hsp H Hpark Hstop Hloop.
  step_cases H; try discriminate Hsp; try congruence;
    try (unfold runnable in *; intuition congruence);
    cbn; repeat split; auto; try congruence; try discriminate.
Qed.

Lemma run_parked evs s :
  encoderThread s = Parked -> stopRecording s = true ->
  captureLoop s <> InBody ->
  let s' := exec (run (without_spurious evs)) s in
  encoderThread s' = Parked /\ stopRecording s' = true
  /\ outCtx s' = outCtx s
  /\ (captureLoop s <> Finished -> captureLoop s' <> Finished)
  /\ trace (run (without_spurious evs)) s = [].
Proof.
  revert s. induction evs as [|ev evs IH]; intros s Hpark Hstop Hloop.
  - cbn. repeat split; auto.
  - cbn [without_spurious List.filter].
    destruct (is_spurious ev) eqn:Hsp; cbn [negb]; [now apply IH|].
    fold (without_spurious evs). cbn [run]. cbv zeta.
    rewrite exec_bind, trace_bind.
    destruct (step_parked ev s _ _ Hsp (step_stepped ev s) Hpark Hstop Hloop)
      as (Hp1 & Hs1 & Hl1 & Ho1 & Hc1 & ->).
    destruct (IH _ Hp1 Hs1 Hl1) as (Hp2 & Hs2 & Ho2 & Hc2 & ->).
    repeat split; auto; try congruence.
Qed.

(** C6, at the failing input: the encoder thread has parked in [pop] on the
    empty queue and the signal arrives.  The flag is set and the queue is
    left alone, but the thread is not woken: whatever the threads do
    afterwards, short of a spurious wake-up, it stays parked, [join]
    never returns and the trailer is never written. *)
Theorem C6_lost_wakeup evs :
  let s := exec (run [Encode 0 0; Sigint]) (start 0 1) in
  let s' := exec (run (without_spurious evs)) s in
  encoderThread s = Parked /\ stopRecording s = true
  /\ encoderThread s' = Parked
  /\ captureLoop s' <> Finished
  /\ trailer (outCtx s') = false.
Proof.
  intros s s'.
  assert (Hpark : encoderThread s = Parked) by (vm_compute; reflexivity).
  assert (Hstop : stopRecording s = true) by (vm_compute; reflexivity).
  assert (Hloop : captureLoop s <> Finished) by (vm_compute; discriminate).
  assert (Htrailer : trailer (outCtx s) = false) by (vm_compute; reflexivity).
  assert (Hbody : captureLoop s <> InBody) by (vm_compute; discriminate).
  subst s'. clearbody s.
  destruct (run_parked evs s Hpark Hstop Hbody) as (Hp & _ & Ho & Hc & _).
  split; [exact Hpark|]. split; [exact Hstop|]. split; [exact Hp|].
  split; [exact (Hc Hloop)|]. rewrite Ho. exact Htrailer.
Qed.
End Shutdown.

(** ** The pool *)

Section Pool.
Import Int Chrono Av Video.
Local Open Scope Z_scope.

Lemma acquire_spec s :
  match freeFrames (framePool s) with
  | [] =>
      result acquire s = None /\ exec acquire s = s
      /\ trace acquire s = [Acquire None]
  | f :: rest =>
      result acquire s = Some f
      /\ exec acquire s = set_framePool (mkFramePool rest) s
      /\ trace acquire s = [Acquire (Some f)]
  end.
Proof.
  unfold acquire. msimpl.
  destruct (freeFrames (framePool s)); repeat split.
Qed.

Lemma set_pts_erase c k (m : gmap nat AVFrame) :
  set_pts 0 <$> alter (set_pts c) k m = set_pts 0 <$> m.
Proof.
  apply map_eq. intros j. rewrite !lookup_fmap.
  destruct (decide (k = j)) as [->|Hne].
  - rewrite lookup_alter_eq. now destruct (m !! j).
  - now rewrite lookup_alter_ne.
Qed.

Lemma shape_alter (g : AVFrame -> AVFrame) k (m : gmap nat AVFrame) :
  (forall f, shape (g f) = shape f) ->
  shape <$> alter g k m = shape <$> m.
Proof.
  intros Hg. apply map_eq. intros j. rewrite !lookup_fmap.
  destruct (decide (k = j)) as [->|Hne].
  - rewrite lookup_alter_eq. destruct (m !! j); cbn; [|reflexivity].
    now rewrite Hg.
  - now rewrite lookup_alter_ne.
Qed.

Lemma shape_writable sh f s :
  shape <$> writable_frames sh f s = shape <$> frames s.
Proof.
  destruct sh; [|reflexivity]. cbn [writable_frames].
  apply shape_alter. reflexivity.
Qed.

(** In a step in which [av_frame_make_writable] finds nothing shared,
    nothing is allocated and no frame object changes but for its pts. *)
Lemma step_heap ev s s' t :
  unshared ev -> stepped ev s s' t ->
  brk s' = brk s /\ set_pts 0 <$> frames s' = set_pts 0 <$> frames s.
Proof.
  intros Hun H. step_cases H; cbn [unshared] in Hun; try contradiction;
    cbn; rewrite ?set_pts_erase; split; congruence.
Qed.

Lemma run_heap evs s :
  Forall unshared evs ->
  brk (exec (run evs) s) = brk s
  /\ set_pts 0 <$> frames (exec (run evs) s) = set_pts 0 <$> frames s.
Proof.
  revert s.
  apply (run_invariant_on unshared (fun s s' _ =>
           brk s' = brk s /\ set_pts 0 <$> frames s' = set_pts 0 <$> frames s)).
  - intros; split; reflexivity.
  - intros s1 s2 s3 _ _ [H1 H2] [H3 H4]. split; congruence.
  - intros ev s0 s' t. apply step_heap.
Qed.

(** Whatever a step does, the allocator only moves forward, and every
    frame object keeps its format and its size. *)
Lemma step_shape ev s s' t :
  stepped ev s s' t ->
  (brk s <= brk s')%nat /\ shape <$> frames s' = shape <$> frames s.
Proof.
  intros H. step_cases H; cbn;
    rewrite ?(shape_alter (set_pts _)) by reflexivity;
    rewrite ?shape_writable;
    repeat match goal with
           | Hf : frames _ = frames _ |- _ => rewrite Hf
           | Hb : brk _ = brk _ |- _ => rewrite Hb
           end;
    split; try reflexivity; try lia;
    unfold writable_brk; destruct sh; lia.
Qed.

Lemma run_shape evs s :
  (brk s <= brk (exec (run evs) s))%nat
  /\ shape <$> frames (exec (run evs) s) = shape <$> frames s.
Proof.
  apply (run_invariant (fun s s' _ =>
           (brk s <= brk s')%nat /\ shape <$> frames s' = shape <$> frames s)).
  - intros; split; [lia | reflexivity].
  - intros s1 s2 s3 _ _ [H1 H2] [H3 H4]. split; [lia | congruence].
  - intros ev s0 s' t. apply step_shape.
Qed.

(** Frames only move between the pool and the queue; one leaves both only
    when [avcodec_send_frame] fails. *)
Lemma step_owned ev s s' t :
  stepped ev s s' t ->
  owned s' ⊆+ owned s
  /\ Forall (fun f => f ∈ owned s) (acquired t)
  /\ Forall (fun f => f ∈ owned s) (released t)
  /\ (Forall (fun o => forall f rc, o = SendFrame f rc -> 0 <= rc) t ->
      owned s' ≡ₚ owned s).
Proof.
  intros H. unfold owned.
  step_cases H; trace_simpl; cbn;
    repeat match goal with
           | H : frameQueue ?sp = frameQueue _ |- _ => rewrite H
           | H : framePool ?sp = framePool _ |- _ => rewrite H
           | H : freeFrames _ = _ |- _ => rewrite H
           | H : q _ = _ |- _ => rewrite H
           end; cbn [map app].
  all: try (split; [reflexivity|]; split; [constructor|];
            split; [constructor|]; reflexivity).
  - (* sws_scale failed *)
    assert (Hperm : (rest ++ [f]) ++ map frame (q (frameQueue s))
                    ≡ₚ f :: rest ++ map frame (q (frameQueue s))).
    { rewrite <- app_assoc. cbn [app]. symmetry. apply Permutation_middle. }
    split; [now apply Permutation_submseteq|].
    split; [repeat constructor|].
    split; [repeat constructor|]. intros _. exact Hperm.
  - (* pushed *)
    assert (Hperm : rest ++ map frame (q (frameQueue s)
                                       ++ [mkFrameItem f (frameCounter sp)])
                    ≡ₚ f :: rest ++ map frame (q (frameQueue s))).
    { rewrite map_app. cbn [map frame]. rewrite app_assoc.
      symmetry. apply Permutation_cons_append. }
    split; [now apply Permutation_submseteq|].
    split; [repeat constructor|].
    split; [constructor|]. intros _. exact Hperm.
  - (* avcodec_send_frame failed *)
    split; [apply submseteq_skips_l, submseteq_cons; reflexivity|].
    split; [constructor|]. split; [constructor|].
    intros Hall. inversion Hall as [|? ? _ Hrest]; subst.
    inversion Hrest as [|? ? Hsend _]; subst.
    specialize (Hsend _ _ eq_refl). lia.
  - (* sent, received and released *)
    assert (Hperm : (freeFrames (framePool s) ++ [frame item])
                      ++ map frame rest
                    ≡ₚ freeFrames (framePool s) ++ frame item :: map frame rest).
    { rewrite <- app_assoc. reflexivity. }
    split; [now apply Permutation_submseteq|].
    split; [constructor|].
    split; [|intros _; exact Hperm].
    constructor; [|constructor].
    apply elem_of_app. right. apply elem_of_cons. now left.
Qed.

Lemma run_owned evs s :
  let s' := exec (run evs) s in
  let t := trace (run evs) s in
  owned s' ⊆+ owned s
  /\ Forall (fun f => f ∈ owned s) (acquired t)
  /\ Forall (fun f => f ∈ owned s) (released t)
  /\ (Forall (fun o => forall f rc, o = SendFrame f rc -> 0 <= rc) t ->
      owned s' ≡ₚ owned s).
Proof.
  apply (run_invariant (fun s s' t =>
    owned s' ⊆+ owned s
    /\ Forall (fun f => f ∈ owned s) (acquired t)
    /\ Forall (fun f => f ∈ owned s) (released t)
    /\ (Forall (fun o => forall f rc, o = SendFrame f rc -> 0 <= rc) t ->
        owned s' ≡ₚ owned s))).
  - intros s0. split; [reflexivity|]. split; [constructor|].
    split; [constructor | reflexivity].
  - intros s1 s2 s3 t1 t2 (Hs1 & Ha1 & Hr1 & Hp1) (Hs2 & Ha2 & Hr2 & Hp2).
    split; [etransitivity; eassumption|].
    rewrite acquired_app, released_app.
    assert (Hin : forall f, f ∈ owned s2 -> f ∈ owned s1)
      by (intros f Hf; eapply elem_of_submseteq; eassumption).
    split; [|split].
    + apply Forall_app. split; [exact Ha1|].
      eapply Forall_impl; [exact Ha2 | exact Hin].
    + apply Forall_app. split; [exact Hr1|].
      eapply Forall_impl; [exact Hr2 | exact Hin].
    + intros Hall. apply Forall_app in Hall. destruct Hall as [H1 H2].
      etransitivity; [apply Hp2, H2 | apply Hp1, H1].
  - intros ev s0 s' t. apply step_owned.
Qed.

(** The constructor: [n] frames at fresh addresses, queued in the order of
    their allocation. *)
Lemma FramePool_loop_pool n w h p s :
  let s' := exec (FramePool_loop n w h p) s in
  freeFrames (framePool s') = freeFrames (framePool s) ++ frame_addrs (brk s) n
  /\ brk s' = (brk s + 2 * n)%nat
  /\ (forall k, (k < brk s)%nat -> frames s' !! k = frames s !! k)
  /\ Forall (fun a =>
               frames s' !! a
               = Some (mkAVFrame p w h AV_NOPTS_VALUE (Some (S a))))
       (frame_addrs (brk s) n).
Proof.
  revert s. induction n as [|n IH]; intros s.
  - cbn. rewrite app_nil_r. repeat split; [lia | constructor].
  - cbn [FramePool_loop frame_addrs]. cbv zeta.
    rewrite !exec_bind.
    set (s4 := exec (modify _) _).
    assert (Hfree4 : freeFrames (framePool s4)
                     = freeFrames (framePool s) ++ [brk s]) by reflexivity.
    assert (Hbrk4 : brk s4 = S (S (brk s))) by reflexivity.
    assert (Hold4 : forall k, (k < brk s)%nat -> frames s4 !! k = frames s !! k).
    { intros k Hk. subst s4. unfold av_frame_get_buffer, update_frame,
        av_frame_alloc. msimpl. cbn.
      rewrite !lookup_alter_ne by lia. now rewrite lookup_insert_ne by lia. }
    assert (Hnew4 : frames s4 !! brk s
                    = Some (mkAVFrame p w h AV_NOPTS_VALUE (Some (S (brk s))))).
    { subst s4. unfold av_frame_get_buffer, update_frame, av_frame_alloc.
      msimpl. cbn.
      rewrite !lookup_alter_eq, lookup_insert_eq. reflexivity. }
    specialize (IH s4). cbv zeta in IH.
    destruct IH as (Hfree & Hbrk & Hold & Hnew).
    rewrite Hfree, Hbrk, Hfree4, Hbrk4 in *.
    split; [now rewrite <- app_assoc|].
    split; [lia|].
    split.
    + intros k Hk. rewrite Hold by lia. now apply Hold4.
    + constructor; [|exact Hnew].
      rewrite Hold by lia. exact Hnew4.
Qed.

Lemma frame_addrs_ge b n a : a ∈ frame_addrs b n -> (b <= a)%nat.
Proof.
  revert b. induction n as [|n IH]; intros b; cbn.
  - intros H. inversion H.
  - intros H. apply elem_of_cons in H. destruct H as [->|H]; [lia|].
    apply IH in H. lia.
Qed.

Lemma frame_addrs_NoDup b n : NoDup (frame_addrs b n).
Proof.
  revert b. induction n as [|n IH]; intros b; cbn; constructor.
  - intros H. apply frame_addrs_ge in H. lia.
  - apply IH.
Qed.

Lemma length_frame_addrs b n : length (frame_addrs b n) = n.
Proof. revert b. induction n as [|n IH]; intros b; cbn; auto. Qed.

Lemma start_with_pool size t0 la :
  let s0 := start_with size t0 la in
  freeFrames (framePool s0) = frame_addrs 1 (Z.to_nat size)
  /\ brk s0 = (1 + 2 * Z.to_nat size)%nat
  /\ Forall (fun a =>
               frames s0 !! a
               = Some (mkAVFrame AV_PIX_FMT_YUV420P width height
                         AV_NOPTS_VALUE (Some (S a))))
       (freeFrames (framePool s0)).
Proof.
  unfold start_with, FramePool_ctor. cbv zeta. rewrite exec_bind.
  set (b := exec (modify _) (boot t0 la)).
  destruct (FramePool_loop_pool (Z.to_nat size) width height
              AV_PIX_FMT_YUV420P b) as (Hfree & Hbrk & _ & Hnew).
  rewrite Hfree, Hbrk. cbn [app]. repeat split. exact Hnew.
Qed.

(** C7, as amended: the pool built with [size] buffers holds [size]
    distinct frame objects; along every schedule each frame returned by
    [acquire] is one of them, [acquire] on an empty free queue returns the
    null pointer and leaves the state as it is, the frames in the pool and
    in the queue never exceed those of the construction, and every frame
    object keeps its format and its size.  The member functions of the pool
    allocate nothing: [acquire] takes the front of the free queue and
    touches nothing else, [release] sets the pts of the frame to 0, leaves
    its other members and the other frames alone and puts the same frame at
    the back of the free queue.  The pixel buffers of a frame stay those of
    the construction, and nothing is allocated after it, along the
    schedules in which [av_frame_make_writable] never finds the buffers of
    the acquired frame shared with the encoder. *)
Theorem C7_pool_stable size t0 la evs :
  let s0 := start_with size t0 la in
  let pool0 := freeFrames (framePool s0) in
  let s := exec (run evs) s0 in
  let t := trace (run evs) s0 in
  (length pool0 = Z.to_nat size /\ NoDup pool0
   /\ Forall (fun a =>
                frames s0 !! a
                = Some (mkAVFrame AV_PIX_FMT_YUV420P width height
                          AV_NOPTS_VALUE (Some (S a)))) pool0)
  /\ Forall (fun f => f ∈ pool0) (acquired t)
  /\ match freeFrames (framePool s) with
     | [] => result acquire s = None /\ exec acquire s = s
     | f :: rest =>
         result acquire s = Some f /\ f ∈ pool0
         /\ exec acquire s = set_framePool (mkFramePool rest) s
     end
  /\ owned s ⊆+ pool0
  /\ (length (freeFrames (framePool s)) <= Z.to_nat size)%nat
  /\ (brk s0 <= brk s)%nat
  /\ Forall (fun a =>
               exists fr,
                 frames s !! a = Some fr
                 /\ shape fr = (AV_PIX_FMT_YUV420P, width, height)) pool0
  /\ (Forall unshared evs ->
      brk s = brk s0
      /\ set_pts 0 <$> frames s = set_pts 0 <$> frames s0
      /\ Forall (fun a =>
                   exists fr,
                     frames s !! a = Some fr /\ data fr = Some (S a)) pool0)
  /\ (forall f,
        freeFrames (framePool (exec (release f) s))
        = freeFrames (framePool s) ++ [f]
        /\ brk (exec (release f) s) = brk s
        /\ (forall fr,
              frames s !! f = Some fr ->
              frames (exec (release f) s) !! f
              = Some (mkAVFrame (format fr) (Av.width fr) (Av.height fr) 0
                        (data fr)))
        /\ (forall g, g <> f ->
              frames (exec (release f) s) !! g = frames s !! g)).
Proof.
  intros s0 pool0 s t.
  destruct (start_with_pool size t0 la) as (Hpool & _ & Hheap).
  destruct (start_with_fields size t0 la) as (_ & Hq0 & _).
  fold s0 in Hpool, Hheap, Hq0. fold pool0 in Hpool, Hheap.
  assert (Howned0 : owned s0 = pool0).
  { unfold owned. rewrite Hq0. cbn [map]. now rewrite app_nil_r. }
  destruct (run_owned evs s0) as (Hsub & Hacq & _ & _).
  fold s t in Hsub, Hacq. rewrite Howned0 in Hsub, Hacq.
  destruct (run_shape evs s0) as (Hbrk & Hshape). fold s in Hbrk, Hshape.
  assert (Hlen : length pool0 = Z.to_nat size)
    by (rewrite Hpool; apply length_frame_addrs).
  split.
  { split; [exact Hlen|]. split; [|exact Hheap].
    rewrite Hpool. apply frame_addrs_NoDup. }
  split; [exact Hacq|].
  split.
  { pose proof (acquire_spec s) as Ha.
    destruct (freeFrames (framePool s)) as [|f rest] eqn:Hfree.
    - destruct Ha as (Hr & He & _). split; assumption.
    - destruct Ha as (Hr & He & _). split; [exact Hr|]. split; [|exact He].
      eapply elem_of_submseteq; [|exact Hsub].
      unfold owned. rewrite Hfree. apply elem_of_app. left.
      apply elem_of_cons. now left. }
  split; [exact Hsub|].
  split.
  { apply submseteq_length in Hsub. unfold owned in Hsub.
    rewrite length_app in Hsub. lia. }
  split; [exact Hbrk|].
  split.
  { eapply Forall_impl; [exact Hheap|]. cbn beta. intros a Ha.
    assert (Hl : (shape <$> frames s) !! a = (shape <$> frames s0) !! a)
      by now rewrite Hshape.
    rewrite !lookup_fmap, Ha in Hl.
    destruct (frames s !! a) as [fr|]; [|discriminate Hl].
    exists fr. split; [reflexivity|].
    cbn [fmap option_fmap option_map] in Hl.
    injection Hl as Hf Hw Hh. unfold shape. now rewrite Hf, Hw, Hh. }
  split.
  { intros Hun. destruct (run_heap evs s0 Hun) as (Hb & Hfr).
    fold s in Hb, Hfr. split; [exact Hb|]. split; [exact Hfr|].
    eapply Forall_impl; [exact Hheap|]. cbn beta. intros a Ha.
    assert (Hl : (set_pts 0 <$> frames s) !! a
                 = (set_pts 0 <$> frames s0) !! a) by now rewrite Hfr.
    rewrite !lookup_fmap, Ha in Hl.
    destruct (frames s !! a) as [fr|]; [|discriminate Hl].
    exists fr. split; [reflexivity|].
    cbn [fmap option_fmap option_map] in Hl.
    injection Hl as _ _ _ Hd. exact Hd. }
  intros f. destruct (release_spec f s) as [-> _].
  cbn [set_framePool set_frames framePool frames brk freeFrames].
  split; [reflexivity|]. split; [reflexivity|]. split.
  - intros fr Hfr. rewrite lookup_alter_eq, Hfr. reflexivity.
  - intros g Hg. now rewrite lookup_alter_ne.
Qed.

Lemma C7_pool_stable_witness :
  let evs := [CaptureHead; Capture 0 true 720; Encode 0 0;
              CaptureHead; Capture 33000000 true 0] in
  let s := exec (run evs) (start_with 2 0 1) in
  Forall unshared evs
  /\ brk s = brk (start_with 2 0 1)
  /\ frames (exec (release 3%nat) s) !! 3%nat
     = Some (mkAVFrame AV_PIX_FMT_YUV420P width height 0 (Some 4%nat)).
Proof.
  intros evs s.
  assert (Hun : Forall unshared evs) by (repeat constructor).
  destruct (C7_pool_stable 2 0 1 evs)
    as (_ & _ & _ & _ & _ & _ & _ & Hheap & Hrel).
  fold s in Hheap, Hrel.
  split; [exact Hun|]. split; [exact (proj1 (Hheap Hun))|].
  destruct (Hrel 3%nat) as (_ & _ & Hpts & _).
  apply (Hpts (mkAVFrame AV_PIX_FMT_YUV420P width height 0 (Some 4%nat))).
  vm_compute. reflexivity.
Defined.

(** C7 as stated fails for the pixel buffers: a frame that comes back from
    [acquire] may have lost the buffers it was built with.  The encoder
    thread sends frame 1 to an encoder with a lookahead of one frame, which
    keeps it, and releases it to the pool; when the capture loop acquires
    frame 1 again, [av_frame_make_writable] finds its buffers shared with
    the encoder, allocates new ones and lets the frame point to them.  With
    a pool of one frame this is the second iteration, with the pool of 50
    frames of [main] the 51st. *)
Lemma C7_counterexample :
  (let s0 := start_with 1 0 1 in
   let evs := [CaptureHead; Capture 0 true 720; Encode 0 0; CaptureHead] in
   let s1 := exec (run evs) s0 in
   let m := step (CaptureShared 33000000 true 720) in
   buffered (codecCtx s1) = [0]
   /\ acquired (trace m s1) = [1%nat]
   /\ data <$> frames s0 !! 1%nat = Some (Some 2%nat)
   /\ data <$> frames (exec m s1) !! 1%nat = Some (Some 3%nat)
   /\ brk s0 = 3%nat /\ brk (exec m s1) = 4%nat)
  /\ (let s0 := start 0 1 in
      let evs :=
        [CaptureHead; Capture 0 true 720; Encode 0 0]
        ++ flat_map (fun k => [CaptureHead;
                               Capture (33000000 * Z.of_nat k) true 720])
             (seq 1 49)
        ++ [CaptureHead] in
      let s1 := exec (run evs) s0 in
      let m := step (CaptureShared (33000000 * 50) true 720) in
      buffered (codecCtx s1) = [0]
      /\ acquired (trace m s1) = [1%nat]
      /\ data <$> frames s0 !! 1%nat = Some (Some 2%nat)
      /\ data <$> frames (exec m s1) !! 1%nat = Some (Some 101%nat)
      /\ brk s0 = 101%nat /\ brk (exec m s1) = 102%nat).
Proof.
  split; cbv zeta; vm_compute; repeat split; reflexivity.
Qed.

(** Supporting C2: as long as [avcodec_send_frame] does not fail, every
    frame of the pool is in the free queue or in the frame queue whenever
    no thread is in the middle of an iteration. *)
Lemma no_leak_without_send_failure size t0 la evs :
  let s0 := start_with size t0 la in
  let t := trace (run evs) s0 in
  Forall (fun o => forall f rc, o = SendFrame f rc -> 0 <= rc) t ->
  owned (exec (run evs) s0) ≡ₚ freeFrames (framePool s0).
Proof.
  intros s0 t Hok.
  destruct (start_with_fields size t0 la) as (_ & Hq0 & _). fold s0 in Hq0.
  destruct (run_owned evs s0) as (_ & _ & _ & Hperm).
  rewrite (Hperm Hok). unfold owned. rewrite Hq0. cbn [map].
  now rewrite app_nil_r.
Qed.

(** C2, at the failing input: one frame is captured and queued, the
    encoder thread pops it and [avcodec_send_frame] fails.  The thread
    leaves its loop without releasing the frame: frame 1 has been acquired,
    is in neither queue, was never released, and no later step of any
    thread brings it back. *)
Theorem C2_frame_leak evs :
  let evs0 := [CaptureHead; Capture 0 true 720; Encode (-1) 0] in
  let s := exec (run evs0) (start 0 1) in
  let t := trace (run evs0) (start 0 1) in
  acquired t = [1%nat]
  /\ pops t = [mkFrameItem 1 0]
  /\ released t = []
  /\ encoderThread s = Exited
  /\ (1%nat ∉ owned s)
  /\ (1%nat ∉ owned (exec (run evs) s)).
Proof.
  intros evs0 s t.
  assert (Hnot : 1%nat ∉ owned s).
  { apply (bool_decide_unpack _). vm_compute. exact I. }
  split; [vm_compute; reflexivity|].
  split; [vm_compute; reflexivity|].
  split; [vm_compute; reflexivity|].
  split; [vm_compute; reflexivity|].
  split; [exact Hnot|].
  clearbody s. intros Hin. apply Hnot.
  destruct (run_owned evs s) as (Hsub & _).
  eapply elem_of_submseteq; eassumption.
Qed.
End Pool.


(** ** The encoder thread: failures and the flush *)

Section EncoderThread.
Import Int Chrono Av Video.
Local Open Scope Z_scope.

(** Once the thread function has returned nothing is popped or sent. *)
Lemma step_exited ev s s' t :
  stepped ev s s' t ->
  encoderThread s = Exited ->
  encoderThread s' = Exited /\ pops t = []
  /\ Forall (fun o => forall f rc, o <> SendFrame f rc) t.
Proof.
  intros H Hex.
  step_cases H; try (unfold runnable in *; intuition congruence);
    trace_simpl; cbn; rewrite ?Hex;
    repeat split; try reflexivity;
    repeat (apply Forall_app; split); try assumption;
    repeat constructor; try discriminate; try congruence.
Qed.

Lemma run_exited evs s :
  encoderThread s = Exited ->
  encoderThread (exec (run evs) s) = Exited
  /\ pops (trace (run evs) s) = []
  /\ Forall (fun o => forall f rc, o <> SendFrame f rc) (trace (run evs) s).
Proof.
  apply (run_invariant (fun s s' t =>
    encoderThread s = Exited ->
    encoderThread s' = Exited /\ pops t = []
    /\ Forall (fun o => forall f rc, o <> SendFrame f rc) t)).
  - intros s0 H. repeat split; [exact H | constructor].
  - intros s1 s2 s3 t1 t2 H12 H23 H1.
    destruct (H12 H1) as (H2 & Hp1 & Hf1).
    destruct (H23 H2) as (H3 & Hp2 & Hf2).
    rewrite pops_app, Hp1, Hp2.
    repeat split; [exact H3|]. apply Forall_app. now split.
  - intros ev s0 s' t. apply step_exited.
Qed.

(** The encoder is never put in draining mode: no step sends the null
    frame. *)
Lemma no_send_weaken t :
  Forall (fun o => forall f rc, o <> SendFrame f rc) t ->
  Forall (fun o => forall rc, o <> SendFrame None rc) t.
Proof. intros H. eapply Forall_impl; [exact H|]. intros o Ho rc. apply Ho. Qed.

Lemma step_never_drains ev s s' t :
  stepped ev s s' t ->
  draining (codecCtx s') = draining (codecCtx s)
  /\ lookahead (codecCtx s') = lookahead (codecCtx s)
  /\ Forall (fun o => forall rc, o <> SendFrame None rc) t.
Proof.
  intros H.
  step_cases H;
    repeat match goal with
           | Hm : codec_moved _ _ _ _ |- _ =>
               destruct Hm as (_ & ? & ? & _)
           end;
    cbn; repeat split; try congruence;
    repeat (apply Forall_app; split);
    repeat (apply List.Forall_cons; [intros ? ?; discriminate|]);
    try apply List.Forall_nil;
    try (apply no_send_weaken; assumption).
  all: repeat (apply Forall_app; split);
    repeat (apply List.Forall_cons; [intros ? ?; discriminate|]);
    try apply List.Forall_nil;
    try (apply no_send_weaken; assumption).
Qed.

Lemma run_never_drains evs s :
  draining (codecCtx (exec (run evs) s)) = draining (codecCtx s)
  /\ lookahead (codecCtx (exec (run evs) s)) = lookahead (codecCtx s)
  /\ Forall (fun o => forall rc, o <> SendFrame None rc) (trace (run evs) s).
Proof.
  apply (run_invariant (fun s s' t =>
    draining (codecCtx s') = draining (codecCtx s)
    /\ lookahead (codecCtx s') = lookahead (codecCtx s)
    /\ Forall (fun o => forall rc, o <> SendFrame None rc) t)).
  - intros s0. repeat split. constructor.
  - intros s1 s2 s3 t1 t2 (H1 & H2 & H3) (H4 & H5 & H6).
    repeat split; try congruence. apply Forall_app. now split.
  - intros ev s0 s' t. apply step_never_drains.
Qed.

(** The parts of C6 that hold: after the signal the encoder thread, when it
    runs, takes every queued frame in order, hands it to the encoder and
    releases it, then finds the end of the stream and leaves. *)
Lemma encoder_step_sent send_rc write_rc s item rest :
  runnable s ->
  q (frameQueue s) = item :: rest ->
  draining (codecCtx s) = false ->
  0 <= send_rc ->
  let m := encoder_step send_rc write_rc in
  encoderThread (exec m s) = AtLoopHead
  /\ q (frameQueue (exec m s)) = rest
  /\ draining (codecCtx (exec m s)) = false
  /\ stopRecording (exec m s) = stopRecording s
  /\ pops (trace m s) = [item]
  /\ released (trace m s) = [frame item].
Proof.
  intros Hrun Hq Hdr Hsend m.
  pose proof (encoder_step_encoded send_rc write_rc s) as H. fold m in H.
  remember (exec m s) as s' eqn:Hs'. remember (trace m s) as t eqn:Ht.
  clear Hs' Ht m.
  destruct H as [Hidle|_ Hq0 _|_ Hq0 _|c o tw _ Hq0 _ _
                |item' rest' rc c o tw _ Hq' Hrc Hneg Hpos Hmoved
                |item' rest' c o tw _ Hq' _ _ Hmoved];
    try (unfold runnable in Hrun; intuition congruence); try congruence.
  rewrite Hq in Hq'. injection Hq' as <- <-.
  destruct (moved_trace _ _ _ _ Hmoved) as (_ & Hp & _ & Hr & _).
  destruct Hmoved as (_ & Hd & _).
  trace_simpl. cbn. repeat split; congruence.
Qed.

Lemma drain_queue items :
  forall s,
    runnable s -> q (frameQueue s) = items ->
    draining (codecCtx s) = false ->
    let evs := repeat (Encode 0 0) (length items) in
    let s' := exec (run evs) s in
    pops (trace (run evs) s) = items
    /\ released (trace (run evs) s) = map frame items
    /\ q (frameQueue s') = [] /\ runnable s'
    /\ draining (codecCtx s') = false
    /\ stopRecording s' = stopRecording s.
Proof.
  induction items as [|item rest IH]; intros s Hrun Hq Hdr.
  - cbn. repeat split; assumption.
  - cbn [length repeat run]. cbv zeta.
    rewrite exec_bind, trace_bind.
    destruct (encoder_step_sent 0 0 s item rest Hrun Hq Hdr)
      as (He & Hq1 & Hd1 & Hs1 & Hp1 & Hr1); [lia|].
    cbn [step].
    set (s1 := exec (encoder_step 0 0) s) in *.
    destruct (IH s1) as (Hp & Hr & Hq2 & Hrun2 & Hd2 & Hs2);
      [left; exact He | exact Hq1 | exact Hd1 |].
    rewrite pops_app, released_app, Hp1, Hr1, Hp, Hr.
    repeat split; try assumption. congruence.
Qed.

Lemma encoder_step_exited send_rc write_rc s :
  encoderThread s = Exited ->
  exec (encoder_step send_rc write_rc) s = s
  /\ trace (encoder_step send_rc write_rc) s = [].
Proof.
  intros He. pose proof (encoder_step_spec send_rc write_rc s) as H.
  cbv zeta in H. rewrite He in H. exact H.
Qed.

Lemma encoder_step_loop_exit send_rc write_rc s :
  encoderThread s = AtLoopHead -> q (frameQueue s) = [] ->
  stopRecording s = true ->
  let m := encoder_step send_rc write_rc in
  encoderThread (exec m s) = Exited
  /\ pops (trace m s) = [] /\ released (trace m s) = [].
Proof.
  intros Hh Hq Hstop m.
  pose proof (encoder_step_encoded send_rc write_rc s) as H. fold m in H.
  remember (exec m s) as s' eqn:Hs'. remember (trace m s) as t eqn:Ht.
  clear Hs' Ht m.
  destruct H as [Hidle|_ _ Hno|Hin _ _|c o tw _ _ _ Hmoved
                |? ? ? ? ? ? _ Hq' _ _ _ _|? ? ? ? ? _ Hq' _ _ _];
    try (intuition congruence); try congruence.
  destruct (moved_trace _ _ _ _ Hmoved) as (_ & Hp & _ & Hr & _).
  repeat split; assumption.
Qed.

Lemma encoder_step_end_of_stream send_rc write_rc s :
  encoderThread s = InPop -> q (frameQueue s) = [] ->
  stopRecording s = true ->
  let m := encoder_step send_rc write_rc in
  exec m s = set_encoderThread AtLoopHead s /\ trace m s = [Pop None].
Proof.
  intros Hin Hq Hstop m.
  pose proof (encoder_step_spec send_rc write_rc s) as H. cbv zeta in H.
  rewrite Hin in H. destruct H as [He Ht]. subst m. rewrite He, Ht.
  pose proof (encoder_body_spec send_rc write_rc s) as Hb. cbv zeta in Hb.
  rewrite Hq, Hstop in Hb. exact Hb.
Qed.

Lemma end_of_stream_exit s :
  runnable s -> q (frameQueue s) = [] -> stopRecording s = true ->
  encoderThread (exec (run [Encode 0 0; Encode 0 0]) s) = Exited
  /\ pops (trace (run [Encode 0 0; Encode 0 0]) s) = []
  /\ released (trace (run [Encode 0 0; Encode 0 0]) s) = [].
Proof.
  intros Hrun Hq Hstop.
  cbn [run step]. rewrite !exec_bind, !trace_bind, exec_ret, trace_ret.
  rewrite !pops_app, !released_app.
  destruct Hrun as [Hh|Hin].
  - destruct (encoder_step_loop_exit 0 0 s Hh Hq Hstop) as (He & Hp & Hr).
    destruct (encoder_step_exited 0 0 _ He) as [He2 Ht2].
    rewrite He2, Ht2, Hp, Hr. repeat split. exact He.
  - destruct (encoder_step_end_of_stream 0 0 s Hin Hq Hstop) as [He Ht].
    rewrite He, Ht.
    destruct (encoder_step_loop_exit 0 0 (set_encoderThread AtLoopHead s))
      as (He2 & Hp & Hr); [reflexivity | exact Hq | exact Hstop |].
    rewrite Hp, Hr. repeat split. exact He2.
Qed.

(** After the signal, a runnable encoder thread drains the queue and
    leaves. *)
Lemma drains_then_exits items s :
  runnable s -> q (frameQueue s) = items ->
  draining (codecCtx s) = false -> stopRecording s = true ->
  let evs := repeat (Encode 0 0) (length items) ++ [Encode 0 0; Encode 0 0] in
  encoderThread (exec (run evs) s) = Exited
  /\ pops (trace (run evs) s) = items
  /\ released (trace (run evs) s) = map frame items.
Proof.
  intros Hrun Hq Hdr Hstop evs. subst evs.
  rewrite exec_run_app, trace_run_app.
  destruct (drain_queue items s Hrun Hq Hdr)
    as (Hp & Hr & Hq1 & Hrun1 & _ & Hs1).
  set (s1 := exec (run (repeat (Encode 0 0) (length items))) s) in *.
  destruct (end_of_stream_exit s1 Hrun1 Hq1) as (He & Hp2 & Hr2);
    [congruence|].
  rewrite pops_app, released_app, Hp, Hr, Hp2, Hr2, !app_nil_r.
  repeat split. exact He.
Qed.




(** C4, at the failing input: with an encoder that holds one frame of
    lookahead, one frame is captured, the signal arrives, both loops end
    and the trailer is written.  The loop under the comment "Flush
    encoder" only calls [avcodec_receive_packet]; the null frame that
    starts draining is never sent, so the packet of the frame is still
    inside the encoder when the trailer is written, and this holds along
    every schedule: the encoder never enters draining mode. *)
Theorem C4_flush_never_drains evs t0 la :
  let evs0 := [CaptureHead; Capture 0 true 720; Sigint; CaptureHead;
               Encode 0 0; Encode 0 0; Join] in
  let s := exec (run evs0) (start 0 1) in
  (captureLoop s = Finished /\ encoderThread s = Exited
   /\ trailer (outCtx s) = true /\ written (outCtx s) = []
   /\ buffered (codecCtx s) = [0] /\ draining (codecCtx s) = false)
  /\ draining (codecCtx (exec (run evs) (start t0 la))) = false
  /\ Forall (fun o => forall rc, o <> SendFrame None rc)
       (trace (run evs) (start t0 la)).
Proof.
  intros evs0 s. split; [vm_compute; repeat split|].
  destruct (run_never_drains evs (start t0 la)) as (Hd & _ & Hf).
  split; [|exact Hf]. rewrite Hd.
  destruct (start_with_fields 50 t0 la) as (_ & _ & _ & _ & Hc & _).
  unfold start. rewrite Hc. reflexivity.
Qed.
End EncoderThread.

(** * Further properties of the sources *)

(** ** Time stamps *)

Section StampFacts.
Import Stamp.
Local Open Scope Z_scope.

Lemma digit_inj a b :
  0 <= a <= 9 -> 0 <= b <= 9 -> digit a = digit b -> a = b.
Proof.
  intros Ha Hb H. apply (f_equal N_of_ascii) in H. unfold digit in H.
  rewrite !N_ascii_embedding in H by lia. lia.
Qed.

Ltac div_lia := Z.div_mod_to_equations; lia.

Ltac eval_digits :=
  unfold put_int, digits;
  repeat match goal with
         | |- context [?a <? 0] =>
             destruct (Z.ltb_spec a 0); [exfalso; lia|]
         | |- context [?a =? 0] =>
             destruct (Z.eqb_spec a 0); try (exfalso; div_lia)
         end.

Lemma put_int_1 n : 0 <= n <= 9 -> put_int n = [digit n].
Proof.
  intros H. eval_digits. now rewrite Z.mod_small by lia.
Qed.

Lemma put_int_2 n :
  10 <= n <= 99 -> put_int n = [digit (n / 10); digit (n mod 10)].
Proof.
  intros H. eval_digits. rewrite (Z.mod_small (n / 10)) by div_lia.
  reflexivity.
Qed.

Lemma put_int_4 n :
  1000 <= n <= 9999 ->
  put_int n = [digit (n / 1000); digit (n / 100 mod 10);
               digit (n / 10 mod 10); digit (n mod 10)].
Proof.
  intros H. eval_digits.
  replace (n / 10 / 10 / 10) with (n / 1000) by div_lia.
  replace (n / 10 / 10) with (n / 100) by div_lia.
  rewrite (Z.mod_small (n / 1000)) by div_lia. reflexivity.
Qed.

(** Within two digits the stream output with [setw(2)] and [setfill('0')]
    and the two-digit conversions of [put_time] agree. *)
Lemma put_int_w2_two_digits n :
  0 <= n <= 99 -> put_int_w2 n = two_digits n.
Proof.
  intros H. unfold put_int_w2, two_digits.
  destruct (Z_lt_le_dec n 10) as [Hlt|Hge].
  - rewrite put_int_1 by lia. cbn.
    rewrite Z.div_small, Z.mod_small by lia. reflexivity.
  - rewrite put_int_2 by lia. reflexivity.
Qed.

(** The fifteen characters of a stamp. *)
Lemma GetTimestamp_chars t :
  tm_ok t ->
  GetTimestamp t
  = put_int (tm_year t + 1900)
      ++ two_digits (tm_mon t + 1) ++ two_digits (tm_mday t)
      ++ "_"%char :: two_digits (tm_hour t) ++ two_digits (tm_min t)
      ++ two_digits (tm_sec t)
  /\ length (put_int (tm_year t + 1900)) = 4%nat.
Proof.
  intros (Hs & Hm & Hh & Hd & Hmo & Hy). unfold GetTimestamp.
  rewrite !put_int_w2_two_digits by lia.
  split; [reflexivity|]. now rewrite put_int_4 by lia.
Qed.

Lemma put_time_GetTimestamp t :
  tm_ok t ->
  put_time t (list_ascii_of_string "%Y%m%d_%H%M%S") = GetTimestamp t.
Proof.
  intros Hok. destruct (GetTimestamp_chars t Hok) as [Hc _].
  rewrite Hc. cbn. rewrite <- ?app_assoc. reflexivity.
Qed.

(** X1: for a local time with a four-digit year, [GetTimestamp] yields
    fifteen characters, the date, an underscore and the time of day, and
    [std::put_time] with ["%Y%m%d_%H%M%S"] yields the same characters: the
    audio file and the video file of one second carry one stamp. *)
Theorem stamp_layout t :
  tm_ok t ->
  length (GetTimestamp t) = 15%nat
  /\ nth 8 (GetTimestamp t) " "%char = "_"%char
  /\ put_time t (list_ascii_of_string "%Y%m%d_%H%M%S") = GetTimestamp t
  /\ audio_fileName t
     = list_ascii_of_string "recording_" ++ GetTimestamp t
         ++ list_ascii_of_string ".wav"
  /\ getTimestampedFilename t
     = list_ascii_of_string "dxgi_output_" ++ GetTimestamp t
         ++ list_ascii_of_string ".avi".
Proof.
  intros Hok. destruct (GetTimestamp_chars t Hok) as [Hc Hy].
  pose proof (put_time_GetTimestamp t Hok) as Hput.
  split; [|split; [|split; [exact Hput|split; [reflexivity|]]]].
  - rewrite Hc, length_app, Hy. reflexivity.
  - rewrite Hc. destruct Hok as (_ & _ & _ & _ & _ & Hyear).
    rewrite put_int_4 by lia. reflexivity.
  - unfold getTimestampedFilename. now rewrite Hput.
Qed.

Lemma stamp_layout_witness :
  string_of_list_ascii (getTimestampedFilename (mkTm 9 8 7 5 2 124))
  = "dxgi_output_20240305_070809.avi"%string.
Proof.
  assert (Hok : tm_ok (mkTm 9 8 7 5 2 124)) by (unfold tm_ok; cbn; lia).
  destruct (stamp_layout _ Hok) as (_ & _ & _ & _ & H).
  rewrite H. vm_compute. reflexivity.
Defined.

Lemma two_digits_inj a b :
  0 <= a <= 99 -> 0 <= b <= 99 -> two_digits a = two_digits b -> a = b.
Proof.
  intros Ha Hb H. unfold two_digits in H.
  injection H as H1 H0.
  apply digit_inj in H1; [|div_lia|div_lia].
  apply digit_inj in H0; [|div_lia|div_lia]. div_lia.
Qed.

(** X2: the stamp is injective on the broken-down local time: two values
    of [struct tm] with four-digit years that are given the same stamp, the
    same audio file name or the same video file name agree in their six
    calendar fields (second, minute, hour, day, month, year).  Nothing is
    said about instants: two instants with the same calendar fields, as an
    hour apart at the end of daylight saving time, get the same name. *)
Theorem stamp_injective t1 t2 :
  tm_ok t1 -> tm_ok t2 ->
  (GetTimestamp t1 = GetTimestamp t2 -> t1 = t2)
  /\ (audio_fileName t1 = audio_fileName t2 -> t1 = t2)
  /\ (getTimestampedFilename t1 = getTimestampedFilename t2 -> t1 = t2).
Proof.
  intros Hok1 Hok2.
  assert (Hinj : GetTimestamp t1 = GetTimestamp t2 -> t1 = t2).
  { intros H.
    destruct (GetTimestamp_chars t1 Hok1) as [Hc1 _].
    destruct (GetTimestamp_chars t2 Hok2) as [Hc2 _].
    rewrite Hc1, Hc2 in H.
    destruct Hok1 as (Hs1 & Hm1 & Hh1 & Hd1 & Hmo1 & Hy1).
    destruct Hok2 as (Hs2 & Hm2 & Hh2 & Hd2 & Hmo2 & Hy2).
    rewrite !put_int_4 in H by lia. cbn [app] in H.
    unfold two_digits in H.
    injection H as Y3 Y2 Y1 Y0 M1 M0 D1 D0 H1 H0 Mi1 Mi0 S1 S0.
    repeat match goal with
           | E : digit _ = digit _ |- _ =>
               apply digit_inj in E; [|div_lia|div_lia]
           end.
    destruct t1, t2; cbn in *. f_equal; div_lia. }
  split; [exact Hinj|]. split.
  - intros H. apply Hinj. unfold audio_fileName in H.
    apply app_inv_head in H. now apply app_inv_tail in H.
  - intros H. apply Hinj. unfold getTimestampedFilename in H.
    rewrite !put_time_GetTimestamp in H by assumption.
    apply app_inv_head in H. now apply app_inv_tail in H.
Qed.

Lemma stamp_injective_witness :
  getTimestampedFilename (mkTm 9 8 7 5 2 124)
  <> getTimestampedFilename (mkTm 10 8 7 5 2 124).
Proof.
  assert (Hok1 : tm_ok (mkTm 9 8 7 5 2 124)) by (unfold tm_ok; cbn; lia).
  assert (Hok2 : tm_ok (mkTm 10 8 7 5 2 124)) by (unfold tm_ok; cbn; lia).
  destruct (stamp_injective _ _ Hok1 Hok2) as (_ & _ & H).
  intros E. apply H in E. discriminate E.
Defined.
End StampFacts.

(** ** The audio capture loop *)

Section LoopbackFacts.
Import Int Loopback.
Local Open Scope Z_scope.

Lemma int16_range x : - 2 ^ 15 <= int16 x < 2 ^ 15.
Proof.
  unfold int16.
  pose proof (Z.mod_pos_bound (x + 2 ^ 15) (2 ^ 16)) as H. lia.
Qed.

Lemma int16_small x : - 2 ^ 15 <= x < 2 ^ 15 -> int16 x = x.
Proof. intros H. unfold int16. rewrite Z.mod_small by lia. lia. Qed.

Lemma int16_mod x : int16 (x mod 2 ^ 16) = int16 x.
Proof.
  unfold int16. f_equal.
  rewrite Z.add_mod_idemp_l by lia. reflexivity.
Qed.

Lemma sample_bytes_value s16 :
  Wav.le_value (sample_bytes s16) = s16 mod 2 ^ 16.
Proof.
  unfold sample_bytes. cbn [Wav.le_value].
  change 255 with (Z.ones 8).
  rewrite !Z.land_ones, Z.shiftr_div_pow2 by lia.
  change (2 ^ 16) with (2 ^ 8 * 2 ^ 8).
  rewrite Z.rem_mul_r by lia. lia.
Qed.

Lemma sample_bytes_range s16 :
  Forall (fun b => 0 <= b < 256) (sample_bytes s16).
Proof.
  unfold sample_bytes. change 255 with (Z.ones 8).
  rewrite !Z.land_ones by lia.
  repeat constructor;
    try (apply Z.mod_pos_bound; lia);
    apply (Z.mod_pos_bound _ (2 ^ 8)); lia.
Qed.

(** X3: the two bytes appended for a sample are bytes, low byte first, and
    read back as a little-endian signed 16-bit number they give the sample:
    the payload is 16-bit little-endian PCM as the header announces. *)
Theorem sample_bytes_round_trip x :
  let s16 := int16 x in
  length (sample_bytes s16) = 2%nat
  /\ Forall (fun b => 0 <= b < 256) (sample_bytes s16)
  /\ int16 (Wav.le_value (sample_bytes s16)) = s16
  /\ Wav.le_bytes 2 s16 = sample_bytes s16.
Proof.
  intros s16. split; [reflexivity|]. split; [apply sample_bytes_range|].
  split.
  - rewrite sample_bytes_value, int16_mod. apply int16_small, int16_range.
  - unfold sample_bytes. cbn [Wav.le_bytes]. change 255 with (Z.ones 8).
    rewrite !Z.land_ones, Z.shiftr_div_pow2 by lia. reflexivity.
Qed.

Section WithFloat.
Context {F : Type}.
Variable fabs : F -> F.
Variable fmax : F -> F -> F.
Variable exceeds_one : F -> bool.
Variable fdiv : F -> F -> F.
Variable scaled : F -> Z.

Local Abbreviation convert := (convert exceeds_one fdiv scaled).
Local Abbreviation process_packet :=
  (process_packet fabs fmax exceeds_one fdiv scaled).
Local Abbreviation inner_loop :=
  (inner_loop fabs fmax exceeds_one fdiv scaled).
Local Abbreviation capture_loop :=
  (capture_loop fabs fmax exceeds_one fdiv scaled).
Local Abbreviation record := (record fabs fmax exceeds_one fdiv scaled).

Lemma convert_appends n :
  forall i buf m (a : list Z),
    exists image,
      convert n i buf m a = a ++ image
      /\ length image = (2 * n)%nat
      /\ Forall (fun b => 0 <= b < 256) image.
Proof.
  induction n as [|n IH]; intros i buf m a; cbn [Loopback.convert].
  - exists []. rewrite app_nil_r. repeat split. constructor.
  - cbv zeta.
    set (bs := sample_bytes _).
    destruct (IH (S i) buf m (a ++ bs)) as (image & He & Hl & Hr).
    exists (bs ++ image). rewrite He, <- app_assoc.
    split; [reflexivity|]. split.
    + rewrite length_app, Hl. subst bs. cbn. lia.
    + apply Forall_app. split; [apply sample_bytes_range | exact Hr].
Qed.

(** X4: a packet only appends.  A sounding packet appends two bytes for each
    of its [numFrames * nChannels] samples; a silent packet appends
    [numFrames * nBlockAlign] zero bytes and leaves the peak alone (the
    products are taken in [UINT32]). *)
Theorem process_packet_appends nChannels nBlockAlign (p : Packet F)
    (st : Capture) :
  let st' := process_packet nChannels nBlockAlign p st in
  exists image,
    audioData st' = audioData st ++ image
    /\ Forall (fun b => 0 <= b < 256) image
    /\ (if Z.land (flags p) AUDCLNT_BUFFERFLAGS_SILENT =? 0
        then length image
             = (2 * Z.to_nat (uint32 (numFrames p * nChannels)))%nat
        else image
             = repeat 0 (Z.to_nat (uint32 (numFrames p * nBlockAlign)))
             /\ maxSample st' = maxSample st).
Proof.
  intros st'. subst st'. unfold Loopback.process_packet.
  destruct (Z.land (flags p) AUDCLNT_BUFFERFLAGS_SILENT =? 0).
  - cbn [audioData].
    destruct (convert_appends (Z.to_nat (uint32 (numFrames p * nChannels))) 0
                (fData p)
                (peak fabs fmax (Z.to_nat (uint32 (numFrames p * nChannels)))
                   0 (fData p) (maxSample st))
                (audioData st)) as (image & He & Hl & Hr).
    exists image. repeat split; assumption.
  - cbn [audioData maxSample].
    exists (repeat 0 (Z.to_nat (uint32 (numFrames p * nBlockAlign)))).
    repeat split. apply Forall_forall. intros b Hb.
    apply list_elem_of_In, repeat_spec in Hb. lia.
Qed.

(** X5: with 16-bit output a silent packet takes the room of its frames
    only when the mix format has [nBlockAlign = 2 * nChannels]: for the
    same number of frames it appends [nBlockAlign] bytes a frame where a
    sounding packet appends [2 * nChannels]. *)
Theorem silent_packet_size nChannels nBlockAlign n (buf : nat -> F)
    (st : Capture) :
  0 < n -> 0 <= nChannels -> 0 <= nBlockAlign ->
  n * nChannels < 2 ^ 32 -> n * nBlockAlign < 2 ^ 32 ->
  let sounding := process_packet nChannels nBlockAlign (mkPacket F 0 n buf) st in
  let silent :=
    process_packet nChannels nBlockAlign
      (mkPacket F AUDCLNT_BUFFERFLAGS_SILENT n buf) st in
  Z.of_nat (length (audioData sounding))
  = Z.of_nat (length (audioData st)) + n * (2 * nChannels)
  /\ Z.of_nat (length (audioData silent))
     = Z.of_nat (length (audioData st)) + n * nBlockAlign
  /\ (length (audioData silent) = length (audioData sounding)
      <-> nBlockAlign = 2 * nChannels).
Proof.
  intros Hn Hc Hb Hnc Hnb sounding silent.
  destruct (process_packet_appends nChannels nBlockAlign
              (mkPacket F 0 n buf) st) as (i1 & He1 & _ & Hl1).
  destruct (process_packet_appends nChannels nBlockAlign
              (mkPacket F AUDCLNT_BUFFERFLAGS_SILENT n buf) st)
    as (i2 & He2 & _ & Hl2).
  cbn [flags numFrames] in Hl1, Hl2.
  change (Z.land 0 AUDCLNT_BUFFERFLAGS_SILENT =? 0) with true in Hl1.
  change (Z.land AUDCLNT_BUFFERFLAGS_SILENT AUDCLNT_BUFFERFLAGS_SILENT =? 0)
    with false in Hl2.
  destruct Hl2 as [Hi2 _].
  fold sounding in He1. fold silent in He2.
  rewrite uint32_small in Hl1 by nia.
  rewrite uint32_small in Hi2 by nia.
  assert (H1 : Z.of_nat (length (audioData sounding))
               = Z.of_nat (length (audioData st)) + n * (2 * nChannels)).
  { rewrite He1, length_app, Hl1. nia. }
  assert (H2 : Z.of_nat (length (audioData silent))
               = Z.of_nat (length (audioData st)) + n * nBlockAlign).
  { rewrite He2, length_app, Hi2, repeat_length. nia. }
  split; [exact H1|]. split; [exact H2|].
  split; intros H; nia.
Qed.

Lemma inner_loop_appends nChannels nBlockAlign answers :
  forall n (st : Capture),
    exists tail,
      audioData (inner_loop nChannels nBlockAlign n answers st)
      = audioData st ++ tail
      /\ Forall (fun b => 0 <= b < 256) tail.
Proof.
  induction answers as [|r rest IH]; intros n st; cbn [Loopback.inner_loop].
  - exists []. destruct (n =? 0); rewrite app_nil_r; split; auto.
  - assert (Hnil : exists tail, audioData st = audioData st ++ tail
                     /\ Forall (fun b => 0 <= b < 256) tail)
      by (exists []; rewrite app_nil_r; split; auto).
    destruct (n =? 0); [exact Hnil|].
    destruct (buffer r) as [p|]; [|exact Hnil].
    destruct (process_packet_appends nChannels nBlockAlign p st)
      as (image & He & Hr & _).
    set (st' := process_packet nChannels nBlockAlign p st) in *.
    assert (Hone : exists tail, audioData st' = audioData st ++ tail
                     /\ Forall (fun b => 0 <= b < 256) tail)
      by (exists image; split; assumption).
    destruct (released r); [|exact Hone].
    destruct (next_size r) as [k|]; [|exact Hone].
    destruct (IH k st') as (tail & Ht & Hrt).
    exists (image ++ tail). rewrite Ht, He, <- app_assoc.
    split; [reflexivity|]. apply Forall_app. now split.
Qed.

Lemma capture_loop_tail nChannels nBlockAlign rounds :
  forall st : Capture,
    exists tail,
      audioData (capture_loop nChannels nBlockAlign rounds st)
      = audioData st ++ tail
      /\ Forall (fun b => 0 <= b < 256) tail.
Proof.
  induction rounds as [|r rest IH]; intros st; cbn [Loopback.capture_loop].
  - exists []. rewrite app_nil_r. split; auto.
  - destruct (first_size r) as [n|].
    2:{ exists []. rewrite app_nil_r. split; auto. }
    destruct (inner_loop_appends nChannels nBlockAlign (inners r) n st)
      as (t1 & H1 & Hr1).
    set (st' := inner_loop nChannels nBlockAlign n (inners r) st) in *.
    destruct (enter r); [exists t1; split; assumption|].
    destruct (IH st') as (t2 & H2 & Hr2).
    exists (t1 ++ t2). rewrite H2, H1, <- app_assoc.
    split; [reflexivity|]. apply Forall_app. now split.
Qed.

(** X6: whatever the audio client answers, and wherever its calls fail,
    the capture loop only appends bytes to what it has collected: nothing
    collected is dropped or rewritten; a failing first
    [GetNextPacketSize] and the Enter key end the loop with what has been
    collected; and the finished file is the 44-byte header followed by
    exactly the bytes collected. *)
Theorem capture_loop_appends nChannels nBlockAlign rounds (st : Capture) :
  (exists tail,
      audioData (capture_loop nChannels nBlockAlign rounds st)
      = audioData st ++ tail
      /\ Forall (fun b => 0 <= b < 256) tail)
  /\ (forall answers key,
        capture_loop nChannels nBlockAlign
          (mkRound None answers key :: rounds) st = st)
  /\ (forall n answers,
        capture_loop nChannels nBlockAlign
          (mkRound (Some n) answers true :: rounds) st
        = inner_loop nChannels nBlockAlign n answers st)
  /\ (forall zero rate,
        exists header,
          Wav.contents (record zero nChannels nBlockAlign rate rounds)
          = header
              ++ audioData (capture_loop nChannels nBlockAlign rounds
                              (mkCapture [] zero))
          /\ length header = 44%nat).
Proof.
  split; [apply capture_loop_tail|]. split; [|split].
  - reflexivity.
  - reflexivity.
  - intros zero rate. unfold Loopback.record.
    rewrite main_contents. eexists. split; [reflexivity|].
    apply length_object_bytes.
Qed.
End WithFloat.

Lemma silent_packet_size_witness :
  let process := process_packet Z.abs Z.max (fun m => 1 <? m) Z.div id 2 8 in
  length (audioData (process (mkPacket Z AUDCLNT_BUFFERFLAGS_SILENT 480
                                (fun _ => 0)) (mkCapture [] 0)))
  <> length (audioData (process (mkPacket Z 0 480 (fun _ => 0))
                          (mkCapture [] 0))).
Proof.
  intros process.
  assert (H0 : 0 < 480) by lia.
  assert (H1 : 0 <= 2) by lia.
  assert (H2 : 0 <= 8) by lia.
  assert (H3 : 480 * 2 < 2 ^ 32) by (vm_compute; reflexivity).
  assert (H4 : 480 * 8 < 2 ^ 32) by (vm_compute; reflexivity).
  destruct (silent_packet_size Z.abs Z.max (fun m => 1 <? m) Z.div id
              2 8 480 (fun _ => 0) (mkCapture [] 0) H0 H1 H2 H3 H4)
    as (_ & _ & H).
  intros E. apply H in E. lia.
Defined.
End LoopbackFacts.

(** ** The layout of the WAV header *)

Section WavLayout.
Import Int Wav.
Local Open Scope Z_scope.

(** X7: whatever the format and the payload, the finished file starts with
    the tag RIFF, carries WAVE at offset 8, the format chunk tag at 12 with
    length 16 and format 1 (PCM), the tag of the data chunk at 36 and the
    payload from offset 44 to the end; and a recording with no payload is
    the header alone, the same 44 bytes that were written before the
    capture. *)
Theorem wav_header_structure nChannels nSamplesPerSec (audioData : list Z) :
  let file := contents (main nChannels nSamplesPerSec audioData) in
  firstn 4 file = chars "RIFF"
  /\ firstn 4 (skipn 8 file) = chars "WAVE"
  /\ firstn 4 (skipn 12 file) = chars "fmt "
  /\ field 16 4 file = 16
  /\ field 20 2 file = 1
  /\ firstn 4 (skipn 36 file) = chars "data"
  /\ skipn 44 file = audioData
  /\ length file = (44 + length audioData)%nat
  /\ contents (main nChannels nSamplesPerSec [])
     = contents (WriteWAVHeader open nChannels nSamplesPerSec 16 0).
Proof.
  intros file. subst file.
  assert (Hempty : contents (main nChannels nSamplesPerSec [])
                   = contents (WriteWAVHeader open nChannels nSamplesPerSec 16 0)).
  { rewrite main_contents, app_nil_r. reflexivity. }
  rewrite main_contents.
  set (h := make_header _ _ _ _).
  assert (Hlen : length (object_bytes h) = 44%nat)
    by apply length_object_bytes.
  repeat split; exact Hempty.
Qed.
End WavLayout.

(** ** More on the frame pool, the queue and the pacing *)

Section PipelineFacts.
Import Int Chrono Av Video Pipeline.
Local Open Scope Z_scope.

Lemma submseteq_NoDup (l k : list nat) : l ⊆+ k -> NoDup k -> NoDup l.
Proof.
  intros Hsub Hk. apply submseteq_Permutation in Hsub.
  destruct Hsub as [k' Hperm]. rewrite Hperm in Hk.
  now apply NoDup_app in Hk.
Qed.

(** X8: along every schedule no frame is in the free queue and in the frame
    queue at once, or twice in either; the frames in the two queues never
    outnumber the pool, so the frame queue never holds more than [size]
    frames and at most [size] frames are pushed and not yet popped. *)
Theorem queue_bounded_by_pool size t0 la evs :
  let s := exec (run evs) (start_with size t0 la) in
  let t := trace (run evs) (start_with size t0 la) in
  NoDup (freeFrames (framePool s) ++ map frame (q (frameQueue s)))
  /\ (length (freeFrames (framePool s)) + length (q (frameQueue s))
      <= Z.to_nat size)%nat
  /\ (length (pushes t) <= length (pops t) + Z.to_nat size)%nat.
Proof.
  intros s t.
  set (s0 := start_with size t0 la) in *.
  destruct (start_with_pool size t0 la) as (Hpool & _ & _).
  destruct (start_with_fields size t0 la) as (_ & Hq0 & _).
  fold s0 in Hpool, Hq0.
  destruct (run_owned evs s0) as (Hsub & _). fold s in Hsub.
  assert (Howned0 : owned s0 = frame_addrs 1 (Z.to_nat size)).
  { unfold owned. rewrite Hq0, Hpool. cbn [map]. now rewrite app_nil_r. }
  rewrite Howned0 in Hsub.
  assert (Hlen : (length (freeFrames (framePool s))
                  + length (q (frameQueue s)) <= Z.to_nat size)%nat).
  { apply submseteq_length in Hsub. unfold owned in Hsub.
    rewrite length_app, length_map, length_frame_addrs in Hsub. exact Hsub. }
  split; [|split; [exact Hlen|]].
  - eapply submseteq_NoDup; [exact Hsub | apply frame_addrs_NoDup].
  - pose proof (run_fifo evs s0) as Hfifo. fold s t in Hfifo.
    rewrite Hq0 in Hfifo. cbn [app] in Hfifo.
    rewrite Hfifo, length_app. lia.
Qed.

(** Deadlines move by whole frame intervals. *)
Lemma step_grid ev s s' t :
  stepped ev s s' t ->
  (ms_ticks (frameInterval targetFPS) | nextFrameTime s' - nextFrameTime s).
Proof.
  assert (Hi : ms_ticks (frameInterval targetFPS) = 33000000) by reflexivity.
  assert (Hm : forall k, ms_ticks (frameInterval targetFPS * k) = 33000000 * k).
  { intros k. unfold ms_ticks. rewrite frameInterval_30.
    unfold ticks_per_ms. lia. }
  intros H. rewrite Hi.
  step_cases H;
    try match goal with
        | Hp : paced _ _ _ _ |- _ => destruct Hp
        end;
    cbn; rewrite ?Hm, ?Hi;
    try (exists 0; lia); try (exists 1; lia);
    match goal with
    | |- (_ | ?a + ?b - ?a) =>
        replace (a + b - a) with b by lia; apply Z.divide_factor_l
    end.
Qed.

(** Inside the clock range the deadline never goes back, and the counter
    never gains more than one for each interval the deadline moves. *)
Lemma step_grid_counter t0 ev s s' t :
  clock_ok t0 ev -> stepped ev s s' t ->
  t0 <= nextFrameTime s ->
  t0 <= nextFrameTime s'
  /\ ms_ticks (frameInterval targetFPS) * (frameCounter s' - frameCounter s)
     <= nextFrameTime s' - nextFrameTime s.
Proof.
  assert (Hi : ms_ticks (frameInterval targetFPS) = 33000000) by reflexivity.
  assert (Hm : forall k, ms_ticks (frameInterval targetFPS * k) = 33000000 * k).
  { intros k. unfold ms_ticks. rewrite frameInterval_30.
    unfold ticks_per_ms. lia. }
  intros Hok H Ht0. rewrite Hi.
  step_cases H; cbn [clock_ok] in Hok;
    try match goal with
        | Hp : paced _ _ _ _ |- _ =>
            destruct Hp as [Hlate|Hontime];
            [destruct (skip_at_range t0 _ _ Hlate Ht0 Hok) as (_ & Hpos & Hw)|]
        end;
    cbn; rewrite ?Hw, ?Hm, ?Hi; lia.
Qed.

(** X9: every deadline of the capture loop lies a whole number of frame
    intervals (33 ms) after the first clock reading, whatever the clock
    does; as long as every clock reading lies less than 2^31 - 1 frame
    intervals after the first one, no deadline lies before the first clock
    reading, and the frame counter, the pts the next frame will receive,
    never exceeds the number of intervals the deadline has moved: pts never
    run ahead of the deadlines. *)
Theorem deadlines_on_grid size t0 la evs :
  let s := exec (run evs) (start_with size t0 la) in
  (ms_ticks (frameInterval targetFPS) | nextFrameTime s - t0)
  /\ (clock_in_range t0 evs ->
      t0 <= nextFrameTime s
      /\ ms_ticks (frameInterval targetFPS) * frameCounter s
         <= nextFrameTime s - t0).
Proof.
  intros s.
  destruct (start_with_fields size t0 la) as (_ & Hq0 & Hc0 & Ht0 & _).
  set (s0 := start_with size t0 la) in *.
  split.
  - rewrite <- Ht0. subst s. generalize s0. clear. intros s0.
    apply (run_invariant (fun s s' _ =>
      (ms_ticks (frameInterval targetFPS)
       | nextFrameTime s' - nextFrameTime s))).
    + intros s. exists 0; lia.
    + intros s1 s2 s3 t1 t2 Hd1 Hd2.
      replace (nextFrameTime s3 - nextFrameTime s1)
        with ((nextFrameTime s3 - nextFrameTime s2)
              + (nextFrameTime s2 - nextFrameTime s1)) by lia.
      now apply Z.divide_add_r.
    + apply step_grid.
  - intros Hclock.
    assert (Hinv :
      t0 <= nextFrameTime s0 ->
      t0 <= nextFrameTime s
      /\ ms_ticks (frameInterval targetFPS)
         * (frameCounter s - frameCounter s0)
         <= nextFrameTime s - nextFrameTime s0).
    { subst s. revert Hclock. generalize s0. clear. intros s0 Hclock.
      apply (run_invariant_on (clock_ok t0) (fun s s' _ =>
        t0 <= nextFrameTime s ->
        t0 <= nextFrameTime s'
        /\ ms_ticks (frameInterval targetFPS)
           * (frameCounter s' - frameCounter s)
           <= nextFrameTime s' - nextFrameTime s)); [| | |exact Hclock].
      - intros s Hs. split; lia.
      - intros s1 s2 s3 t1 t2 H12 H23 H1.
        destruct (H12 H1) as (H2 & Hc1). destruct (H23 H2) as (H3 & Hc2).
        split; lia.
      - intros ev s s' t Hok Hst.
        exact (step_grid_counter t0 ev s s' t Hok Hst). }
    rewrite Hc0, Ht0 in Hinv. rewrite Z.sub_0_r in Hinv. apply Hinv. lia.
Qed.

Lemma deadlines_on_grid_witness :
  let evs := [CaptureHead; Capture 0 true 720;
              CaptureHead; Capture 100000000 true 720] in
  let s := exec (run evs) (start 0 1) in
  clock_in_range 0 evs
  /\ ms_ticks (frameInterval targetFPS) * frameCounter s
     <= nextFrameTime s - 0.
Proof.
  intros evs s.
  assert (Hclock : clock_in_range 0 evs).
  { repeat constructor; vm_compute; reflexivity. }
  split; [exact Hclock|].
  exact (proj2 (proj2 (deadlines_on_grid 50 0 1 evs) Hclock)).
Defined.

Lemma alter_pts_other (m : gmap nat AVFrame) f g c :
  g <> f -> alter (set_pts c) f m !! g = m !! g.
Proof. intros Hne. now apply lookup_alter_ne. Qed.

Lemma alter_pts_same (m : gmap nat AVFrame) f c :
  is_Some (m !! f) -> Av.pts <$> alter (set_pts c) f m !! f = Some c.
Proof.
  intros [fr Hfr]. rewrite lookup_alter_eq, Hfr. reflexivity.
Qed.

Lemma alter_pts_is_Some (m : gmap nat AVFrame) f g c :
  is_Some (alter (set_pts c) f m !! g) <-> is_Some (m !! g).
Proof.
  destruct (decide (g = f)) as [->|Hne].
  - rewrite lookup_alter_eq. destruct (m !! f); cbn; split; intros [x Hx];
      try discriminate; eauto.
  - now rewrite lookup_alter_ne.
Qed.

Lemma stamped_alter (m : gmap nat AVFrame) f c items :
  f ∉ map frame items ->
  Forall (fun item => Av.pts <$> m !! frame item = Some (pts item)) items ->
  Forall (fun item =>
            Av.pts <$> alter (set_pts c) f m !! frame item
            = Some (pts item)) items.
Proof.
  intros Hnot Hall. induction Hall as [|item items Hitem Hall IH].
  - constructor.
  - cbn [map] in Hnot. apply not_elem_of_cons in Hnot as [Hne Hnot].
    constructor; [|now apply IH].
    rewrite lookup_alter_ne by congruence. exact Hitem.
Qed.

(** [av_frame_make_writable] on one frame leaves the other frames alone,
    and the frame itself allocated. *)
Lemma writable_other sh f g s :
  g <> f -> writable_frames sh f s !! g = frames s !! g.
Proof.
  intros Hne. destruct sh; [|reflexivity]. cbn [writable_frames].
  now apply lookup_alter_ne.
Qed.

Lemma writable_is_Some sh f s :
  is_Some (frames s !! f) -> is_Some (writable_frames sh f s !! f).
Proof.
  intros [fr Hfr]. destruct sh; cbn [writable_frames]; [|eauto].
  rewrite lookup_alter_eq, Hfr. cbn. eauto.
Qed.

Lemma stamped_writable sh s f items :
  f ∉ map frame items ->
  Forall (fun item => Av.pts <$> frames s !! frame item = Some (pts item))
    items ->
  Forall (fun item =>
            Av.pts <$> writable_frames sh f s !! frame item
            = Some (pts item)) items.
Proof.
  intros Hnot Hall. induction Hall as [|item items Hitem Hall IH].
  - constructor.
  - cbn [map] in Hnot. apply not_elem_of_cons in Hnot as [Hne Hnot].
    constructor; [|now apply IH].
    rewrite writable_other by congruence. exact Hitem.
Qed.

Lemma same_shape_is_Some (m m' : gmap nat AVFrame) f :
  shape <$> m' = shape <$> m -> is_Some (m !! f) -> is_Some (m' !! f).
Proof.
  intros Heq Hf.
  assert (H : is_Some ((shape <$> m') !! f)).
  { rewrite Heq, lookup_fmap. now apply fmap_is_Some. }
  rewrite lookup_fmap in H. now apply fmap_is_Some in H.
Qed.

Lemma step_well_formed ev s s' t :
  stepped ev s s' t -> well_formed s -> well_formed s'.
Proof.
  intros H (Hnd & Hal & Hst).
  pose proof (step_owned ev s s' t H) as (Hsub & _).
  pose proof (step_shape ev s s' t H) as (_ & Hheap).
  split; [eapply submseteq_NoDup; eauto|].
  split.
  { rewrite Forall_forall in Hal. apply Forall_forall. intros f Hf.
    eapply same_shape_is_Some; [exact Hheap|].
    apply Hal. eapply elem_of_submseteq; eauto. }
  clear Hsub Hheap.
  unfold stamped, owned in *.
  step_cases H; cbn in *; rewrite ?Hf2, ?Hf3, ?Hf4 in *; try exact Hst.
  - (* the conversion failed: the frame goes back to the pool *)
    rewrite H2 in Hnd. cbn in Hnd. apply NoDup_cons in Hnd as [Hnot _].
    assert (Hq : f ∉ map frame (q (frameQueue s)))
      by (intros Hin; apply Hnot, elem_of_app; now right).
    apply stamped_alter; [exact Hq|]. now apply stamped_writable.
  - (* a frame is pushed *)
    rewrite H2 in Hnd, Hal. cbn in Hnd, Hal.
    apply NoDup_cons in Hnd as [Hnot _].
    apply Forall_cons in Hal as [Hf _].
    assert (Hq : f ∉ map frame (q (frameQueue s)))
      by (intros Hin; apply Hnot, elem_of_app; now right).
    apply Forall_app. split.
    + apply stamped_alter; [exact Hq|]. now apply stamped_writable.
    + constructor; [|constructor]. cbn.
      apply alter_pts_same. now apply writable_is_Some.
  - (* the send failed *)
    rewrite H0 in Hst. now apply Forall_cons in Hst as [_ Hst].
  - (* a frame was sent and goes back to the pool *)
    rewrite H0 in Hst, Hnd. apply Forall_cons in Hst as [_ Hst].
    apply stamped_alter; [|exact Hst].
    cbn in Hnd. apply NoDup_app in Hnd as (_ & _ & Hnd).
    now apply NoDup_cons in Hnd as [Hnot _].
Qed.

Lemma run_well_formed evs s :
  well_formed s -> well_formed (exec (run evs) s).
Proof.
  revert s.
  apply (run_invariant (fun s s' _ => well_formed s -> well_formed s')).
  - auto.
  - auto.
  - apply step_well_formed.
Qed.

Lemma start_well_formed size t0 la : well_formed (start_with size t0 la).
Proof.
  destruct (start_with_pool size t0 la) as (Hpool & _ & Hheap).
  destruct (start_with_fields size t0 la) as (_ & Hq0 & _).
  unfold well_formed, stamped, owned. rewrite Hq0. cbn [map].
  rewrite app_nil_r. split; [|split; [|constructor]].
  - rewrite Hpool. apply frame_addrs_NoDup.
  - eapply Forall_impl; [exact Hheap|]. cbn. intros a Ha. rewrite Ha. eauto.
Qed.

(** A frame object that has pixel buffers keeps having some: [release] and
    the pts assignment leave them alone, [av_frame_make_writable] replaces
    them at most. *)
Lemma alter_buffers (g : AVFrame -> AVFrame) f (m : gmap nat AVFrame) a :
  (forall fr, is_Some (data fr) -> is_Some (data (g fr))) ->
  (exists fr, m !! a = Some fr /\ is_Some (data fr)) ->
  exists fr, alter g f m !! a = Some fr /\ is_Some (data fr).
Proof.
  intros Hg (fr & Hfr & Hd).
  destruct (decide (f = a)) as [->|Hne].
  - exists (g fr). rewrite lookup_alter_eq, Hfr. split; [reflexivity|].
    now apply Hg.
  - exists fr. now rewrite lookup_alter_ne.
Qed.

Lemma writable_buffers sh f s a :
  (exists fr, frames s !! a = Some fr /\ is_Some (data fr)) ->
  exists fr, writable_frames sh f s !! a = Some fr /\ is_Some (data fr).
Proof.
  intros H. destruct sh; cbn [writable_frames]; [|exact H].
  apply alter_buffers; [|exact H]. intros fr _. cbn. eauto.
Qed.

Lemma step_buffers ev s s' t a :
  stepped ev s s' t -> has_buffers s a -> has_buffers s' a.
Proof.
  unfold has_buffers. intros H Ha.
  step_cases H; cbn; rewrite ?Hf4; try exact Ha;
    try (apply alter_buffers; [intros fr Hd; exact Hd|]);
    try apply writable_buffers; exact Ha.
Qed.

Lemma run_buffers evs s a :
  has_buffers s a -> has_buffers (exec (run evs) s) a.
Proof.
  revert s.
  apply (run_invariant (fun s s' _ => has_buffers s a -> has_buffers s' a)).
  - auto.
  - auto.
  - intros ev s s' t H. exact (step_buffers ev s s' t a H).
Qed.

(** X10: along every schedule, the frame object of every queued item is one
    of the frames built by the constructor of the pool, with its format and
    its size as built and with pixel buffers, and its pts field holds the
    pts of the item: nothing writes to a frame while it waits in the queue.
    The buffers are those of the construction along the schedules in which
    [av_frame_make_writable] never finds the buffers of the acquired frame
    shared with the encoder. *)
Theorem queued_frames_stamped size t0 la evs :
  let s0 := start_with size t0 la in
  let s := exec (run evs) s0 in
  Forall (fun item =>
            frame item ∈ freeFrames (framePool s0)
            /\ exists buf,
                 frames s !! frame item
                 = Some (mkAVFrame AV_PIX_FMT_YUV420P width height (pts item)
                           (Some buf)))
    (q (frameQueue s))
  /\ (Forall unshared evs ->
      Forall (fun item =>
                frames s !! frame item
                = Some (mkAVFrame AV_PIX_FMT_YUV420P width height (pts item)
                          (Some (S (frame item)))))
        (q (frameQueue s))).
Proof.
  intros s0 s.
  destruct (run_well_formed evs s0 (start_well_formed size t0 la))
    as (_ & _ & Hst). fold s in Hst.
  destruct (start_with_pool size t0 la) as (Hpool & _ & Hheap).
  destruct (start_with_fields size t0 la) as (_ & Hq0 & _).
  fold s0 in Hpool, Hheap, Hq0.
  destruct (run_owned evs s0) as (Hsub & _). fold s in Hsub.
  destruct (run_shape evs s0) as (_ & Hshape). fold s in Hshape.
  unfold stamped in Hst.
  pose proof (proj1 (Forall_forall _ _) Hst) as Hst'.
  pose proof (proj1 (Forall_forall _ _) Hheap) as Hheap'.
  clear Hst Hheap. rename Hst' into Hst, Hheap' into Hheap.
  assert (Hin : forall item, item ∈ q (frameQueue s) ->
                  frame item ∈ freeFrames (framePool s0)).
  { intros item Hitem.
    assert (Ho : frame item ∈ owned s).
    { unfold owned. apply elem_of_app. right.
      now apply (list_elem_of_fmap_2 frame). }
    eapply elem_of_submseteq in Ho; [|exact Hsub].
    unfold owned in Ho. rewrite Hq0 in Ho. cbn [map] in Ho.
    now rewrite app_nil_r in Ho. }
  split.
  - apply Forall_forall. intros item Hitem.
    specialize (Hin _ Hitem). split; [exact Hin|].
    specialize (Hheap _ Hin). specialize (Hst _ Hitem).
    cbv beta in Hheap, Hst.
    assert (Hb0 : has_buffers s0 (frame item)).
    { eexists. split; [exact Hheap|]. cbn. eauto. }
    destruct (run_buffers evs s0 _ Hb0) as (fr & Hfr & buf & Hbuf).
    fold s in Hfr.
    assert (Hl : (shape <$> frames s) !! frame item
                 = (shape <$> frames s0) !! frame item) by now rewrite Hshape.
    rewrite !lookup_fmap, Hheap, Hfr in Hl. rewrite Hfr in Hst.
    cbn [fmap option_fmap option_map] in Hl, Hst.
    injection Hl as Hf Hw Hh. injection Hst as Hp.
    exists buf. rewrite Hfr. destruct fr as [fmt w h p d].
    cbn in Hf, Hw, Hh, Hp, Hbuf. now subst.
  - intros Hun.
    destruct (run_heap evs s0 Hun) as (_ & Hfr). fold s in Hfr.
    apply Forall_forall. intros item Hitem.
    specialize (Hin _ Hitem).
    specialize (Hheap _ Hin). specialize (Hst _ Hitem).
    cbv beta in Hheap, Hst.
    assert (Hl : (set_pts 0 <$> frames s) !! frame item
                 = (set_pts 0 <$> frames s0) !! frame item) by now rewrite Hfr.
    rewrite !lookup_fmap, Hheap in Hl.
    destruct (frames s !! frame item) as [[fmt w h p d]|]; [|discriminate].
    cbn in Hst, Hl. injection Hst as ->. injection Hl as -> -> -> ->.
    reflexivity.
Qed.

Lemma queued_frames_stamped_witness :
  let evs := [CaptureHead; Capture 0 true 720;
              CaptureHead; Capture 100000000 true 720] in
  let s := exec (run evs) (start_with 2 0 1) in
  Forall unshared evs
  /\ Forall (fun item =>
               frames s !! frame item
               = Some (mkAVFrame AV_PIX_FMT_YUV420P width height (pts item)
                         (Some (S (frame item)))))
       (q (frameQueue s)).
Proof.
  intros evs s.
  assert (Hun : Forall unshared evs) by (repeat constructor).
  split; [exact Hun|].
  exact (proj2 (queued_frames_stamped 2 0 1 evs) Hun).
Defined.

Lemma attempts_app t1 t2 : attempts (t1 ++ t2) = attempts t1 ++ attempts t2.
Proof. apply omap_app. Qed.
Lemma packets_app t1 t2 : packets (t1 ++ t2) = packets t1 ++ packets t2.
Proof. apply omap_app. Qed.

Lemma packets_sublist t : packets t `sublist_of` attempts t.
Proof.
  induction t as [|o t IH]; [constructor|].
  unfold packets, attempts in *. cbn [omap list_omap].
  destruct o; cbn; try exact IH.
  destruct (rc <? 0); [now apply sublist_cons | now apply sublist_skip].
Qed.

(** The receive loop, for an encoder that is not draining: it hands over
    the packets beyond the lookahead, oldest first, and stops. *)
Lemma receive_loop_fuel_packets n w s :
  draining (codecCtx s) = false ->
  (length (held s) - lookahead (codecCtx s) <= n)%nat ->
  let k := (length (held s) - lookahead (codecCtx s))%nat in
  let s' := exec (receive_loop_fuel n w) s in
  let t := trace (receive_loop_fuel n w) s in
  held s' = drop k (held s)
  /\ attempts t = map mkAVPacket (take k (held s))
  /\ packets t = (if w <? 0 then [] else attempts t)
  /\ written (outCtx s') = written (outCtx s) ++ packets t.
Proof.
  unfold held.
  revert s. induction n as [|n IH]; intros s Hdr Hn.
  - replace (length (buffered (codecCtx s)) - lookahead (codecCtx s))%nat
      with 0%nat by lia.
    cbn. rewrite app_nil_r. destruct (w <? 0); repeat split.
  - cbn [receive_loop_fuel].
    destruct (receive_packet_cases s)
      as [(p & rest & Hb & Hd & Hr)|(Hrc & Hr & Hno)].
    + rewrite Hdr in Hd, Hr. cbn [orb] in Hd.
      apply Nat.ltb_lt in Hd. rewrite Hb in Hd. cbn [length] in Hd.
      set (s1 := set_codecCtx _ s) in Hr.
      set (s2 := exec (av_interleaved_write_frame w (mkAVPacket p)) s1).
      assert (Hexec : exec (avcodec_receive_packet ≫= λ r,
                 if fst r =? 0
                 then av_interleaved_write_frame w (snd r);;
                      receive_loop_fuel n w
                 else mret ()) s = exec (receive_loop_fuel n w) s2).
      { unfold exec at 1. unfold mbind at 1. unfold M_bind. rewrite Hr.
        reflexivity. }
      assert (Htrace : trace (avcodec_receive_packet ≫= λ r,
                 if fst r =? 0
                 then av_interleaved_write_frame w (snd r);;
                      receive_loop_fuel n w
                 else mret ()) s
               = WriteFrame (mkAVPacket p) (Z.min w 0)
                   :: trace (receive_loop_fuel n w) s2).
      { unfold trace at 1. unfold mbind at 1. unfold M_bind. rewrite Hr.
        subst s2. unfold av_interleaved_write_frame.
        destruct (w <? 0); reflexivity. }
      cbv zeta. rewrite Hexec, Htrace.
      assert (Hc2 : codecCtx s2
                    = mkAVCodecContext (lookahead (codecCtx s)) rest false).
      { subst s2 s1. unfold av_interleaved_write_frame.
        destruct (w <? 0); reflexivity. }
      assert (Hw2 : written (outCtx s2)
                    = written (outCtx s)
                      ++ (if w <? 0 then [] else [mkAVPacket p])).
      { subst s2 s1. unfold av_interleaved_write_frame.
        destruct (w <? 0); cbn; [now rewrite app_nil_r | reflexivity]. }
      specialize (IH s2). rewrite Hc2 in IH. cbn in IH.
      rewrite Hb in Hn. cbn [length] in Hn.
      destruct IH as (Hh & Ha & Hp & Hwr); [reflexivity | lia |].
      rewrite Hb. cbn [length].
      replace (S (length rest) - lookahead (codecCtx s))%nat
        with (S (length rest - lookahead (codecCtx s))) by lia.
      cbn [drop take map].
      unfold attempts, packets in *. cbn [omap list_omap].
      fold (attempts (trace (receive_loop_fuel n w) s2)) in *.
      fold (packets (trace (receive_loop_fuel n w) s2)) in *.
      rewrite Hwr, Hw2, Hp, Ha.
      assert (Hmin : (Z.min w 0 <? 0) = (w <? 0)).
      { destruct (Z.ltb_spec w 0); [apply Z.ltb_lt | apply Z.ltb_ge]; lia. }
      rewrite Hmin.
      destruct (w <? 0); cbn; rewrite ?app_nil_r, <- ?app_assoc;
        repeat split; assumption.
    + assert (Hexec : (avcodec_receive_packet ≫= λ r,
                 if fst r =? 0
                 then av_interleaved_write_frame w (snd r);;
                      receive_loop_fuel n w
                 else mret ()) s = (tt, (s, []))).
      { unfold mbind at 1. unfold M_bind.
        destruct (avcodec_receive_packet s) as [[rc pkt] [s1 t1]].
        cbn [fst snd] in *. inversion Hr; subst.
        apply Z.eqb_neq in Hrc. rewrite Hrc. reflexivity. }
      cbv zeta. unfold exec, trace. rewrite Hexec. cbn [fst snd].
      assert (Hk : (length (buffered (codecCtx s))
                    - lookahead (codecCtx s) = 0)%nat).
      { destruct Hno as [Hb|Hc]; [now rewrite Hb|].
        rewrite Hdr in Hc. cbn [orb] in Hc. apply Nat.ltb_ge in Hc. lia. }
      rewrite Hk. cbn. rewrite app_nil_r. destruct (w <? 0); repeat split.
Qed.

Lemma receive_loop_packets w s :
  draining (codecCtx s) = false ->
  let k := (length (held s) - lookahead (codecCtx s))%nat in
  let s' := exec (receive_loop w) s in
  let t := trace (receive_loop w) s in
  held s' = drop k (held s)
  /\ attempts t = map mkAVPacket (take k (held s))
  /\ packets t = (if w <? 0 then [] else attempts t)
  /\ written (outCtx s') = written (outCtx s) ++ packets t.
Proof.
  intros Hdr.
  apply (receive_loop_fuel_packets (length (buffered (codecCtx s))) w s Hdr).
  unfold held. lia.
Qed.

Lemma send_frame_held send_rc a s :
  draining (codecCtx s) = false ->
  let m := avcodec_send_frame send_rc (Some a) in
  trace m s = [SendFrame (Some a) (result m s)]
  /\ (send_rc < 0 -> result m s < 0 /\ exec m s = s)
  /\ (0 <= send_rc ->
      result m s = 0
      /\ exec m s
         = set_codecCtx
             (mkAVCodecContext (lookahead (codecCtx s))
                (held s ++ [frame_pts s a]) false) s).
Proof.
  intros Hdr m. subst m. unfold avcodec_send_frame, held. msimpl.
  rewrite Hdr.
  destruct (Z.ltb_spec send_rc 0) as [Hneg|Hpos]; cbn [fst snd app];
    repeat split; intros; try lia; try reflexivity.
Qed.

Lemma carried_idle s s' :
  codecCtx s' = codecCtx s -> outCtx s' = outCtx s ->
  (length (held s) <= lookahead (codecCtx s))%nat ->
  carried s s' [].
Proof.
  intros Hc Ho Hle. unfold carried, held. rewrite Hc, Ho. cbn.
  rewrite !app_nil_r. repeat split; auto; congruence.
Qed.

Lemma map_pkt_pts l : map pkt_pts (map mkAVPacket l) = l.
Proof. induction l as [|x l IH]; cbn; congruence. Qed.

Lemma body_carried send_rc w s :
  steady s ->
  carried s (exec (encoder_body send_rc w) s)
    (trace (encoder_body send_rc w) s).
Proof.
  intros ((_ & _ & Hst) & Hdr & Hle).
  pose proof (encoder_body_spec send_rc w s) as Hspec. cbv zeta in Hspec.
  destruct (q (frameQueue s)) as [|item rest] eqn:Hq.
  { destruct (stopRecording s); destruct Hspec as [-> ->].
    - unfold carried, held. cbn. rewrite !app_nil_r.
      repeat split; auto; congruence.
    - now apply carried_idle. }
  set (s1 := set_frameQueue (mkFrameQueue rest) s) in *.
  set (send := avcodec_send_frame send_rc (Some (frame item))) in *.
  set (s2 := exec send s1) in *.
  set (s3 := exec (receive_loop w) s2) in *.
  assert (Hdr1 : draining (codecCtx s1) = false) by exact Hdr.
  destruct (send_frame_held send_rc (frame item) s1 Hdr1)
    as (Hts & Hneg & Hpos). fold send in Hts, Hneg, Hpos.
  assert (Hpts : frame_pts s1 (frame item) = pts item).
  { unfold stamped in Hst. rewrite Hq in Hst.
    apply Forall_cons in Hst as [Hitem _].
    unfold frame_pts. subst s1. cbn.
    destruct (frames s !! frame item) as [fr|]; [|discriminate].
    cbn in *. congruence. }
  destruct (receive_loop_frame w s2) as (_ & Hquiet & Hdr3 & Hla3 & _).
  fold s3 in Hdr3, Hla3.
  apply quiet_trace in Hquiet. destruct Hquiet as (_ & Hpops & _).
  destruct (Z.ltb_spec send_rc 0) as [Hlt|Hge].
  - destruct (Hneg Hlt) as [Hrc Hs2]. fold s2 in Hs2.
    assert (Hb : (result send s1 <? 0) = true) by now apply Z.ltb_lt.
    rewrite Hb in Hspec. destruct Hspec as [-> ->].
    assert (Hdr2 : draining (codecCtx s2) = false) by now rewrite Hs2.
    destruct (receive_loop_packets w s2 Hdr2) as (Hh & Ha & Hp & Hwr).
    fold s3 in Hh, Hwr.
    assert (Hk : (length (held s2) - lookahead (codecCtx s2) = 0)%nat).
    { rewrite Hs2. unfold held in *. subst s1. cbn. lia. }
    rewrite Hk in Hh, Ha. rewrite take_0 in Ha. rewrite drop_0 in Hh.
    cbn [map] in Ha. rewrite Ha in Hp.
    assert (Hp' : packets (trace (receive_loop w) s2) = [])
      by (rewrite Hp; now destruct (w <? 0)).
    rewrite Hts.
    set (tr := trace (receive_loop w) s2) in *.
    change (Pop (Some item)
              :: [SendFrame (Some (frame item)) (result send s1)]
              ++ Cerr "Error sending frame to encoder" :: tr)
      with ([Pop (Some item); SendFrame (Some (frame item)) (result send s1);
             Cerr "Error sending frame to encoder"] ++ tr).
    unfold carried.
    rewrite !attempts_app, !packets_app, !pops_app.
    change (attempts [Pop (Some item); SendFrame _ _; Cerr _])
      with (@nil AVPacket).
    change (packets [Pop (Some item); SendFrame _ _; Cerr _])
      with (@nil AVPacket).
    change (pops [Pop (Some item); SendFrame _ _; Cerr _]) with [item].
    rewrite Ha, Hp', Hpops. cbn [map app].
    change (held (set_encoderThread Exited s3)) with (held s3).
    change (outCtx (set_encoderThread Exited s3)) with (outCtx s3).
    change (codecCtx (set_encoderThread Exited s3)) with (codecCtx s3).
    rewrite Hh, Hwr, Hp', Hla3, Hs2, app_nil_r.
    change (held s1) with (held s).
    change (codecCtx s1) with (codecCtx s).
    change (outCtx s1) with (outCtx s).
    repeat split; auto; try congruence.
    all: try (now apply prefix_app_r); try (cbn; congruence);
      try (now rewrite app_nil_r).
    intros Hok. exfalso. unfold sends_ok in Hok.
    apply Forall_cons in Hok as [_ Hok]. apply Forall_cons in Hok as [Hsend _].
    specialize (Hsend _ _ eq_refl). lia.
  - destruct (Hpos Hge) as [Hrc Hs2]. fold s2 in Hs2.
    assert (Hb : (result send s1 <? 0) = false) by (rewrite Hrc; reflexivity).
    rewrite Hb in Hspec. destruct Hspec as [-> ->].
    assert (Hdr2 : draining (codecCtx s2) = false) by now rewrite Hs2.
    destruct (receive_loop_packets w s2 Hdr2) as (Hh & Ha & Hp & Hwr).
    fold s3 in Hh, Hwr.
    rewrite Hts.
    set (tr := trace (receive_loop w) s2) in *.
    change (Pop (Some item) :: [SendFrame (Some (frame item)) (result send s1)]
              ++ tr ++ [Release (frame item)])
      with ([Pop (Some item); SendFrame (Some (frame item)) (result send s1)]
              ++ tr ++ [Release (frame item)]).
    unfold carried.
    rewrite !attempts_app, !packets_app, !pops_app.
    change (attempts [Pop (Some item); SendFrame _ _]) with (@nil AVPacket).
    change (packets [Pop (Some item); SendFrame _ _]) with (@nil AVPacket).
    change (pops [Pop (Some item); SendFrame _ _]) with [item].
    change (attempts [Release (frame item)]) with (@nil AVPacket).
    change (packets [Release (frame item)]) with (@nil AVPacket).
    change (pops [Release (frame item)]) with (@nil FrameItem).
    rewrite Hpops. cbn [app map]. rewrite !app_nil_r.
    change (held (set_encoderThread AtLoopHead
                    (exec (release (frame item)) s3))) with (held s3).
    change (outCtx (set_encoderThread AtLoopHead
                      (exec (release (frame item)) s3))) with (outCtx s3).
    change (codecCtx (set_encoderThread AtLoopHead
                        (exec (release (frame item)) s3)))
      with (codecCtx s3).
    assert (Hh2 : held s2 = held s ++ [pts item]).
    { rewrite Hs2, <- Hpts. reflexivity. }
    assert (Hl2 : lookahead (codecCtx s2) = lookahead (codecCtx s))
      by now rewrite Hs2.
    assert (Ho2 : outCtx s2 = outCtx s) by now rewrite Hs2.
    rewrite Hl2 in *. rewrite Ho2 in Hwr.
    set (k := (length (held s2) - lookahead (codecCtx s))%nat) in *.
    assert (Hsplit : map pkt_pts (attempts tr) ++ held s3
                     = held s ++ [pts item]).
    { rewrite Ha, Hh, map_pkt_pts, take_drop. exact Hh2. }
    assert (Hlen2 : length (held s2) = S (length (held s)))
      by (rewrite Hh2, length_app; cbn; lia).
    assert (Hlen3 : length (held s3) = (length (held s2) - k)%nat)
      by (rewrite Hh; apply length_drop).
    assert (Hat : attempts tr <> [] -> (0 < k)%nat).
    { rewrite Ha. destruct k; [|lia]. rewrite take_0. now intros []. }
    rewrite Hsplit.
    repeat split; auto; intros; try lia.
    specialize (Hat ltac:(assumption)). lia.
Qed.

Lemma steady_thread st s : steady s -> steady (set_encoderThread st s).
Proof. intros H. exact H. Qed.

Lemma encode_conveyed send_rc w s :
  steady s ->
  conveyed s (exec (encoder_step send_rc w) s)
    (trace (encoder_step send_rc w) s).
Proof.
  intros Hs.
  pose proof (encoder_step_spec send_rc w s) as Hspec. cbv zeta in Hspec.
  pose proof (body_carried send_rc w s Hs) as Hbody.
  pose proof (body_carried send_rc w (set_encoderThread InPop s)
                (steady_thread InPop s Hs)) as Hbody'.
  destruct Hs as (_ & Hdr & Hle).
  destruct (encoderThread s) eqn:Hth.
  - destruct (negb (stopRecording s) || _); destruct Hspec as [-> ->].
    + split; [intros; congruence | exact Hbody'].
    + split; [intros; congruence|].
      destruct (receive_loop_packets w s Hdr) as (Hh & Ha & Hp & Hwr).
      destruct (receive_loop_frame w s) as (_ & Hquiet & _ & Hla & _).
      apply quiet_trace in Hquiet. destruct Hquiet as (_ & Hpops & _).
      replace (length (held s) - lookahead (codecCtx s))%nat with 0%nat
        in Hh, Ha by lia.
      rewrite take_0 in Ha. rewrite drop_0 in Hh. cbn [map] in Ha.
      unfold carried.
      change (held (set_encoderThread Exited (exec (receive_loop w) s)))
        with (held (exec (receive_loop w) s)).
      change (outCtx (set_encoderThread Exited (exec (receive_loop w) s)))
        with (outCtx (exec (receive_loop w) s)).
      change (codecCtx (set_encoderThread Exited (exec (receive_loop w) s)))
        with (codecCtx (exec (receive_loop w) s)).
      rewrite Hpops, Ha, Hh, Hwr, Hla. cbn [map app]. rewrite app_nil_r.
      repeat split; auto; congruence.
  - split; [intros; congruence|].
    destruct Hspec as [-> ->]. exact Hbody.
  - destruct Hspec as [-> ->].
    split; [intros; congruence | now apply carried_idle].
  - destruct Hspec as [-> ->].
    split; [intros _; now split | now apply carried_idle].
Qed.

Lemma carried_quiet s s' t :
  attempts t = [] -> packets t = [] -> pops t = [] ->
  held s' = held s -> lookahead (codecCtx s') = lookahead (codecCtx s) ->
  written (outCtx s') = written (outCtx s) ->
  (length (held s) <= lookahead (codecCtx s))%nat ->
  carried s s' t.
Proof.
  intros Ha Hp Hpo Hh Hla Hw Hle. unfold carried.
  rewrite Ha, Hp, Hpo, Hh, Hla, Hw. cbn. rewrite !app_nil_r.
  repeat split; auto; congruence.
Qed.

Lemma step_conveyed ev s :
  steady s -> conveyed s (exec (step ev) s) (trace (step ev) s).
Proof.
  intros Hs.
  destruct ev as [| |now a sc|send_rc write_rc| | |now a sc];
    try (apply encode_conveyed; exact Hs).
  all: destruct Hs as (_ & _ & Hle).
  all: match goal with
       | |- conveyed _ (exec (step ?e) _) _ =>
           pose proof (step_stepped e s) as H;
           pose proof (step_exited e s _ _ H) as Hex;
           remember e as ev eqn:Hev
       end.
  all: split; [intros Hx; destruct (Hex Hx) as (? & ? & _); now split|].
  all: clear Hex.
  all: step_cases H; try discriminate Hev;
    try match goal with
        | Hp : paced _ _ _ _ |- _ => destruct Hp
        end;
    apply carried_quiet; try reflexivity; try exact Hle.
Qed.

Lemma conveyed_refl s :
  (length (held s) <= lookahead (codecCtx s))%nat -> conveyed s s [].
Proof.
  intros Hle. split; [intros Hx; now split|].
  now apply carried_quiet.
Qed.

Lemma conveyed_trans s1 s2 s3 t1 t2 :
  conveyed s1 s2 t1 -> conveyed s2 s3 t2 -> conveyed s1 s3 (t1 ++ t2).
Proof.
  intros (Hx1 & Hp1 & He1 & Hw1 & Hl1 & Hle1 & Ha1 & Hk1 & Hok1)
         (Hx2 & Hp2 & He2 & Hw2 & Hl2 & Hle2 & Ha2 & Hk2 & Hok2).
  rewrite Hl1 in *.
  split; [|unfold carried; repeat split].
  - intros Hx. destruct (Hx1 Hx) as [Hx' Hpo1].
    destruct (Hx2 Hx') as [Hx'' Hpo2].
    split; [exact Hx''|]. now rewrite pops_app, Hpo1, Hpo2.
  - rewrite attempts_app, pops_app, !map_app, <- !app_assoc.
    destruct (encoderThread s2) eqn:Hth.
    4:{ destruct (Hx2 eq_refl) as [_ Hpo2]. rewrite Hpo2 in *.
        cbn [map] in *. rewrite app_nil_r in *.
        etrans; [|exact Hp1]. now apply prefix_app. }
    all: rewrite (app_assoc (held s1)), <- He1 by congruence.
    all: rewrite <- app_assoc; now apply prefix_app.
  - intros Hne.
    assert (Hne2 : encoderThread s2 <> Exited).
    { intros Hx. now destruct (Hx2 Hx). }
    rewrite attempts_app, pops_app, !map_app, <- !app_assoc.
    rewrite (He2 Hne), (app_assoc _ (held s2)), (He1 Hne2).
    now rewrite <- app_assoc.
  - now rewrite Hw2, Hw1, packets_app, app_assoc.
  - congruence.
  - exact Hle2.
  - rewrite attempts_app. intros Hne.
    destruct (attempts t2) as [|p ps] eqn:Ht2.
    + rewrite app_nil_r in Hne. auto.
    + apply Ha2. discriminate.
  - auto.
  - intros Hok. apply Forall_app in Hok as [Hs1 Hs2].
    rewrite attempts_app, pops_app, !map_app, <- !app_assoc.
    rewrite (Hok2 Hs2), (app_assoc _ (held s2)), (Hok1 Hs1).
    now rewrite <- app_assoc.
Qed.

Lemma step_steady ev s : steady s -> steady (exec (step ev) s).
Proof.
  intros Hs.
  pose proof (step_conveyed ev s Hs) as (_ & _ & _ & _ & Hla & Hle & _).
  destruct Hs as (Hwf & Hdr & _).
  pose proof (step_stepped ev s) as H.
  split; [eapply step_well_formed; eauto|].
  destruct (step_never_drains _ _ _ _ H) as (Hdr' & _).
  split; [congruence|]. now rewrite Hla.
Qed.

Lemma run_conveyed evs s :
  steady s ->
  steady (exec (run evs) s)
  /\ conveyed s (exec (run evs) s) (trace (run evs) s).
Proof.
  revert s. induction evs as [|ev evs IH]; intros s Hs.
  - split; [exact Hs|]. apply conveyed_refl. apply Hs.
  - cbn [run]. rewrite exec_bind, trace_bind.
    destruct (IH _ (step_steady ev s Hs)) as [Hs' Hc].
    split; [exact Hs'|].
    eapply conveyed_trans; [apply step_conveyed; exact Hs | exact Hc].
Qed.

Lemma start_steady size t0 la : steady (start_with size t0 la).
Proof.
  destruct (start_with_fields size t0 la) as (_ & _ & _ & _ & Hc & _).
  split; [apply start_well_formed|]. unfold held. rewrite Hc. cbn.
  split; [reflexivity | lia].
Qed.

Lemma sorted_sublist (l k : list Z) :
  k `sublist_of` l -> StronglySorted Z.lt l -> StronglySorted Z.lt k.
Proof.
  intros Hsub. induction Hsub as [|x k l Hsub IH|x k l Hsub IH]; intros Hs.
  - constructor.
  - apply StronglySorted_inv in Hs as [Hs Hall]. constructor; [now apply IH|].
    rewrite Forall_forall in Hall. apply Forall_forall. intros y Hy.
    apply Hall. eapply elem_of_sublist; eauto.
  - apply StronglySorted_inv in Hs as [Hs _]. now apply IH.
Qed.

(** X11: the packets handed to the muxer carry, one by one and in this
    order, the pts of the frames pushed: the pts of the packets followed by
    the pts still inside the encoder are a prefix of the pts pushed; the
    file holds those packets whose write succeeded, and as long as every
    clock reading lies less than 2^31 - 1 frame intervals after the start
    (so that neither [skipCount] nor [skipCount + 1] leaves the range of
    [int]) the packets in the file have strictly increasing pts. *)
Theorem packets_follow_pushes size t0 la evs :
  let s := exec (run evs) (start_with size t0 la) in
  let t := trace (run evs) (start_with size t0 la) in
  map pkt_pts (attempts t) ++ held s `prefix_of` map pts (pushes t)
  /\ written (outCtx s) = packets t
  /\ packets t `sublist_of` attempts t
  /\ (clock_in_range t0 evs ->
      StronglySorted Z.lt (map pkt_pts (written (outCtx s)))).
Proof.
  intros s t.
  set (s0 := start_with size t0 la) in *.
  destruct (run_conveyed evs s0 (start_steady size t0 la))
    as (_ & _ & Hp & _ & Hw & _).
  fold s t in Hp, Hw.
  destruct (start_with_fields size t0 la)
    as (_ & Hq0 & _ & Ht0 & Hc & Ho & _).
  fold s0 in Hq0, Ht0, Hc, Ho.
  unfold held in Hp at 2. rewrite Hc in Hp. rewrite Ho in Hw.
  cbn [buffered written app] in Hp, Hw.
  pose proof (run_fifo evs s0) as Hfifo. fold s t in Hfifo.
  rewrite Hq0 in Hfifo. cbn [app] in Hfifo.
  assert (Hpre : map pkt_pts (attempts t) ++ held s
                 `prefix_of` map pts (pushes t)).
  { rewrite Hfifo, map_app. etrans; [exact Hp|]. now apply prefix_app_r. }
  split; [exact Hpre|]. split; [exact Hw|].
  split; [apply packets_sublist|].
  intros Hclock. rewrite Hw.
  destruct (run_pts t0 evs s0 Hclock) as (_ & _ & _ & Hsorted); [lia|].
  fold t in Hsorted.
  eapply sorted_sublist; [|exact Hsorted].
  etrans; [apply (fmap_sublist pkt_pts), packets_sublist|].
  destruct Hpre as [k Hk]. rewrite Hk, <- app_assoc.
  apply sublist_inserts_r. reflexivity.
Qed.

(** X12: the encoder is never drained.  Along every schedule it holds no
    more frames than its lookahead; once it has given out a packet it holds
    exactly that many, up to the end of the run and after the trailer; and
    as long as no send has failed, or the encoder thread has not returned,
    the packets handed to the muxer followed by the frames the encoder
    holds are the frames popped.  So the last [la] frames popped are in no
    packet. *)
Theorem lookahead_frames_withheld size t0 la evs :
  let s := exec (run evs) (start_with size t0 la) in
  let t := trace (run evs) (start_with size t0 la) in
  (length (held s) <= la)%nat
  /\ (attempts t <> [] -> length (held s) = la)
  /\ (encoderThread s <> Exited ->
      map pkt_pts (attempts t) ++ held s = map pts (pops t))
  /\ (sends_ok t -> map pkt_pts (attempts t) ++ held s = map pts (pops t))
  /\ (length (attempts t) + length (held s) <= length (pops t))%nat.
Proof.
  intros s t.
  set (s0 := start_with size t0 la) in *.
  destruct (run_conveyed evs s0 (start_steady size t0 la))
    as (_ & _ & Hp & He & _ & _ & Hle & Ha & _ & Hok).
  fold s t in Hp, He, Hle, Ha, Hok.
  destruct (start_with_fields size t0 la) as (_ & _ & _ & _ & Hc & _).
  fold s0 in Hc.
  unfold held in Hp at 2. unfold held in He at 2. unfold held in Hok at 2.
  rewrite Hc in Hp, He, Hle, Ha, Hok. cbn [buffered lookahead app] in *.
  split; [exact Hle|]. split; [exact Ha|]. split; [exact He|].
  split; [exact Hok|].
  apply prefix_length in Hp.
  rewrite length_app, !length_map in Hp. exact Hp.
Qed.

Lemma finished_frozen ev s s' t :
  stepped ev s s' t -> consistent s -> captureLoop s = Finished ->
  s' = s /\ t = [].
Proof.
  intros H (Hstop & Hexit & _) Hfin.
  specialize (Hstop (or_intror Hfin)). specialize (Hexit Hfin).
  step_cases H; try congruence;
    try (unfold runnable in *; intuition congruence);
    try (split; reflexivity).
  - split; [|reflexivity]. destruct s; cbn in *. now subst.
  - split; [|reflexivity]. destruct s; cbn in *. now subst.
Qed.

Lemma step_settles ev s s' t :
  stepped ev s s' t -> consistent s -> consistent s' /\ settles s s' t.
Proof.
  intros H Hc.
  assert (Hdec : captureLoop s = Finished \/ captureLoop s <> Finished)
    by (destruct (captureLoop s); auto; right; discriminate).
  destruct Hdec as [Hfin|Hnot].
  { destruct (finished_frozen ev s s' t H Hc Hfin) as [-> ->].
    split; [exact Hc|]. unfold settles. cbn. repeat split; try tauto. }
  destruct Hc as (Hstop & Hexit & Htr).
  assert (Hno : trailer (outCtx s) = true -> False) by tauto.
  unfold consistent, settles.
  step_cases H;
    try match goal with
        | Hp : paced _ _ _ _ |- _ => destruct Hp
        end;
    repeat match goal with
           | Hm : codec_moved _ _ _ _ |- _ =>
               destruct Hm as (_ & _ & _ & ?)
           end;
    cbn in *.
  all: repeat split; intros; try tauto; try congruence;
    try (intuition congruence); try discriminate.
  - intros [Hx|[Hx|Hx]]; try discriminate Hx.
    apply in_app_or in Hx as [Hx|[Hx|[]]]; [tauto | discriminate Hx].
  - exists []. split; [reflexivity | intros []].
Qed.

Lemma run_settles evs s :
  consistent s ->
  consistent (exec (run evs) s)
  /\ settles s (exec (run evs) s) (trace (run evs) s).
Proof.
  revert s.
  apply (run_invariant (fun s s' t =>
    consistent s -> consistent s' /\ settles s s' t)).
  - intros s Hc. split; [exact Hc|]. unfold settles. cbn.
    repeat split; tauto.
  - intros s1 s2 s3 t1 t2 H12 H23 Hc1.
    destruct (H12 Hc1) as (Hc2 & Hf1 & Hn1 & He1).
    destruct (H23 Hc2) as (Hc3 & Hf2 & Hn2 & He2).
    split; [exact Hc3|].
    assert (Hdec : captureLoop s2 = Finished \/ captureLoop s2 <> Finished)
      by (destruct (captureLoop s2); auto; right; discriminate).
    unfold settles. split; [|split].
    + intros Hfin. destruct (Hf1 Hfin) as [-> ->]. now apply Hf2.
    + intros Hnot3 Hin. apply in_app_or in Hin.
      destruct Hdec as [Hfin2|Hnot2].
      * destruct (Hf2 Hfin2) as [Heq _]. congruence.
      * destruct Hin as [Hin|Hin]; [now apply Hn1 | now apply Hn2].
    + intros Hnot1 Hfin3. destruct Hdec as [Hfin2|Hnot2].
      * destruct (Hf2 Hfin2) as [_ ->]. rewrite app_nil_r. now apply He1.
      * destruct (He2 Hnot2 Hfin3) as (t' & -> & Hnot').
        exists (t1 ++ t'). split; [now rewrite app_assoc|].
        intros Hin. apply in_app_or in Hin as [Hin|Hin];
          [now apply Hn1 | now apply Hnot'].
  - intros ev s s' t. apply step_settles.
Qed.

Lemma start_consistent size t0 la : consistent (start_with size t0 la).
Proof.
  destruct (start_with_fields size t0 la)
    as (_ & _ & _ & _ & _ & Ho & Hcap & _).
  unfold consistent. rewrite Ho, Hcap. cbn.
  repeat split; intros; try discriminate; intuition discriminate.
Qed.

(** X13: the trailer ends the run.  Along every schedule the trailer is
    written exactly when the main thread is past [join]; the stop flag is
    then set and the encoder thread has returned; the trailer is written
    once, as the last observation of the program, and no event changes the
    state or is observed after it. *)
Theorem trailer_is_final size t0 la evs :
  let s := exec (run evs) (start_with size t0 la) in
  let t := trace (run evs) (start_with size t0 la) in
  (trailer (outCtx s) = true <-> captureLoop s = Finished)
  /\ (trailer (outCtx s) = false -> ~ In WriteTrailer t)
  /\ (trailer (outCtx s) = true ->
      stopRecording s = true /\ encoderThread s = Exited
      /\ (exists t', t = t' ++ [WriteTrailer] /\ ~ In WriteTrailer t')
      /\ forall evs', exec (run evs') s = s /\ trace (run evs') s = []).
Proof.
  intros s t.
  set (s0 := start_with size t0 la) in *.
  destruct (run_settles evs s0 (start_consistent size t0 la))
    as (Hc & _ & Hn & He). fold s t in Hc, Hn, He.
  pose proof Hc as (Hstop & Hexit & Htr).
  destruct (start_with_fields size t0 la) as (_ & _ & _ & _ & _ & _ & Hcap & _).
  fold s0 in Hcap.
  split; [exact Htr|]. split.
  - intros Hf. apply Hn. intros Hfin. apply Htr in Hfin. congruence.
  - intros Ht. apply Htr in Ht.
    split; [apply Hstop; now right|]. split; [now apply Hexit|].
    split; [apply He; [congruence | exact Ht]|].
    intros evs'. destruct (run_settles evs' s Hc) as (_ & Hf & _).
    now apply Hf.
Qed.

(** The free queue is a queue: what was free and what has been released
    is what has been acquired and what is free now, in this order. *)
Lemma step_pool_fifo ev s s' t :
  stepped ev s s' t ->
  freeFrames (framePool s) ++ released t
  = acquired t ++ freeFrames (framePool s').
Proof.
  intros H. step_cases H; trace_simpl; cbn;
    rewrite ?Hf3, ?app_nil_r; try congruence.
  all: try match goal with
           | Hfree : freeFrames (framePool _) = _ :: _ |- _ => rewrite Hfree
           end; try reflexivity.
Qed.

Lemma run_pool_fifo evs s :
  freeFrames (framePool s) ++ released (trace (run evs) s)
  = acquired (trace (run evs) s) ++ freeFrames (framePool (exec (run evs) s)).
Proof.
  revert s.
  apply (run_invariant (fun s s' t =>
    freeFrames (framePool s) ++ released t
    = acquired t ++ freeFrames (framePool s'))).
  - intros s. cbn. now rewrite app_nil_r.
  - intros s1 s2 s3 t1 t2 H12 H23.
    rewrite released_app, acquired_app, app_assoc, H12, <- app_assoc, H23.
    now rewrite app_assoc.
  - apply step_pool_fifo.
Qed.

(** X14: the pool hands out its frames in the order in which it got them:
    the frames of the construction followed by the frames released are the
    frames acquired followed by the frames that are free, so the k-th frame
    acquired is the k-th of the frames built and then released. *)
Theorem pool_fifo size t0 la evs :
  let s0 := start_with size t0 la in
  let s := exec (run evs) s0 in
  let t := trace (run evs) s0 in
  frame_addrs 1 (Z.to_nat size) ++ released t
  = acquired t ++ freeFrames (framePool s)
  /\ (forall k f, acquired t !! k = Some f ->
        (frame_addrs 1 (Z.to_nat size) ++ released t) !! k = Some f).
Proof.
  intros s0 s t.
  destruct (start_with_pool size t0 la) as (Hpool & _). fold s0 in Hpool.
  pose proof (run_pool_fifo evs s0) as Hfifo. fold s t in Hfifo.
  rewrite Hpool in Hfifo. split; [exact Hfifo|].
  intros k f Hk. rewrite Hfifo. now apply lookup_app_l_Some.
Qed.

(** The encoder thread leaves the capture loop, the flag and what the
    capture loop owns alone, and acquires and pushes nothing. *)
Lemma step_encode_only ev s s' t :
  is_encode ev -> stepped ev s s' t ->
  captureLoop s' = captureLoop s /\ stopRecording s' = stopRecording s
  /\ frameCounter s' = frameCounter s /\ nextFrameTime s' = nextFrameTime s
  /\ acquired t = [] /\ pushes t = [] /\ ~ In WriteTrailer t.
Proof.
  intros Hev H.
  step_cases H; cbn [is_encode] in Hev; try contradiction;
    trace_simpl; cbn; repeat split; try tauto.
  - intros [Hx|[]]. discriminate Hx.
  - intros [Hx|[Hx|[Hx|Hx]]]; try discriminate Hx. tauto.
  - intros [Hx|[Hx|Hx]]; try discriminate Hx.
    apply in_app_or in Hx as [Hx|[Hx|[]]]; [tauto | discriminate Hx].
Qed.

Lemma run_encode_only evs s :
  Forall is_encode evs ->
  let s' := exec (run evs) s in
  let t := trace (run evs) s in
  captureLoop s' = captureLoop s /\ stopRecording s' = stopRecording s
  /\ frameCounter s' = frameCounter s /\ nextFrameTime s' = nextFrameTime s
  /\ acquired t = [] /\ pushes t = [] /\ ~ In WriteTrailer t.
Proof.
  revert s.
  apply (run_invariant_on is_encode (fun s s' t =>
    captureLoop s' = captureLoop s /\ stopRecording s' = stopRecording s
    /\ frameCounter s' = frameCounter s /\ nextFrameTime s' = nextFrameTime s
    /\ acquired t = [] /\ pushes t = [] /\ ~ In WriteTrailer t)).
  - intros s. repeat split. intros [].
  - intros s1 s2 s3 t1 t2 (H1 & H2 & H3 & H4 & H5 & H6 & H7)
                          (G1 & G2 & G3 & G4 & G5 & G6 & G7).
    rewrite acquired_app, pushes_app, H5, H6, G5, G6.
    repeat split; try congruence.
    intros Hin. apply in_app_or in Hin. tauto.
  - intros ev s s' t. apply step_encode_only.
Qed.

(** X15: a clean shutdown.  When the signal arrives while the capture loop
    is at the head of an iteration and the encoder thread is not waiting in
    [pop], and neither the encoder nor the muxer fails, then the capture
    loop ends without another frame, the encoder thread takes every frame
    that is queued, in order, and gives each back to the pool, the queue is
    empty, nothing is acquired or pushed, and the trailer is written last. *)
Theorem clean_shutdown s :
  captureLoop s = Capturing -> runnable s ->
  draining (codecCtx s) = false ->
  let evs := shutdown (length (q (frameQueue s))) in
  let s' := exec (run evs) s in
  let t := trace (run evs) s in
  captureLoop s' = Finished /\ encoderThread s' = Exited
  /\ trailer (outCtx s') = true
  /\ q (frameQueue s') = []
  /\ pops t = q (frameQueue s)
  /\ released t = map frame (q (frameQueue s))
  /\ freeFrames (framePool s')
     = freeFrames (framePool s) ++ map frame (q (frameQueue s))
  /\ acquired t = [] /\ pushes t = []
  /\ frameCounter s' = frameCounter s
  /\ exists t', t = t' ++ [WriteTrailer] /\ ~ In WriteTrailer t'.
Proof.
  intros Hcap Hrun Hdr evs s' t.
  set (n := length (q (frameQueue s))) in *.
  set (encs := repeat (Encode 0 0) n ++ [Encode 0 0; Encode 0 0]).
  assert (Hevs : evs = [Sigint; CaptureHead] ++ encs ++ [Join]).
  { subst evs encs. unfold shutdown. now rewrite <- !app_assoc. }
  (* the signal and the test of the flag *)
  set (s1 := set_captureLoop Joining (set_stopRecording true s)).
  assert (H1 : exec (run [Sigint; CaptureHead]) s = s1
               /\ trace (run [Sigint; CaptureHead]) s = []).
  { cbn [run]. rewrite !exec_bind, !trace_bind. cbn [step].
    destruct (signalHandler_spec s) as [-> ->].
    pose proof (capture_head_spec (set_stopRecording true s)) as Hh.
    cbn in Hh. rewrite Hcap in Hh. destruct Hh as [Hh1 Hh2].
    rewrite Hh1, Hh2. split; reflexivity. }
  destruct H1 as [He1 Ht1].
  (* the encoder thread *)
  set (s2 := exec (run encs) s1).
  set (t2 := trace (run encs) s1).
  assert (Hrun1 : runnable s1) by exact Hrun.
  destruct (drains_then_exits (q (frameQueue s)) s1 Hrun1 eq_refl Hdr eq_refl)
    as (Hex & Hpops & Hrel).
  fold n encs s2 t2 in Hex, Hpops, Hrel.
  assert (Henc : Forall is_encode encs).
  { subst encs. apply Forall_app. split.
    - apply List.Forall_forall. intros ev Hin.
      apply repeat_spec in Hin. now subst.
    - repeat constructor. }
  destruct (run_encode_only encs s1 Henc) as (Hc2 & _ & Hfc & _ & Hacq & Hpu & Hnt).
  fold s2 t2 in Hc2, Hfc, Hacq, Hpu, Hnt.
  pose proof (run_fifo encs s1) as Hfifo. fold s2 t2 in Hfifo.
  rewrite Hpu, Hpops, app_nil_r in Hfifo.
  change (q (frameQueue s1)) with (q (frameQueue s)) in Hfifo.
  assert (Hq2 : q (frameQueue s2) = []).
  { apply (app_inv_head (q (frameQueue s))). now rewrite app_nil_r. }
  pose proof (run_pool_fifo encs s1) as Hpool. fold s2 t2 in Hpool.
  rewrite Hacq, Hrel in Hpool. cbn [app] in Hpool.
  (* the join *)
  clearbody encs.
  pose proof (join_step_spec s2) as Hj. rewrite Hc2, Hex in Hj.
  cbn in Hj. destruct Hj as [Hj1 Hj2].
  assert (Hs' : s' = exec join_step s2).
  { subst s'. rewrite Hevs.
    rewrite (exec_run_app [Sigint; CaptureHead]), He1.
    rewrite (exec_run_app encs). fold s2.
    cbn [run]. now rewrite exec_bind. }
  assert (Ht : t = t2 ++ [WriteTrailer]).
  { subst t. rewrite Hevs.
    rewrite (trace_run_app [Sigint; CaptureHead]), Ht1, He1.
    rewrite (trace_run_app encs). fold s2 t2.
    cbn [run app]. rewrite trace_bind. cbn [step].
    rewrite Hj2. reflexivity. }
  rewrite Hs', Hj1, Ht.
  rewrite pops_app, released_app, acquired_app, pushes_app.
  rewrite Hpops, Hrel, Hacq, Hpu. cbn. rewrite !app_nil_r.
  repeat split; try assumption; try (symmetry; assumption).
  exists t2. split; [reflexivity | exact Hnt].
Qed.

Lemma wake_exited st : wake st = Exited -> st = Exited.
Proof. destruct st; cbn; congruence. Qed.

Lemma writes_only t o :
  forallb is_write t = true -> is_write o = false -> ~ In o t.
Proof.
  intros Hw Ho Hin. rewrite forallb_forall in Hw.
  specialize (Hw o Hin). congruence.
Qed.

Lemma step_recording ev s s' t :
  no_signal ev -> stepped ev s s' t -> recording s s' t.
Proof.
  intros Hev H Hstop Hloop.
  step_cases H; try (now elim Hev);
    try match goal with
        | Hp : paced _ _ _ _ |- _ => destruct Hp
        end;
    repeat match goal with
           | Hm : codec_moved _ _ _ _ |- _ =>
               destruct Hm as (Hw & _);
               pose proof (writes_only _ (Pop None) Hw eq_refl)
           end;
    cbn in *; try congruence.
  all: repeat split; auto; try tauto; try congruence;
    try (intros [Hx|Hx]; [discriminate Hx | tauto]);
    try (intuition congruence); try (intuition discriminate).
  all: try (intros Hne Hx; apply wake_exited in Hx; contradiction).
  intros [Hx|[Hx|Hx]]; try discriminate Hx.
  apply in_app_or in Hx as [Hx|[Hx|[]]]; [tauto | discriminate Hx].
Qed.

Lemma run_recording evs s :
  Forall no_signal evs ->
  recording s (exec (run evs) s) (trace (run evs) s).
Proof.
  revert s. apply (run_invariant_on no_signal recording).
  - intros s Hstop Hloop. repeat split; auto.
  - intros s1 s2 s3 t1 t2 H12 H23 Hstop Hloop.
    destruct (H12 Hstop Hloop) as (Hs2 & Hl2 & Hp1 & He1).
    destruct (H23 Hs2 Hl2) as (Hs3 & Hl3 & Hp2 & He2).
    split; [exact Hs3|]. split; [exact Hl3|]. split.
    + intros Hin. apply in_app_or in Hin. tauto.
    + intros Hne1 Hex3. apply in_or_app.
      destruct (encoderThread s2) eqn:Hth;
        try (right; apply He2; [congruence | exact Hex3]).
      left. now apply He1.
  - intros ev s s' t. apply step_recording.
Qed.

(** X16: only the signal ends a recording.  Along every schedule without a
    signal the stop flag stays clear, the capture loop keeps running, [pop]
    never returns false, the trailer is never written, and the encoder
    thread has returned only if a send failed and was logged: then the
    capture loop goes on without an encoder. *)
Theorem runs_until_signalled size t0 la evs :
  Forall no_signal evs ->
  let s := exec (run evs) (start_with size t0 la) in
  let t := trace (run evs) (start_with size t0 la) in
  stopRecording s = false
  /\ (captureLoop s = Capturing \/ captureLoop s = InBody)
  /\ trailer (outCtx s) = false
  /\ ~ In WriteTrailer t
  /\ ~ In (Pop None) t
  /\ (encoderThread s = Exited ->
      In (Cerr "Error sending frame to encoder") t).
Proof.
  intros Hevs s t.
  set (s0 := start_with size t0 la) in *.
  destruct (start_with_fields size t0 la)
    as (Hstop0 & _ & _ & _ & _ & _ & Hcap0 & Hth0).
  fold s0 in Hstop0, Hcap0, Hth0.
  destruct (run_recording evs s0 Hevs Hstop0 (or_introl Hcap0))
    as (Hstop & Hloop & Hpop & Hex). fold s t in Hstop, Hloop, Hpop, Hex.
  destruct (run_settles evs s0 (start_consistent size t0 la))
    as ((_ & _ & Htr) & _ & Hn & _). fold s t in Htr, Hn.
  assert (Hnf : captureLoop s <> Finished) by (destruct Hloop; congruence).
  split; [exact Hstop|]. split; [exact Hloop|]. split.
  { apply not_true_is_false. intros E. apply Hnf, Htr, E. }
  split; [now apply Hn|]. split; [exact Hpop|].
  apply Hex. congruence.
Qed.

(** X17: inside the range of [int] the deadline is never left in the past.
    After an iteration that read the clock less than 2^31 - 1 frame
    intervals past the deadline (so that [skipCount + 1] stays below 2^31),
    the next deadline is not before that clock reading; after a catch-up it
    is the first point of the 33 ms grid after the reading, so at most one
    interval ahead, and otherwise it is one interval after the old one. *)
Theorem deadline_realigned s now a sh sc :
  let interval := ms_ticks (frameInterval targetFPS) in
  let next' := nextFrameTime (exec (capture_iteration now a sh sc) s) in
  (now - nextFrameTime s) / interval + 1 < 2 ^ 31 ->
  now <= next'
  /\ (now > nextFrameTime s + interval ->
      now < next' <= now + interval
      /\ (interval | next' - nextFrameTime s))
  /\ (now <= nextFrameTime s + interval ->
      next' = nextFrameTime s + interval).
Proof.
  intros interval next' Hfit.
  assert (Hi : interval = 33000000) by reflexivity.
  assert (Hnext : next' = nextFrameTime (exec (pace now) s)).
  { subst next'. unfold capture_iteration. rewrite exec_bind.
    now destruct (grab_frame_counter (exec (pace now) s) a sh sc) as [-> _]. }
  destruct (Z_gt_le_dec now (nextFrameTime s + interval)) as [Hlate|Hok].
  - destruct (pace_behind s now Hlate Hfit) as [Hexec _].
    fold interval in Hexec. rewrite Hexec in Hnext.
    cbn [nextFrameTime set_nextFrameTime] in Hnext.
    set (d := now - nextFrameTime s) in *.
    assert (Hdm : d = interval * (d / interval) + d mod interval)
      by (apply Z.div_mod; lia).
    assert (Hmod : 0 <= d mod interval < interval)
      by (apply Z.mod_pos_bound; lia).
    assert (Hrange : now < next' <= now + interval).
    { rewrite Hnext. subst d. nia. }
    split; [lia|]. split; [|lia].
    intros _. split; [exact Hrange|].
    rewrite Hnext. exists (d / interval + 1). lia.
  - destruct (pace_on_time s now Hok) as [Hexec _].
    fold interval in Hexec. rewrite Hexec in Hnext.
    cbn [nextFrameTime set_nextFrameTime] in Hnext.
    split; [lia|]. split; [lia|]. intros _. exact Hnext.
Qed.

Lemma deadline_realigned_witness :
  let s := boot 0 1 in
  let now := ms_ticks 100 in
  let next' := nextFrameTime (exec (capture_iteration now true false 720) s) in
  now < next' <= now + ms_ticks (frameInterval targetFPS).
Proof.
  intros s now next'.
  assert (Hfit : (now - nextFrameTime s) / ms_ticks (frameInterval targetFPS)
                 + 1 < 2 ^ 31) by (vm_compute; reflexivity).
  destruct (deadline_realigned s now true false 720 Hfit) as (_ & Hlate & _).
  apply Hlate. vm_compute. reflexivity.
Defined.

Lemma packets_follow_pushes_witness :
  let evs := [CaptureHead; Capture 0 true 720; Encode 0 0] in
  clock_in_range 0 evs
  /\ StronglySorted Z.lt
       (map pkt_pts (written (outCtx (exec (run evs) (start_with 2 0 0))))).
Proof.
  intros evs.
  assert (Hclock : clock_in_range 0 evs).
  { repeat constructor; vm_compute; reflexivity. }
  split; [exact Hclock|].
  destruct (packets_follow_pushes 2 0 0 evs) as (_ & _ & _ & Hsorted).
  exact (Hsorted Hclock).
Defined.

Lemma lookahead_frames_withheld_witness :
  let evs := [CaptureHead; Capture 0 true 720;
              CaptureHead; Capture 33000000 true 720;
              Encode 0 0; Encode 0 0] in
  attempts (trace (run evs) (start_with 2 0 1)) <> []
  /\ length (held (exec (run evs) (start_with 2 0 1))) = 1%nat.
Proof.
  intros evs.
  assert (Ha : attempts (trace (run evs) (start_with 2 0 1)) <> []).
  { vm_compute. discriminate. }
  split; [exact Ha|].
  destruct (lookahead_frames_withheld 2 0 1 evs) as (_ & Hfull & _).
  exact (Hfull Ha).
Defined.

Lemma trailer_is_final_witness :
  let evs := [CaptureHead; Capture 0 true 720; Sigint; CaptureHead;
              Encode 0 0; Encode 0 0; Join] in
  let s := exec (run evs) (start_with 2 0 1) in
  trailer (outCtx s) = true
  /\ forall evs', exec (run evs') s = s /\ trace (run evs') s = [].
Proof.
  intros evs s.
  assert (Ht : trailer (outCtx s) = true) by (vm_compute; reflexivity).
  split; [exact Ht|].
  destruct (trailer_is_final 2 0 1 evs) as (_ & _ & Hend).
  destruct (Hend Ht) as (_ & _ & _ & Hfrozen). exact Hfrozen.
Defined.

Lemma pool_fifo_witness :
  let evs := [CaptureHead; Capture 0 true 720] in
  let t := trace (run evs) (start_with 2 0 1) in
  acquired t !! 0%nat = Some 1%nat
  /\ (frame_addrs 1 2 ++ released t) !! 0%nat = Some 1%nat.
Proof.
  intros evs t.
  assert (Ha : acquired t !! 0%nat = Some 1%nat) by (vm_compute; reflexivity).
  split; [exact Ha|].
  destruct (pool_fifo 2 0 1 evs) as (_ & Hk).
  exact (Hk 0%nat 1%nat Ha).
Defined.

Lemma clean_shutdown_witness :
  let s := exec (run [CaptureHead; Capture 0 true 720]) (start_with 2 0 1) in
  let evs := shutdown (length (q (frameQueue s))) in
  (captureLoop s = Capturing /\ runnable s /\ draining (codecCtx s) = false)
  /\ captureLoop (exec (run evs) s) = Finished
  /\ q (frameQueue (exec (run evs) s)) = []
  /\ pops (trace (run evs) s) = q (frameQueue s).
Proof.
  intros s evs.
  assert (Hcap : captureLoop s = Capturing) by (vm_compute; reflexivity).
  assert (Hrun : runnable s) by (left; vm_compute; reflexivity).
  assert (Hdr : draining (codecCtx s) = false) by (vm_compute; reflexivity).
  clearbody s.
  split; [split; [exact Hcap | split; [exact Hrun | exact Hdr]]|].
  destruct (clean_shutdown s Hcap Hrun Hdr)
    as (Hfin & _ & _ & Hq & Hpops & _).
  split; [exact Hfin | split; [exact Hq | exact Hpops]].
Defined.

Lemma runs_until_signalled_witness :
  let evs := [CaptureHead; Capture 0 true 720; Encode (-1) 0] in
  Forall no_signal evs
  /\ stopRecording (exec (run evs) (start_with 2 0 1)) = false
  /\ In (Cerr "Error sending frame to encoder")
       (trace (run evs) (start_with 2 0 1)).
Proof.
  intros evs.
  assert (Hevs : Forall no_signal evs).
  { repeat constructor; discriminate. }
  split; [exact Hevs|].
  destruct (runs_until_signalled 2 0 1 evs Hevs)
    as (Hstop & _ & _ & _ & _ & Hex).
  split; [exact Hstop|]. apply Hex. vm_compute. reflexivity.
Defined.

Lemma sends_ok_quiet t :
  Forall (fun o => forall f rc, o <> SendFrame f rc) t ->
  Forall (fun o => forall f rc, o = SendFrame f rc -> 0 <= rc) t.
Proof.
  intros H. eapply Forall_impl; [exact H|].
  intros o Hno f rc Heq. now destruct (Hno f rc).
Qed.

(** A step keeps the frames of the two queues, but for the frame of a
    failed send, after which the encoder thread has returned. *)
Lemma step_lost ev s s' t :
  stepped ev s s' t ->
  owned s' ≡ₚ owned s
  \/ exists f rc,
       f :: owned s' ≡ₚ owned s /\ encoderThread s' = Exited
       /\ In (SendFrame (Some f) rc) t /\ rc < 0.
Proof.
  intros H.
  pose proof (step_owned ev s s' t H) as (_ & _ & _ & Hperm).
  step_cases H.
  all: try (left; apply Hperm;
            repeat first [ apply Forall_app; split
                         | apply List.Forall_nil
                         | apply sends_ok_quiet; assumption
                         | apply List.Forall_cons;
                           [intros ? ? Heq; try discriminate Heq;
                            injection Heq as _ <-; lia|] ]; fail).
  right. exists (frame item), rc. unfold owned. cbn. rewrite H0. cbn [map].
  split; [apply Permutation_middle|]. split; [reflexivity|].
  split; [right; left; reflexivity | exact H1].
Qed.

Lemma run_lost evs s :
  let s' := exec (run evs) s in
  let t := trace (run evs) s in
  owned s' ≡ₚ owned s
  \/ exists f rc,
       f :: owned s' ≡ₚ owned s /\ encoderThread s' = Exited
       /\ In (SendFrame (Some f) rc) t /\ rc < 0.
Proof.
  revert s. induction evs as [|ev evs IH]; intros s; cbv zeta.
  - left. reflexivity.
  - cbn [run]. rewrite exec_bind, trace_bind.
    set (s1 := exec (step ev) s). set (t1 := trace (step ev) s).
    destruct (step_lost ev s s1 t1 (step_stepped ev s))
      as [Hperm|(f & rc & Hperm & Hex & Hin & Hrc)].
    + destruct (IH s1) as [Hperm'|(f & rc & Hperm' & Hex & Hin & Hrc)].
      * left. now rewrite Hperm'.
      * right. exists f, rc. rewrite <- Hperm.
        repeat split; try assumption. apply in_or_app. now right.
    + right. exists f, rc.
      destruct (run_exited evs s1 Hex) as (Hex' & _ & Hno).
      destruct (run_owned evs s1) as (_ & _ & _ & Hkeep).
      rewrite (Hkeep (sends_ok_quiet _ Hno)).
      repeat split; try assumption. apply in_or_app. now left.
Qed.

(** X18: frames are lost to a failed send only, and one at most.  Along
    every schedule the frames in the pool and in the queue are the frames
    of the construction, or all of them but one: then a send has failed on
    that frame, the encoder thread has returned, and the frame is in
    neither queue. *)
Theorem at_most_one_frame_lost size t0 la evs :
  let s0 := start_with size t0 la in
  let s := exec (run evs) s0 in
  let t := trace (run evs) s0 in
  owned s ≡ₚ freeFrames (framePool s0)
  \/ exists f rc,
       f :: owned s ≡ₚ freeFrames (framePool s0)
       /\ (f ∉ owned s)
       /\ encoderThread s = Exited
       /\ In (SendFrame (Some f) rc) t /\ rc < 0.
Proof.
  intros s0 s t.
  destruct (start_with_pool size t0 la) as (Hpool & _).
  destruct (start_with_fields size t0 la) as (_ & Hq0 & _).
  fold s0 in Hpool, Hq0.
  assert (Howned0 : owned s0 = freeFrames (framePool s0)).
  { unfold owned. rewrite Hq0. cbn [map]. now rewrite app_nil_r. }
  destruct (run_lost evs s0) as [Hperm|(f & rc & Hperm & Hex & Hin & Hrc)];
    rewrite Howned0 in Hperm.
  - now left.
  - fold s in Hperm, Hex. fold t in Hin.
    right. exists f, rc. repeat split; try assumption.
    assert (Hnd : NoDup (f :: owned s)).
    { rewrite Hperm, Hpool. apply frame_addrs_NoDup. }
    now apply NoDup_cons in Hnd as [Hnot _].
Qed.

(** The encoder thread waits on an empty queue only. *)
Lemma step_parked_empty ev s s' t :
  stepped ev s s' t ->
  (encoderThread s = Parked -> q (frameQueue s) = []) ->
  encoderThread s' = Parked -> q (frameQueue s') = [].
Proof.
  intros H Hinv Hpk.
  step_cases H; cbn in *; rewrite ?Hf2, ?Hf9 in *;
    try (apply Hinv; assumption); try discriminate; try assumption;
    try (destruct (encoderThread s); discriminate).
Qed.

Lemma run_parked_empty evs s :
  (encoderThread s = Parked -> q (frameQueue s) = []) ->
  encoderThread (exec (run evs) s) = Parked ->
  q (frameQueue (exec (run evs) s)) = [].
Proof.
  revert s.
  apply (run_invariant (fun s s' _ =>
    (encoderThread s = Parked -> q (frameQueue s) = []) ->
    encoderThread s' = Parked -> q (frameQueue s') = [])).
  - auto.
  - auto.
  - apply step_parked_empty.
Qed.

(** X19: the encoder thread never sleeps on frames.  Along every schedule,
    when the thread waits in [pop] the queue is empty, for [push] wakes it;
    so as long as the thread has not returned, its next step takes the
    oldest queued frame, whatever the encoder and the muxer answer. *)
Theorem never_asleep_on_frames size t0 la evs :
  let s := exec (run evs) (start_with size t0 la) in
  (encoderThread s = Parked -> q (frameQueue s) = [])
  /\ (forall item rest send_rc write_rc,
        q (frameQueue s) = item :: rest -> encoderThread s <> Exited ->
        pops (trace (encoder_step send_rc write_rc) s) = [item]
        /\ q (frameQueue (exec (encoder_step send_rc write_rc) s)) = rest).
Proof.
  intros s.
  set (s0 := start_with size t0 la) in *.
  destruct (start_with_fields size t0 la) as (_ & Hq0 & _).
  fold s0 in Hq0.
  assert (Hpark : encoderThread s = Parked -> q (frameQueue s) = []).
  { apply run_parked_empty. intros _. exact Hq0. }
  split; [exact Hpark|].
  clearbody s. clear s0 Hq0.
  intros item rest send_rc write_rc Hq Hne.
  assert (Hrun : runnable s).
  { unfold runnable. destruct (encoderThread s) eqn:Hth; auto.
    - specialize (Hpark eq_refl). congruence.
    - congruence. }
  pose proof (step_stepped (Encode send_rc write_rc) s) as H.
  cbn [step] in H.
  pose proof (step_fifo _ _ _ _ H) as Hfifo.
  remember (Encode send_rc write_rc) as ev eqn:Hev.
  remember (exec (encoder_step send_rc write_rc) s) as s' eqn:Hs'.
  remember (trace (encoder_step send_rc write_rc) s) as t eqn:Ht.
  clear Hs' Ht.
  step_cases H; try discriminate Hev;
    unfold runnable in *; try (intuition congruence);
    try congruence.
  all: revert Hfifo; trace_simpl; cbn; rewrite ?Hq; intros Hfifo.
  all: rewrite app_nil_r in Hfifo; injection Hfifo as <- <-.
  all: split; reflexivity.
Qed.

(** Without the encoder thread every frame acquired is pushed or given
    back by the capture loop. *)
Lemma step_no_encoder ev s s' t :
  stepped ev s s' t -> encoderThread s = Exited ->
  length (acquired t) = (length (pushes t) + length (released t))%nat.
Proof.
  intros H Hex.
  step_cases H; try (unfold runnable in *; intuition congruence);
    trace_simpl; cbn; reflexivity.
Qed.

Lemma run_no_encoder evs s :
  encoderThread s = Exited ->
  length (acquired (trace (run evs) s))
  = (length (pushes (trace (run evs) s))
     + length (released (trace (run evs) s)))%nat.
Proof.
  intros Hex.
  cut (encoderThread (exec (run evs) s) = Exited
       /\ length (acquired (trace (run evs) s))
          = (length (pushes (trace (run evs) s))
             + length (released (trace (run evs) s)))%nat);
    [tauto|].
  revert s Hex.
  apply (run_invariant (fun s s' t =>
    encoderThread s = Exited ->
    encoderThread s' = Exited
    /\ length (acquired t) = (length (pushes t) + length (released t))%nat)).
  - intros s Hex. split; [exact Hex | reflexivity].
  - intros s1 s2 s3 t1 t2 H12 H23 Hex.
    destruct (H12 Hex) as [Hex2 Hc1]. destruct (H23 Hex2) as [Hex3 Hc2].
    split; [exact Hex3|].
    rewrite acquired_app, pushes_app, released_app, !length_app. lia.
  - intros ev s s' t H Hex.
    split; [now destruct (step_exited ev s s' t H Hex)|].
    now apply (step_no_encoder ev s s' t).
Qed.

(** X20: without its encoder thread the capture loop runs the pool dry.
    Once the encoder thread has returned, along every schedule nothing is
    popped, the frames pushed stay in the queue, and each of them takes one
    frame from the pool for good: the frames pushed and the frames still
    free are as many as the frames that were free, so that with an empty
    pool nothing is pushed any more. *)
Theorem capture_stalls_without_encoder s evs :
  encoderThread s = Exited ->
  let s' := exec (run evs) s in
  let t := trace (run evs) s in
  pops t = []
  /\ q (frameQueue s') = q (frameQueue s) ++ pushes t
  /\ (length (pushes t) + length (freeFrames (framePool s'))
      = length (freeFrames (framePool s)))%nat
  /\ (freeFrames (framePool s) = [] -> pushes t = []).
Proof.
  intros Hex s' t.
  destruct (run_exited evs s Hex) as (_ & Hpops & _). fold t in Hpops.
  pose proof (run_fifo evs s) as Hfifo. fold s' t in Hfifo.
  rewrite Hpops in Hfifo. cbn [app] in Hfifo.
  pose proof (run_pool_fifo evs s) as Hpool. fold s' t in Hpool.
  pose proof (run_no_encoder evs s Hex) as Hcount. fold t in Hcount.
  apply (f_equal (@length nat)) in Hpool. rewrite !length_app in Hpool.
  assert (Hlen : (length (pushes t) + length (freeFrames (framePool s'))
                  = length (freeFrames (framePool s)))%nat) by lia.
  split; [exact Hpops|]. split; [now symmetry|]. split; [exact Hlen|].
  intros Hempty. rewrite Hempty in Hlen. cbn in Hlen.
  destruct (pushes t); [reflexivity | cbn in Hlen; lia].
Qed.

Lemma capture_stalls_without_encoder_witness :
  let s := exec (run [CaptureHead; Capture 0 true 720; Encode (-1) 0])
             (start_with 1 0 1) in
  let evs := [CaptureHead; Capture 33000000 true 720] in
  encoderThread s = Exited
  /\ freeFrames (framePool s) = []
  /\ pushes (trace (run evs) s) = [].
Proof.
  intros s evs.
  assert (Hex : encoderThread s = Exited) by (vm_compute; reflexivity).
  assert (Hfree : freeFrames (framePool s) = []) by (vm_compute; reflexivity).
  clearbody s.
  split; [exact Hex|]. split; [exact Hfree|].
  destruct (capture_stalls_without_encoder s evs Hex) as (_ & _ & _ & Hdry).
  exact (Hdry Hfree).
Defined.

Lemma at_most_one_frame_lost_witness :
  let evs := [CaptureHead; Capture 0 true 720; Encode (-1) 0] in
  let s := exec (run evs) (start_with 2 0 1) in
  ~ owned s ≡ₚ freeFrames (framePool (start_with 2 0 1))
  /\ exists f rc,
       f :: owned s ≡ₚ freeFrames (framePool (start_with 2 0 1))
       /\ (f ∉ owned s)
       /\ encoderThread s = Exited
       /\ In (SendFrame (Some f) rc) (trace (run evs) (start_with 2 0 1))
       /\ rc < 0.
Proof.
  intros evs s.
  assert (Hnot : ~ owned s ≡ₚ freeFrames (framePool (start_with 2 0 1))).
  { intros Hperm. apply Permutation_length in Hperm.
    vm_compute in Hperm. discriminate Hperm. }
  split; [exact Hnot|].
  destruct (at_most_one_frame_lost 2 0 1 evs) as [Hperm|Hlost].
  - destruct (Hnot Hperm).
  - exact Hlost.
Defined.

Lemma never_asleep_on_frames_witness :
  let evs := [Encode 0 0; CaptureHead; Capture 0 true 720] in
  let s := exec (run evs) (start_with 2 0 1) in
  q (frameQueue s) = [mkFrameItem 1 0]
  /\ encoderThread s <> Exited
  /\ pops (trace (encoder_step 0 0) s) = [mkFrameItem 1 0].
Proof.
  intros evs s.
  assert (Hq : q (frameQueue s) = [mkFrameItem 1 0])
    by (vm_compute; reflexivity).
  assert (Hne : encoderThread s <> Exited) by (vm_compute; discriminate).
  split; [exact Hq|]. split; [exact Hne|].
  destruct (never_asleep_on_frames 2 0 1 evs) as (_ & Hnext).
  destruct (Hnext _ _ 0 0 Hq Hne) as [Hpops _]. exact Hpops.
Defined.
End PipelineFacts.
